(** * Crawl job orchestration: a shallow embedding of the crawler service

    This development embeds the parts of the web crawler that its
    specification makes claims about, and what they call and are called
    by:

    - [src/ocr/ocrService.js]: [calculateConfidence], the result record
      built by [processImage], [truncateColor] and the grayscale pass of
      [preprocessImage];
    - [src/crawler/crawlerService.js]: [handleInfiniteScroll], the crawl
      loop of [processCrawl], [extractLinks], [processScreenshotWithOCR],
      [updateCrawlStatus], [cleanupCrawl], [getCrawlStatus], [pauseCrawl],
      [resumeCrawl], [stopCrawl], [startCrawl] and [getCrawlLogs];
    - [src/api/controllers/crawlerController.js]: the handler of the logs
      route;
    - [src/models/OCRResult.js]: [textLength], [wordCount] and
      [addKeywords].

    Conventions of the embedding.

    - JavaScript strings that are only compared or stored (urls, ids,
      messages) are [string]; the recognised text, whose characters are
      inspected, is a list of UTF-16 code units ([list N]).
    - Integers (depths, counters, clock readings in ms) are [Z].  The
      confidence heuristic computes with fractions and a logarithm: its
      numbers are real numbers ([R]), an idealisation of IEEE doubles.
      The argument of [truncateColor] is any number, [NaN] and the
      infinities included.
    - The process-wide [activeCrawls] Map is a [gmap] from crawl id to a
      reference; the job objects live in a heap, because the crawl loop
      keeps its own reference to the job object after the Map entry is
      deleted.
    - In [step] and [run] an [async] function is run to completion between
      two scheduling points; the scheduling points are the head of the
      crawl loop and the entry of a command: commands and loop iterations
      follow each other and do not overlap.  [stopCrawl] with the
      [cleanupCrawl] it calls is also embedded await by await
      ([stop_call], [stop_resume]), to follow two calls that overlap.
      What the browser, the OCR engine, the advisory service and the
      clock answer is an input ([Outcome], [ScrollPage]).
    - [crawlJob.save()] rejects a document that does not pass the schema
      of the stored job or whose id is taken; the other store operations,
      the loggers, the socket broadcasts and [context.newPage()] do not
      throw.

    Part I holds the definitions, Part II the lemmas and the theorems. *)

From Stdlib Require Import ZArith List Lia Reals Lra.
From stdpp Require Import gmap strings list sorting.
Import ListNotations.

Local Open Scope Z_scope.

(** ** Part I: definitions *)

(** *** OCR confidence heuristic ([src/ocr/ocrService.js]) *)

Module Ocr.

(** ECMAScript white space and line terminators: what [\s] matches and what
    [String.prototype.trim] strips. *)
Definition is_whitespace (c : N) : bool :=
  ((c =? 9) || (c =? 10) || (c =? 11) || (c =? 12) || (c =? 13) || (c =? 32)
   || (c =? 160) || (c =? 5760) || ((8192 <=? c) && (c <=? 8202))
   || (c =? 8232) || (c =? 8233) || (c =? 8239) || (c =? 8287)
   || (c =? 12288) || (c =? 65279))%N.

(** The character class of [/[?#~|{}\[\]]/g]. *)
Definition is_error_char (c : N) : bool :=
  ((c =? 63) || (c =? 35) || (c =? 126) || (c =? 124)
   || (c =? 123) || (c =? 125) || (c =? 91) || (c =? 93))%N.

Fixpoint drop_whitespace (s : list N) : list N :=
  match s with
  | [] => []
  | c :: s' => if is_whitespace c then drop_whitespace s' else s
  end.

(** [text.trim()] *)
Definition trim (s : list N) : list N :=
  rev (drop_whitespace (rev (drop_whitespace s))).

(** [text.split(/\s+/)]: the pieces between maximal runs of white space;
    a separator at either end leaves an empty piece there. [cur] is the
    piece being read, reversed. *)
Fixpoint split_from (cur : list N) (in_sep : bool) (s : list N) : list (list N) :=
  match s with
  | [] => [rev cur]
  | c :: s' =>
      if is_whitespace c
      then (if in_sep then split_from [] true s'
            else rev cur :: split_from [] true s')
      else split_from (c :: cur) false s'
  end.

Definition split_whitespace (s : list N) : list (list N) := split_from [] false s.

(** [Math.log10], [Math.round] (nearest integer, ties upwards). *)
Definition log10 (x : R) : R := (ln x / ln 10)%R.
Definition Math_round (x : R) : R := IZR (Int_part (x + / 2)).

(** [words]: [text.split(/\s+/).filter(word => word.length > 0)] *)
Definition words_of (text : list N) : list (list N) :=
  List.filter (fun word => (0 <? length word)%nat) (split_whitespace text).

(** [calculateConfidence], lines 249-276. *)
Definition calculateConfidence (text : list N) : R :=
  if (length text =? 0)%nat || (length (trim text) =? 0)%nat then 0%R
  else
    let words := words_of text in
    let wordCount := length words in
    let avgWordLength :=
      (INR (fold_left (fun sum word => (sum + length word)%nat) words 0%nat)
       / Rmax 1 (INR wordCount))%R in
    let errorChars := List.filter is_error_char text in
    let errorRatio := (INR (length errorChars) / INR (length text))%R in
    let confidence := Rmin 100 (40 + 30 * log10 (Rmax 1 (INR wordCount)))%R in
    let confidence := (confidence + Rmin 20 (avgWordLength * 2))%R in
    let confidence := (confidence - errorRatio * 50)%R in
    Rmax 0 (Rmin 100 (Math_round confidence)).

(** The result object of [processImage]. *)
Record OcrResult := {
  analysisId : string;
  text : list N;
  confidence : R;
  processed : bool;
  error : option string
}.

(** What the recognition pipeline inside [processImage] does: everything
    from resolving the image to [tesseract.recognize] and saving the record
    is inside one [try]; either a text comes out or something throws. *)
Inductive Recognition :=
| Recognized (t : list N)
| RecognitionFailed (message : string).

(** [processImage], lines 65-164. *)
Definition processImage (id : string) (r : Recognition) : OcrResult :=
  match r with
  | Recognized t =>
      {| analysisId := id; text := t; confidence := calculateConfidence t;
         processed := true; error := None |}
  | RecognitionFailed message =>
      {| analysisId := id; text := []; confidence := 0%R;
         processed := false; error := Some message |}
  end.

(** The reference formula in the words of the specification: tokens are the
    maximal runs of characters that are not white space. *)
Fixpoint count_tokens (prev_space : bool) (s : list N) : nat :=
  match s with
  | [] => 0
  | c :: s' =>
      if is_whitespace c then count_tokens true s'
      else ((if prev_space then 1 else 0) + count_tokens false s')%nat
  end.

Definition tokenCount (s : list N) : nat := count_tokens true s.

Definition tokenChars (s : list N) : nat :=
  length (List.filter (fun c => negb (is_whitespace c)) s).

Definition averageTokenLength (s : list N) : R :=
  (INR (tokenChars s) / INR (tokenCount s))%R.

Definition glyphFraction (s : list N) : R :=
  (INR (length (List.filter is_error_char s)) / INR (length s))%R.

Definition blank (s : list N) : bool := forallb is_whitespace s.

Definition clamp (x : R) : R := Rmax 0 (Rmin 100 x).

Definition reference_raw (s : list N) : R :=
  (Rmin 100 (40 + 30 * log10 (Rmax 1 (INR (tokenCount s))))
   + Rmin 20 (2 * averageTokenLength s)
   - 50 * glyphFraction s)%R.


(** The same, rounded to the nearest integer before it is clamped. *)
Definition reference_score_rounded (s : list N) : R :=
  if blank s then 0%R else clamp (Math_round (reference_raw s)).

Definition nonempty (w : list N) : bool := (0 <? length w)%nat.

Definition total_length (ws : list (list N)) : nat :=
  fold_left (fun sum word => (sum + length word)%nat) ws 0%nat.

(** ASCII text as code units, to write examples. *)
Definition units (s : string) : list N :=
  map Ascii.N_of_ascii (String.list_ascii_of_string s).


(** **** Image preprocessing ([preprocessImage], lines 174-229) *)

(** A number as [truncateColor] can receive one. The contrast pass calls it
    on [factor * (byte - 128) + 128]; for a contrast of 259 the factor is
    infinite, and the product with 0 (the byte 128) is [NaN]. *)
Inductive Number :=
| NaN
| Infinity (negative : bool)
| Finite (x : R).

(** [truncateColor], lines 237-241. Both comparisons are false on [NaN],
    and [Math.round(NaN)] is [NaN]. *)
Definition truncateColor (value : Number) : Number :=
  match value with
  | NaN => NaN
  | Infinity true => Finite 0
  | Infinity false => Finite 255
  | Finite x =>
      if Rlt_dec x 0 then Finite 0
      else if Rlt_dec 255 x then Finite 255
      else Finite (Math_round x)
  end.

(** The conversion a [Uint8ClampedArray] applies to a number stored in it
    (ECMAScript [ToUint8Clamp]): clamp to [0, 255], then round to the
    nearest integer, a tie to the even one. *)
Definition ToUint8Clamp (x : R) : Z :=
  let clamped := Rmin (Rmax x 0) 255 in
  let f := Int_part clamped in
  if Rlt_dec clamped (IZR f + / 2) then f
  else if Rlt_dec (IZR f + / 2) clamped then f + 1
  else if Z.even f then f else f + 1.

(** The grayscale pass, lines 191-203, over [imageData.data]: four bytes
    (red, green, blue, alpha) per pixel. The average of three bytes has a
    fractional part of 0, 1/3 or 2/3, so the double the source computes
    and the real number used here are stored as the same byte. An
    [ImageData] never has a trailing group of fewer than four bytes; on
    one of three bytes the loop body stores their average in the three, on
    a shorter one a read past the end gives [undefined], the average is
    [NaN], and the bytes that exist are stored as 0. *)
Fixpoint grayscale (data : list Z) : list Z :=
  match data with
  | r :: g :: b :: a :: rest =>
      let avg := ((IZR r + IZR g + IZR b) / 3)%R in
      ToUint8Clamp avg :: ToUint8Clamp avg :: ToUint8Clamp avg :: a :: grayscale rest
  | [r; g; b] =>
      let avg := ((IZR r + IZR g + IZR b) / 3)%R in
      [ToUint8Clamp avg; ToUint8Clamp avg; ToUint8Clamp avg]
  | leftover => map (fun _ => 0) leftover
  end.

(** The bytes of an image: every element is in [0, 255]. *)
Definition bytes (data : list Z) : Prop := Forall (fun v => 0 <= v <= 255) data.

(** The pixels of a flat RGBA array, and what the pass does to one. *)
Fixpoint pixels (data : list Z) : list (Z * Z * Z * Z) :=
  match data with
  | r :: g :: b :: a :: rest => (r, g, b, a) :: pixels rest
  | _ => []
  end.

Definition gray_level (r g b : Z) : Z := (r + g + b + 1) / 3.

Definition gray_pixel (p : Z * Z * Z * Z) : Z * Z * Z * Z :=
  let '(r, g, b, a) := p in
  (gray_level r g b, gray_level r g b, gray_level r g b, a).

(** The bytes after the last complete pixel. *)
Definition trailing (data : list Z) : list Z :=
  drop (4 * length (pixels data)) data.

(** What the pass stores in a trailing group of fewer than four bytes. *)
Definition gray_trailing (leftover : list Z) : list Z :=
  match leftover with
  | [r; g; b] => [gray_level r g b; gray_level r g b; gray_level r g b]
  | _ => map (fun _ => 0) leftover
  end.

End Ocr.

(** *** Infinite scroll ([handleInfiniteScroll], lines 299-334) *)

Module Scroll.

(** What the page and the clock answer: [sp_height k] is the value of
    [document.body.scrollHeight] at the k-th evaluation (k = 0 is the first)
    and [sp_clock k] the k-th reading of [Date.now()] (reading 0 is
    [startTime], reading k+1 belongs to the k-th loop test that gets as far
    as the clock). *)
Record ScrollPage := {
  sp_height : nat -> Z;
  sp_clock : nat -> Z
}.

(** The [options] fields the handler reads, and [process.env.SCROLL_TIMEOUT_MS]
    after [parseInt] ([None]: absent or not a number). *)
Record ScrollOptions := {
  scrollTimeout : option Z;
  maxScrolls : option Z
}.

(** [a || b] on an optional number: absent and 0 are falsy. *)
Definition or_else (a : option Z) (b : Z) : Z :=
  match a with
  | Some v => if v =? 0 then b else v
  | None => b
  end.

(** What the handler asks of the page, in order. *)
Inductive PageAction :=
| EvaluateScrollHeight
| ScrollToBottom
| WaitForTimeout (ms : Z)
| ScrollToTop.

(** The [while] loop. [remaining] counts the scrolls still allowed, that is
    [maxScrolls - scrollCount]; the loop test reads the clock only when
    [scrollCount < maxScrolls] holds. Returns the final [scrollCount] and the
    actions of the loop. *)
Fixpoint scroll_loop (pg : ScrollPage) (timeout : Z) (remaining : nat)
    (previousHeight : Z) (scrollCount : nat) : nat * list PageAction :=
  match remaining with
  | O => (scrollCount, [])
  | S remaining' =>
      if sp_clock pg (S scrollCount) - sp_clock pg 0 <? timeout then
        let currentHeight := sp_height pg scrollCount in
        if currentHeight =? previousHeight then
          (scrollCount, [EvaluateScrollHeight])
        else
          let '(n, acts) :=
            scroll_loop pg timeout remaining' currentHeight (S scrollCount) in
          (n, EvaluateScrollHeight :: ScrollToBottom :: WaitForTimeout 1000 :: acts)
      else (scrollCount, [])
  end.

Definition handleInfiniteScroll (pg : ScrollPage) (env_timeout : option Z)
    (options : ScrollOptions) : nat * list PageAction :=
  let scrollTimeout := or_else (scrollTimeout options) (or_else env_timeout 30000) in
  let maxScrolls := or_else (maxScrolls options) 10 in
  let '(n, acts) := scroll_loop pg scrollTimeout (Z.to_nat maxScrolls) 0 0 in
  (n, acts ++ [ScrollToTop]).

(** The height the k-th measurement is compared with: the one before it,
    and 0 for the first. *)
Definition previous_height (pg : ScrollPage) (k : nat) : Z :=
  match k with
  | O => 0
  | S k' => sp_height pg k'
  end.

(** The loop stops at its k-th test: the scroll count has reached the
    maximum, the time is up, or the height has not changed. *)
Definition stops_at (pg : ScrollPage) (timeout : Z) (maxScrolls : Z) (k : nat) : Prop :=
  maxScrolls <= Z.of_nat k
  \/ timeout <= sp_clock pg (S k) - sp_clock pg 0
  \/ sp_height pg k = previous_height pg k.

Definition scrolls_performed (acts : list PageAction) : nat :=
  length (List.filter (fun a => match a with ScrollToBottom => true | _ => false end) acts).

(** The same from the c-th test on, when the height recorded last is [prev]. *)
Definition prev_from (pg : ScrollPage) (c : nat) (prev : Z) (k : nat) : Z :=
  if (k =? c)%nat then prev else sp_height pg (k - 1).

(** A page that grows once: 800, then 1600 for good; a test per second. *)
Definition example_page : ScrollPage :=
  {| sp_height := fun k => match k with O => 800 | _ => 1600 end;
     sp_clock := fun k => 1000 * Z.of_nat k |}.

Definition example_options : ScrollOptions :=
  {| scrollTimeout := None; maxScrolls := Some 10 |}.

(** A maximum of 0 scrolls and a timeout of 0 ms are asked for. *)
Definition zero_options : ScrollOptions :=
  {| scrollTimeout := Some 0; maxScrolls := Some 0 |}.

(** A page whose body has no height. *)
Definition flat_page : ScrollPage :=
  {| sp_height := fun _ => 0; sp_clock := fun k => 1000 * Z.of_nat k |}.

(** A page that grows at every measurement. *)
Definition endless_page : ScrollPage :=
  {| sp_height := fun k => 800 * (1 + Z.of_nat k);
     sp_clock := fun k => 1000 * Z.of_nat k |}.

(** One round of the loop body: measure, scroll to the bottom, wait. *)
Definition scroll_round : list PageAction :=
  [EvaluateScrollHeight; ScrollToBottom; WaitForTimeout 1000].

(** The time asked of [waitForTimeout], in ms. *)
Definition time_waited (acts : list PageAction) : Z :=
  fold_right (fun a t => match a with WaitForTimeout ms => ms + t | _ => t end) 0 acts.

End Scroll.

(** *** The crawler service ([src/crawler/crawlerService.js]) *)

Module Crawler.

(** The [status] strings of the job ([CrawlJob] schema, [enum]). *)
Inductive Status := pending | running | paused | completed | stopped | failed.

#[global] Instance Status_eq_dec : EqDecision Status.
Proof. solve_decision. Defined.

(** The fields of the [options] bag that the crawl loop reads. A flag is
    absent ([None]) or set to a boolean. *)
Record Options := {
  handleInfiniteScroll : option bool;
  performOcr : option bool;
  skipOcr : option bool;
  useAI : option bool
}.

(** [flag !== false] is [negb (is_false flag)], [flag === true] is
    [is_true flag]. *)
Definition is_false (flag : option bool) : bool :=
  match flag with Some false => true | _ => false end.
Definition is_true (flag : option bool) : bool :=
  match flag with Some true => true | _ => false end.

(** References to job objects, and the browser objects a job owns. *)
Abbreviation loc := nat (only parsing).

Inductive Resource :=
| Page (job : loc) (n : nat)
| Context (job : loc)
| Browser (job : loc).

#[global] Instance Resource_eq_dec : EqDecision Resource.
Proof. solve_decision. Defined.

(** [path.join(crawlData.screenshotDir, `${Date.now()}.png`)] *)
Record ScreenshotPath := { shot_dir : string; shot_stamp : Z }.

(** Entries of the in-memory [errors] array: the crawl loop pushes
    [{url, error, timestamp}], [updateCrawlStatus] pushes
    [{message, timestamp}]. *)
Inductive MemError :=
| UrlError (url error : string) (timestamp : Z)
| StatusError (message : string) (timestamp : Z).

(** The object stored in [activeCrawls] (lines 107-119). It is created
    without a [visitedUrls] property; [cd_visitedUrls] is that property as
    [getCrawlStatus] reads it. *)
Record CrawlData := {
  cd_browser : Resource;
  cd_context : Resource;
  cd_status : Status;
  cd_url : string;
  cd_depth : Z;
  cd_options : Options;
  cd_screenshotDir : string;
  cd_pages : list Resource;
  cd_errors : list MemError;
  cd_capturedScreenshots : list ScreenshotPath;
  cd_startTime : Z;
  cd_visitedUrls : option (gset string)
}.

(** The stored document ([CrawlJob] model). *)
Record DbError := { e_url : string; e_message : string; e_timestamp : Z }.

Record DbOcr := {
  r_screenshotPath : ScreenshotPath;
  r_ocrResultId : string;
  r_confidence : R;
  r_timestamp : Z
}.

Record CrawlJob := {
  j_url : string;
  j_depth : Z;
  j_status : Status;
  j_pagesProcessed : Z;
  j_screenshotCount : Z;
  j_errorCount : Z;
  j_visitedUrls : list string;
  j_errors : list DbError;
  j_ocrResults : list DbOcr;
  j_duration : Z;
  j_errorMessage : option string;
  j_startedAt : Z;
  j_completedAt : option Z;
  j_pausedAt : option Z;
  j_resumedAt : option Z;
  j_stoppedAt : option Z;
  j_failedAt : option Z
}.

(** What the service asks of its collaborators, and the one log line the
    properties refer to, in the order it happens. *)
Inductive Call :=
| LogCrawling (url : string) (depth maxDepth : Z)
| NewPage (page : Resource)
| Goto (url : string)
| WaitForLoadState
| InfiniteScroll
| Screenshot (path : ScreenshotPath)
| ProcessImage (path : ScreenshotPath) (url : string)
| ExtractLinks
| PageTitle
| AnalyzePage (url : string) (depth : Z)
| Close (r : Resource).

(** The process state: the [activeCrawls] Map, the job objects, the
    document store and the calls made so far. *)
Record World := {
  activeCrawls : gmap string loc;
  heap : list CrawlData;
  db : gmap string CrawlJob;
  trace : list Call
}.

(** The locals of one invocation of [processCrawl]. [l_yielded] is a
    history variable: the (url, depth) pairs that passed the skip test of
    line 172, oldest first. *)
Inductive Pc := AtLoopHead | Returned.

Record Loop := {
  l_crawlId : string;
  l_crawlData : loc;
  l_startUrl : string;
  l_maxDepth : Z;
  l_options : Options;
  l_page : Resource;
  l_visitedUrls : gset string;
  l_urlQueue : list (string * Z);
  l_pc : Pc;
  l_yielded : list (string * Z)
}.

(** Field updates. *)
Definition set_cd_status (v : Status) (x : CrawlData) : CrawlData :=
  {| cd_browser := cd_browser x; cd_context := cd_context x; cd_status := v;
     cd_url := cd_url x; cd_depth := cd_depth x; cd_options := cd_options x;
     cd_screenshotDir := cd_screenshotDir x; cd_pages := cd_pages x;
     cd_errors := cd_errors x; cd_capturedScreenshots := cd_capturedScreenshots x;
     cd_startTime := cd_startTime x; cd_visitedUrls := cd_visitedUrls x |}.
Definition set_cd_pages (v : list Resource) (x : CrawlData) : CrawlData :=
  {| cd_browser := cd_browser x; cd_context := cd_context x; cd_status := cd_status x;
     cd_url := cd_url x; cd_depth := cd_depth x; cd_options := cd_options x;
     cd_screenshotDir := cd_screenshotDir x; cd_pages := v; cd_errors := cd_errors x;
     cd_capturedScreenshots := cd_capturedScreenshots x; cd_startTime := cd_startTime x;
     cd_visitedUrls := cd_visitedUrls x |}.
Definition set_cd_errors (v : list MemError) (x : CrawlData) : CrawlData :=
  {| cd_browser := cd_browser x; cd_context := cd_context x; cd_status := cd_status x;
     cd_url := cd_url x; cd_depth := cd_depth x; cd_options := cd_options x;
     cd_screenshotDir := cd_screenshotDir x; cd_pages := cd_pages x; cd_errors := v;
     cd_capturedScreenshots := cd_capturedScreenshots x; cd_startTime := cd_startTime x;
     cd_visitedUrls := cd_visitedUrls x |}.
Definition set_cd_capturedScreenshots (v : list ScreenshotPath) (x : CrawlData) : CrawlData :=
  {| cd_browser := cd_browser x; cd_context := cd_context x; cd_status := cd_status x;
     cd_url := cd_url x; cd_depth := cd_depth x; cd_options := cd_options x;
     cd_screenshotDir := cd_screenshotDir x; cd_pages := cd_pages x;
     cd_errors := cd_errors x; cd_capturedScreenshots := v;
     cd_startTime := cd_startTime x; cd_visitedUrls := cd_visitedUrls x |}.

Definition set_j_status (v : Status) (x : CrawlJob) : CrawlJob :=
  {| j_url := j_url x; j_depth := j_depth x; j_status := v;
     j_pagesProcessed := j_pagesProcessed x; j_screenshotCount := j_screenshotCount x;
     j_errorCount := j_errorCount x; j_visitedUrls := j_visitedUrls x;
     j_errors := j_errors x; j_ocrResults := j_ocrResults x; j_duration := j_duration x;
     j_errorMessage := j_errorMessage x; j_startedAt := j_startedAt x;
     j_completedAt := j_completedAt x; j_pausedAt := j_pausedAt x;
     j_resumedAt := j_resumedAt x; j_stoppedAt := j_stoppedAt x;
     j_failedAt := j_failedAt x |}.
Definition set_j_pagesProcessed (v : Z) (x : CrawlJob) : CrawlJob :=
  {| j_url := j_url x; j_depth := j_depth x; j_status := j_status x;
     j_pagesProcessed := v; j_screenshotCount := j_screenshotCount x;
     j_errorCount := j_errorCount x; j_visitedUrls := j_visitedUrls x;
     j_errors := j_errors x; j_ocrResults := j_ocrResults x; j_duration := j_duration x;
     j_errorMessage := j_errorMessage x; j_startedAt := j_startedAt x;
     j_completedAt := j_completedAt x; j_pausedAt := j_pausedAt x;
     j_resumedAt := j_resumedAt x; j_stoppedAt := j_stoppedAt x;
     j_failedAt := j_failedAt x |}.
Definition set_j_screenshotCount (v : Z) (x : CrawlJob) : CrawlJob :=
  {| j_url := j_url x; j_depth := j_depth x; j_status := j_status x;
     j_pagesProcessed := j_pagesProcessed x; j_screenshotCount := v;
     j_errorCount := j_errorCount x; j_visitedUrls := j_visitedUrls x;
     j_errors := j_errors x; j_ocrResults := j_ocrResults x; j_duration := j_duration x;
     j_errorMessage := j_errorMessage x; j_startedAt := j_startedAt x;
     j_completedAt := j_completedAt x; j_pausedAt := j_pausedAt x;
     j_resumedAt := j_resumedAt x; j_stoppedAt := j_stoppedAt x;
     j_failedAt := j_failedAt x |}.
Definition set_j_errorCount (v : Z) (x : CrawlJob) : CrawlJob :=
  {| j_url := j_url x; j_depth := j_depth x; j_status := j_status x;
     j_pagesProcessed := j_pagesProcessed x; j_screenshotCount := j_screenshotCount x;
     j_errorCount := v; j_visitedUrls := j_visitedUrls x; j_errors := j_errors x;
     j_ocrResults := j_ocrResults x; j_duration := j_duration x;
     j_errorMessage := j_errorMessage x; j_startedAt := j_startedAt x;
     j_completedAt := j_completedAt x; j_pausedAt := j_pausedAt x;
     j_resumedAt := j_resumedAt x; j_stoppedAt := j_stoppedAt x;
     j_failedAt := j_failedAt x |}.
Definition set_j_visitedUrls (v : list string) (x : CrawlJob) : CrawlJob :=
  {| j_url := j_url x; j_depth := j_depth x; j_status := j_status x;
     j_pagesProcessed := j_pagesProcessed x; j_screenshotCount := j_screenshotCount x;
     j_errorCount := j_errorCount x; j_visitedUrls := v; j_errors := j_errors x;
     j_ocrResults := j_ocrResults x; j_duration := j_duration x;
     j_errorMessage := j_errorMessage x; j_startedAt := j_startedAt x;
     j_completedAt := j_completedAt x; j_pausedAt := j_pausedAt x;
     j_resumedAt := j_resumedAt x; j_stoppedAt := j_stoppedAt x;
     j_failedAt := j_failedAt x |}.
Definition set_j_errors (v : list DbError) (x : CrawlJob) : CrawlJob :=
  {| j_url := j_url x; j_depth := j_depth x; j_status := j_status x;
     j_pagesProcessed := j_pagesProcessed x; j_screenshotCount := j_screenshotCount x;
     j_errorCount := j_errorCount x; j_visitedUrls := j_visitedUrls x; j_errors := v;
     j_ocrResults := j_ocrResults x; j_duration := j_duration x;
     j_errorMessage := j_errorMessage x; j_startedAt := j_startedAt x;
     j_completedAt := j_completedAt x; j_pausedAt := j_pausedAt x;
     j_resumedAt := j_resumedAt x; j_stoppedAt := j_stoppedAt x;
     j_failedAt := j_failedAt x |}.
Definition set_j_ocrResults (v : list DbOcr) (x : CrawlJob) : CrawlJob :=
  {| j_url := j_url x; j_depth := j_depth x; j_status := j_status x;
     j_pagesProcessed := j_pagesProcessed x; j_screenshotCount := j_screenshotCount x;
     j_errorCount := j_errorCount x; j_visitedUrls := j_visitedUrls x;
     j_errors := j_errors x; j_ocrResults := v; j_duration := j_duration x;
     j_errorMessage := j_errorMessage x; j_startedAt := j_startedAt x;
     j_completedAt := j_completedAt x; j_pausedAt := j_pausedAt x;
     j_resumedAt := j_resumedAt x; j_stoppedAt := j_stoppedAt x;
     j_failedAt := j_failedAt x |}.
Definition set_j_duration (v : Z) (x : CrawlJob) : CrawlJob :=
  {| j_url := j_url x; j_depth := j_depth x; j_status := j_status x;
     j_pagesProcessed := j_pagesProcessed x; j_screenshotCount := j_screenshotCount x;
     j_errorCount := j_errorCount x; j_visitedUrls := j_visitedUrls x;
     j_errors := j_errors x; j_ocrResults := j_ocrResults x; j_duration := v;
     j_errorMessage := j_errorMessage x; j_startedAt := j_startedAt x;
     j_completedAt := j_completedAt x; j_pausedAt := j_pausedAt x;
     j_resumedAt := j_resumedAt x; j_stoppedAt := j_stoppedAt x;
     j_failedAt := j_failedAt x |}.
Definition set_j_errorMessage (v : option string) (x : CrawlJob) : CrawlJob :=
  {| j_url := j_url x; j_depth := j_depth x; j_status := j_status x;
     j_pagesProcessed := j_pagesProcessed x; j_screenshotCount := j_screenshotCount x;
     j_errorCount := j_errorCount x; j_visitedUrls := j_visitedUrls x;
     j_errors := j_errors x; j_ocrResults := j_ocrResults x; j_duration := j_duration x;
     j_errorMessage := v; j_startedAt := j_startedAt x; j_completedAt := j_completedAt x;
     j_pausedAt := j_pausedAt x; j_resumedAt := j_resumedAt x;
     j_stoppedAt := j_stoppedAt x; j_failedAt := j_failedAt x |}.
Definition set_j_completedAt (v : option Z) (x : CrawlJob) : CrawlJob :=
  {| j_url := j_url x; j_depth := j_depth x; j_status := j_status x;
     j_pagesProcessed := j_pagesProcessed x; j_screenshotCount := j_screenshotCount x;
     j_errorCount := j_errorCount x; j_visitedUrls := j_visitedUrls x;
     j_errors := j_errors x; j_ocrResults := j_ocrResults x; j_duration := j_duration x;
     j_errorMessage := j_errorMessage x; j_startedAt := j_startedAt x;
     j_completedAt := v; j_pausedAt := j_pausedAt x; j_resumedAt := j_resumedAt x;
     j_stoppedAt := j_stoppedAt x; j_failedAt := j_failedAt x |}.
Definition set_j_pausedAt (v : option Z) (x : CrawlJob) : CrawlJob :=
  {| j_url := j_url x; j_depth := j_depth x; j_status := j_status x;
     j_pagesProcessed := j_pagesProcessed x; j_screenshotCount := j_screenshotCount x;
     j_errorCount := j_errorCount x; j_visitedUrls := j_visitedUrls x;
     j_errors := j_errors x; j_ocrResults := j_ocrResults x; j_duration := j_duration x;
     j_errorMessage := j_errorMessage x; j_startedAt := j_startedAt x;
     j_completedAt := j_completedAt x; j_pausedAt := v; j_resumedAt := j_resumedAt x;
     j_stoppedAt := j_stoppedAt x; j_failedAt := j_failedAt x |}.
Definition set_j_resumedAt (v : option Z) (x : CrawlJob) : CrawlJob :=
  {| j_url := j_url x; j_depth := j_depth x; j_status := j_status x;
     j_pagesProcessed := j_pagesProcessed x; j_screenshotCount := j_screenshotCount x;
     j_errorCount := j_errorCount x; j_visitedUrls := j_visitedUrls x;
     j_errors := j_errors x; j_ocrResults := j_ocrResults x; j_duration := j_duration x;
     j_errorMessage := j_errorMessage x; j_startedAt := j_startedAt x;
     j_completedAt := j_completedAt x; j_pausedAt := j_pausedAt x; j_resumedAt := v;
     j_stoppedAt := j_stoppedAt x; j_failedAt := j_failedAt x |}.
Definition set_j_stoppedAt (v : option Z) (x : CrawlJob) : CrawlJob :=
  {| j_url := j_url x; j_depth := j_depth x; j_status := j_status x;
     j_pagesProcessed := j_pagesProcessed x; j_screenshotCount := j_screenshotCount x;
     j_errorCount := j_errorCount x; j_visitedUrls := j_visitedUrls x;
     j_errors := j_errors x; j_ocrResults := j_ocrResults x; j_duration := j_duration x;
     j_errorMessage := j_errorMessage x; j_startedAt := j_startedAt x;
     j_completedAt := j_completedAt x; j_pausedAt := j_pausedAt x;
     j_resumedAt := j_resumedAt x; j_stoppedAt := v; j_failedAt := j_failedAt x |}.
Definition set_j_failedAt (v : option Z) (x : CrawlJob) : CrawlJob :=
  {| j_url := j_url x; j_depth := j_depth x; j_status := j_status x;
     j_pagesProcessed := j_pagesProcessed x; j_screenshotCount := j_screenshotCount x;
     j_errorCount := j_errorCount x; j_visitedUrls := j_visitedUrls x;
     j_errors := j_errors x; j_ocrResults := j_ocrResults x; j_duration := j_duration x;
     j_errorMessage := j_errorMessage x; j_startedAt := j_startedAt x;
     j_completedAt := j_completedAt x; j_pausedAt := j_pausedAt x;
     j_resumedAt := j_resumedAt x; j_stoppedAt := j_stoppedAt x; j_failedAt := v |}.

Definition set_activeCrawls (v : gmap string loc) (x : World) : World :=
  {| activeCrawls := v; heap := heap x; db := db x; trace := trace x |}.
Definition set_heap (v : list CrawlData) (x : World) : World :=
  {| activeCrawls := activeCrawls x; heap := v; db := db x; trace := trace x |}.
Definition set_db (v : gmap string CrawlJob) (x : World) : World :=
  {| activeCrawls := activeCrawls x; heap := heap x; db := v; trace := trace x |}.
Definition set_trace (v : list Call) (x : World) : World :=
  {| activeCrawls := activeCrawls x; heap := heap x; db := db x; trace := v |}.

Definition set_l_visitedUrls (v : gset string) (x : Loop) : Loop :=
  {| l_crawlId := l_crawlId x; l_crawlData := l_crawlData x; l_startUrl := l_startUrl x;
     l_maxDepth := l_maxDepth x; l_options := l_options x; l_page := l_page x;
     l_visitedUrls := v; l_urlQueue := l_urlQueue x; l_pc := l_pc x;
     l_yielded := l_yielded x |}.
Definition set_l_urlQueue (v : list (string * Z)) (x : Loop) : Loop :=
  {| l_crawlId := l_crawlId x; l_crawlData := l_crawlData x; l_startUrl := l_startUrl x;
     l_maxDepth := l_maxDepth x; l_options := l_options x; l_page := l_page x;
     l_visitedUrls := l_visitedUrls x; l_urlQueue := v; l_pc := l_pc x;
     l_yielded := l_yielded x |}.
Definition set_l_pc (v : Pc) (x : Loop) : Loop :=
  {| l_crawlId := l_crawlId x; l_crawlData := l_crawlData x; l_startUrl := l_startUrl x;
     l_maxDepth := l_maxDepth x; l_options := l_options x; l_page := l_page x;
     l_visitedUrls := l_visitedUrls x; l_urlQueue := l_urlQueue x; l_pc := v;
     l_yielded := l_yielded x |}.
Definition set_l_yielded (v : list (string * Z)) (x : Loop) : Loop :=
  {| l_crawlId := l_crawlId x; l_crawlData := l_crawlData x; l_startUrl := l_startUrl x;
     l_maxDepth := l_maxDepth x; l_options := l_options x; l_page := l_page x;
     l_visitedUrls := l_visitedUrls x; l_urlQueue := l_urlQueue x; l_pc := l_pc x;
     l_yielded := v |}.

(** [obj.field = ...] through a reference, and [CrawlJob.updateOne]. The
    heap only grows, so a reference is never dangling; [updateOne] leaves a
    store without the document as it is. *)
Definition update_data (ref : loc) (f : CrawlData -> CrawlData) (w : World) : World :=
  set_heap (alter f ref (heap w)) w.

Definition updateOne (id : string) (f : CrawlJob -> CrawlJob) (w : World) : World :=
  set_db (alter f id (db w)) w.

Definition emit (c : Call) (w : World) : World :=
  set_trace (trace w ++ [c]) w.

(** *** Lifecycle functions *)

Definition terminal (s : Status) : bool :=
  match s with completed | failed | stopped => true | _ => false end.

(** [if (errorMessage)]: null and the empty string are falsy. *)
Definition truthy (m : option string) : option string :=
  match m with
  | Some EmptyString => None
  | other => other
  end.

(** [updateCrawlStatus], lines 471-528. *)
Definition updateCrawlStatus (crawlId : string) (status : Status)
    (errorMessage : option string) (now : Z) (w : World) : World :=
  let duration :=
    if terminal status then (fun j => now - j_startedAt j) <$> db w !! crawlId
    else None in
  let updateData (j : CrawlJob) : CrawlJob :=
    let j := set_j_status status j in
    let j := match status with
             | completed => set_j_completedAt (Some now) j
             | failed => set_j_errorMessage errorMessage (set_j_failedAt (Some now) j)
             | paused => set_j_pausedAt (Some now) j
             | stopped => set_j_stoppedAt (Some now) j
             | _ => j
             end in
    match duration with
    | Some d => set_j_duration d j
    | None => j
    end in
  let w := updateOne crawlId updateData w in
  match activeCrawls w !! crawlId with
  | Some ref =>
      update_data ref (fun crawlData =>
        let crawlData := set_cd_status status crawlData in
        match truthy errorMessage with
        | Some message =>
            set_cd_errors (cd_errors crawlData ++ [StatusError message now]) crawlData
        | None => crawlData
        end) w
  | None => w
  end.

(** [cleanupCrawl], lines 535-577, as a call that nothing interrupts: the
    source awaits each [close] and the store update between the lookup of
    line 537 and the delete of line 570 ([stop_resume] below has the
    awaits). *)
Definition cleanupCrawl (crawlId : string) (now : Z) (w : World) : World :=
  match activeCrawls w !! crawlId with
  | Some ref =>
      match heap w !! ref with
      | Some crawlData =>
          let w := set_trace (trace w ++ map Close (cd_pages crawlData)
                              ++ [Close (cd_context crawlData);
                                  Close (cd_browser crawlData)]) w in
          let w := updateOne crawlId (fun j =>
                     set_j_duration (now - cd_startTime crawlData)
                       (set_j_screenshotCount
                          (Z.of_nat (length (cd_capturedScreenshots crawlData)))
                          (set_j_errorCount (Z.of_nat (length (cd_errors crawlData))) j)))
                     w in
          set_activeCrawls (delete crawlId (activeCrawls w)) w
      | None => w
      end
  | None => w
  end.

(** The object [getCrawlStatus] returns. *)
Record StatusReport := {
  s_crawlId : string;
  s_url : string;
  s_status : Status;
  s_pagesProcessed : Z;
  s_screenshotCount : Z;
  s_errorCount : Z;
  s_startTime : Z;
  s_duration : Z;
  s_isActive : bool
}.

(** [getCrawlStatus], lines 585-629; [None] is [null]. *)
Definition getCrawlStatus (crawlId : string) (now : Z) (w : World) : option StatusReport :=
  match activeCrawls w !! crawlId ≫= (fun ref => heap w !! ref) with
  | Some activeCrawl =>
      Some {| s_crawlId := crawlId;
              s_url := cd_url activeCrawl;
              s_status := cd_status activeCrawl;
              s_pagesProcessed :=
                match cd_visitedUrls activeCrawl with
                | Some visited => Z.of_nat (size visited)
                | None => 0
                end;
              s_screenshotCount := Z.of_nat (length (cd_capturedScreenshots activeCrawl));
              s_errorCount := Z.of_nat (length (cd_errors activeCrawl));
              s_startTime := cd_startTime activeCrawl;
              s_duration := now - cd_startTime activeCrawl;
              s_isActive := true |}
  | None =>
      match db w !! crawlId with
      | Some crawlJob =>
          Some {| s_crawlId := crawlId;
                  s_url := j_url crawlJob;
                  s_status := j_status crawlJob;
                  s_pagesProcessed := Z.of_nat (length (j_visitedUrls crawlJob));
                  s_screenshotCount := j_screenshotCount crawlJob;
                  s_errorCount := j_errorCount crawlJob;
                  s_startTime := j_startedAt crawlJob;
                  s_duration := j_duration crawlJob;
                  s_isActive := false |}
      | None => None
      end
  end.

(** [pauseCrawl], lines 637-660, as a call that nothing interrupts: the
    source writes the job object at line 646 and awaits the store update
    at line 649. *)
Definition pauseCrawl (crawlId : string) (now : Z) (w : World) : bool * World :=
  match activeCrawls w !! crawlId ≫= (fun ref => (fun d => (ref, d)) <$> heap w !! ref) with
  | Some (ref, crawlData) =>
      if decide (cd_status crawlData = running) then
        let w := update_data ref (set_cd_status paused) w in
        let w := updateOne crawlId
                   (fun j => set_j_pausedAt (Some now) (set_j_status paused j)) w in
        (true, w)
      else (false, w)
  | None => (false, w)
  end.

(** [stopCrawl], lines 706-732, as a call that nothing interrupts: the
    source awaits the store update (line 718) and [cleanupCrawl] (line
    724). *)
Definition stopCrawl (crawlId : string) (now : Z) (w : World) : bool * World :=
  match activeCrawls w !! crawlId with
  | Some ref =>
      let w := update_data ref (set_cd_status stopped) w in
      let w := updateOne crawlId
                 (fun j => set_j_stoppedAt (Some now) (set_j_status stopped j)) w in
      let w := cleanupCrawl crawlId now w in
      (true, w)
  | None => (false, w)
  end.

(** *** [stopCrawl] between its awaits *)

(** [stopCrawl] above is a call that nothing interrupts. A call is
    suspended at each [await], and other calls run meanwhile. The places
    where a call of [stopCrawl] waits, with the locals it holds there: the
    job object [cleanupCrawl] got from the Map at line 537 and the position
    of the page iterator of line 541. *)
Inductive StopPc :=
| AwaitStatusUpdate                        (* line 718 *)
| AwaitPageClose (ref : loc) (i : nat)     (* line 542, the close of page i *)
| AwaitContextClose (ref : loc)            (* line 547 *)
| AwaitBrowserClose (ref : loc)            (* line 551 *)
| AwaitStatistics (ref : loc)              (* line 560 *)
| StopReturned (result : bool).

Record StopCall := {
  sc_crawlId : string;
  sc_pc : StopPc
}.

(** Lines 541-547 from page [i] on: the next page of the Set is closed or,
    the pages done, the context. No reference is dangling. *)
Definition close_next (ref : loc) (i : nat) (w : World) : World * StopPc :=
  match heap w !! ref with
  | Some crawlData =>
      match cd_pages crawlData !! i with
      | Some page => (emit (Close page) w, AwaitPageClose ref i)
      | None => (emit (Close (cd_context crawlData)) w, AwaitContextClose ref)
      end
  | None => (w, StopReturned true)
  end.

(** The call, up to the [await] of line 718. *)
Definition stop_call (crawlId : string) (now : Z) (w : World) : World * StopCall :=
  match activeCrawls w !! crawlId with
  | Some ref =>
      let w := update_data ref (set_cd_status stopped) w in
      let w := updateOne crawlId
                 (fun j => set_j_stoppedAt (Some now) (set_j_status stopped j)) w in
      (w, {| sc_crawlId := crawlId; sc_pc := AwaitStatusUpdate |})
  | None => (w, {| sc_crawlId := crawlId; sc_pc := StopReturned false |})
  end.

(** The call taken up after the [await] it waits at, up to the next one.
    After line 718 [cleanupCrawl] is entered and looks the job up in the
    Map (line 537); the entry is deleted at line 570, after the last
    [await]. *)
Definition stop_resume (now : Z) (c : StopCall) (w : World) : World * StopCall :=
  let crawlId := sc_crawlId c in
  let waits (pc : StopPc) (w : World) := (w, {| sc_crawlId := crawlId; sc_pc := pc |}) in
  match sc_pc c with
  | AwaitStatusUpdate =>
      match activeCrawls w !! crawlId with
      | Some ref => let '(w, pc) := close_next ref 0 w in waits pc w
      | None => waits (StopReturned true) w
      end
  | AwaitPageClose ref i => let '(w, pc) := close_next ref (S i) w in waits pc w
  | AwaitContextClose ref =>
      match heap w !! ref with
      | Some crawlData =>
          waits (AwaitBrowserClose ref) (emit (Close (cd_browser crawlData)) w)
      | None => waits (StopReturned true) w
      end
  | AwaitBrowserClose ref =>
      match heap w !! ref with
      | Some crawlData =>
          waits (AwaitStatistics ref)
            (updateOne crawlId (fun j =>
               set_j_duration (now - cd_startTime crawlData)
                 (set_j_screenshotCount
                    (Z.of_nat (length (cd_capturedScreenshots crawlData)))
                    (set_j_errorCount (Z.of_nat (length (cd_errors crawlData))) j)))
               w)
      | None => waits (StopReturned true) w
      end
  | AwaitStatistics ref =>
      waits (StopReturned true) (set_activeCrawls (delete crawlId (activeCrawls w)) w)
  | StopReturned _ => (w, c)
  end.

(** A call taken up once per clock reading of [nows], nothing in between. *)
Fixpoint stop_finish (nows : list Z) (c : StopCall) (w : World) : World * StopCall :=
  match nows with
  | [] => (w, c)
  | now :: nows =>
      let '(w, c) := stop_resume now c w in
      stop_finish nows c w
  end.

(** A call from its start, taken up [resumes] times with nothing in
    between. *)
Definition stop_uninterrupted (crawlId : string) (now : Z) (resumes : nat) (w : World)
    : World * StopCall :=
  let '(w, c) := stop_call crawlId now w in
  stop_finish (repeat now resumes) c w.

(** The final statistics [cleanupCrawl] writes, lines 555-567. *)
Definition final_statistics (now : Z) (crawlData : CrawlData) (j : CrawlJob) : CrawlJob :=
  set_j_duration (now - cd_startTime crawlData)
    (set_j_screenshotCount (Z.of_nat (length (cd_capturedScreenshots crawlData)))
       (set_j_errorCount (Z.of_nat (length (cd_errors crawlData))) j)).

(** Where a call waits after it has called [close] on the k-th of the
    resources of a job: the pages, then the context, then the browser. *)
Definition waits_after_close (ref : loc) (crawlData : CrawlData) (k : nat) : StopPc :=
  if (k <? length (cd_pages crawlData))%nat then AwaitPageClose ref k
  else if (k =? length (cd_pages crawlData))%nat then AwaitContextClose ref
  else AwaitBrowserClose ref.

(** Two calls for the same job, the second made while the first waits for
    its first [close]: the first call gets to that [await], the second runs
    from its call to its return, then the first runs to its return. The
    result is the final state, the first call and the second. *)
Definition second_stop_during_cleanup (crawlId : string) (now : Z) (resumes : nat)
    (w : World) : World * StopCall * StopCall :=
  let '(w, first) := stop_call crawlId now w in
  let '(w, first) := stop_resume now first w in
  let '(w, second) := stop_call crawlId now w in
  let '(w, second) := stop_finish (repeat now resumes) second w in
  let '(w, first) := stop_finish (repeat now resumes) first w in
  (w, first, second).

(** *** The crawl loop *)

(** What the collaborators answer while one url is processed. [Some m] in
    an optional field: the awaited call throws with message [m]. *)
Inductive Result (A : Type) :=
| Ok (a : A)
| Throw (message : string).
Arguments Ok {A} a.
Arguments Throw {A} message.

(** The awaited [ocrService.processImage] call: it runs (and then catches
    whatever its recognition pipeline throws), or the call itself throws. *)
Inductive OcrCall :=
| OcrRuns (r : Ocr.Recognition)
| OcrThrows (message : string).

Record Outcome := {
  o_now : Z;                               (* the clock during this iteration *)
  o_uuid : string;                         (* uuid.v4() at the call, line 392 *)
  o_fallback_uuid : string;                (* uuid.v4() in a catch block *)
  o_goto : option string;
  o_loadState : option string;
  o_scroll : option string;
  o_screenshot : option string;
  o_ocr : OcrCall;
  o_links : Result (list string);          (* extractLinks: unique same-origin links *)
  o_title : option string;
  o_priorityUrls : option (list string)    (* aiSuggestions.priorityUrls *)
}.

(** Code that mutates the process state and the loop's locals and may throw;
    what was mutated before a throw stays mutated. *)
Definition M (A : Type) : Type := World * Loop -> Result A * (World * Loop).

Definition ret {A} (a : A) : M A := fun s => (Ok a, s).

Definition bind {A B} (m : M A) (k : A -> M B) : M B :=
  fun s => match m s with
           | (Ok a, s') => k a s'
           | (Throw message, s') => (Throw message, s')
           end.

#[global] Instance M_ret : MRet M := @ret.
#[global] Instance M_bind : MBind M := fun A B k m => bind m k.

Definition on_world (f : World -> World) : M unit :=
  fun s => (Ok tt, (f (fst s), snd s)).

Definition on_loop (f : Loop -> Loop) : M unit :=
  fun s => (Ok tt, (fst s, f (snd s))).

Definition get_loop : M Loop := fun s => (Ok (snd s), s).

Definition get_world : M World := fun s => (Ok (fst s), s).

(** An awaited collaborator call: it is made, and returns or throws. *)
Definition await (c : Call) (answer : option string) : M unit :=
  fun s =>
    let s' := (emit c (fst s), snd s) in
    match answer with
    | Some message => (Throw message, s')
    | None => (Ok tt, s')
    end.

Definition await_value {A} (c : Call) (answer : Result A) : M A :=
  fun s => (answer, (emit c (fst s), snd s)).

Definition when (b : bool) (m : M unit) : M unit := if b then m else ret tt.

(** [try { m } catch { }] around a call whose result is not used. *)
Definition try_ignore {A} (m : M A) : M unit :=
  fun s => (Ok tt, snd (m s)).

(** The fallback object of lines 435-441 and 454-460. *)
Definition fallback_result (id message : string) : Ocr.OcrResult :=
  {| Ocr.analysisId := id; Ocr.text := []; Ocr.confidence := 0%R;
     Ocr.processed := false; Ocr.error := Some message |}.

(** [processScreenshotWithOCR], lines 374-462; [None] is [null]. Line 400
    tests [ocrResult.error] for truthiness: a result whose error message is
    the empty string is stored and returned like a successful one. *)
Definition processScreenshotWithOCR (crawlId : string) (screenshotPath : ScreenshotPath)
    (url : string) (o : Outcome) : M (option Ocr.OcrResult) :=
  on_world (emit (ProcessImage screenshotPath url)) ;;
  match o_ocr o with
  | OcrRuns r =>
      let ocrResult := Ocr.processImage (o_uuid o) r in
      match truthy (Ocr.error ocrResult) with
      | Some _ => ret None
      | None =>
          on_world (updateOne crawlId (fun j =>
            set_j_ocrResults
              (j_ocrResults j ++
                 [{| r_screenshotPath := screenshotPath;
                     r_ocrResultId := Ocr.analysisId ocrResult;
                     r_confidence := Ocr.confidence ocrResult;
                     r_timestamp := o_now o |}]) j)) ;;
          ret (Some ocrResult)
      end
  | OcrThrows message => ret (Some (fallback_result (o_fallback_uuid o) message))
  end.

(** Lines 255-259: each suggested url that is not visited goes to the head
    of the queue. *)
Definition unshift_priority (visited : gset string) (depth : Z)
    (priorityUrls : list string) (queue : list (string * Z)) : list (string * Z) :=
  fold_left (fun q priorityUrl =>
               if decide (priorityUrl ∈ visited) then q
               else (priorityUrl, depth + 1) :: q)
            priorityUrls queue.

(** Lines 227-229: every extracted link goes to the tail of the queue. *)
Definition push_links (depth : Z) (links : list string)
    (queue : list (string * Z)) : list (string * Z) :=
  fold_left (fun q link => q ++ [(link, depth + 1)]) links queue.

Definition screenshotDir_of (w : World) (ref : loc) : string :=
  match heap w !! ref with
  | Some crawlData => cd_screenshotDir crawlData
  | None => EmptyString
  end.

(** [path.join(crawlData.screenshotDir, `${Date.now()}.png`)] *)
Definition shot_path (w : World) (l : Loop) (o : Outcome) : ScreenshotPath :=
  {| shot_dir := screenshotDir_of w (l_crawlData l); shot_stamp := o_now o |}.

(** The [try] block of one iteration, lines 178-264, stage by stage.
    Lines 178-197: navigate, scroll, capture. *)
Definition capture (url : string) (depth : Z) (o : Outcome) : M ScreenshotPath :=
  l ← get_loop;
  on_world (emit (LogCrawling url depth (l_maxDepth l))) ;;
  await (Goto url) (o_goto o) ;;
  await WaitForLoadState (o_loadState o) ;;
  when (negb (is_false (handleInfiniteScroll (l_options l))))
       (await InfiniteScroll (o_scroll o)) ;;
  w ← get_world;
  let screenshotPath := shot_path w l o in
  await (Screenshot screenshotPath) (o_screenshot o) ;;
  on_world (update_data (l_crawlData l) (fun crawlData =>
    set_cd_capturedScreenshots
      (cd_capturedScreenshots crawlData ++ [screenshotPath]) crawlData)) ;;
  ret screenshotPath.

(** Lines 199-220: recognition, unless switched off. The broadcast of the
    [skipOcr] branch changes nothing here. *)
Definition recognize (screenshotPath : ScreenshotPath) (url : string) (o : Outcome)
    : M unit :=
  l ← get_loop;
  when (negb (is_false (performOcr (l_options l)))
        && negb (is_true (skipOcr (l_options l))))
       (try_ignore (processScreenshotWithOCR (l_crawlId l) screenshotPath url o)).

(** Lines 222-230: link extraction. *)
Definition discover (depth : Z) (o : Outcome) : M unit :=
  l ← get_loop;
  when (depth <? l_maxDepth l)
       (links ← await_value ExtractLinks (o_links o);
        on_loop (fun l => set_l_urlQueue (push_links depth links (l_urlQueue l)) l)).

(** Lines 232-239: the page is recorded in the stored job. *)
Definition persist (url : string) : M unit :=
  l ← get_loop;
  on_world (updateOne (l_crawlId l) (fun j =>
    set_j_pagesProcessed (j_pagesProcessed j + 1)
      (set_j_visitedUrls (j_visitedUrls j ++ [url]) j))).

(** Lines 241-261: advisory analysis and priority insertion. The rate-limit
    delay of line 264 changes nothing. *)
Definition advise (url : string) (depth : Z) (o : Outcome) : M unit :=
  l ← get_loop;
  when (negb (is_false (useAI (l_options l))))
       (await PageTitle (o_title o) ;;
        on_world (emit (AnalyzePage url depth)) ;;
        match o_priorityUrls o with
        | Some (p :: ps) =>
            on_loop (fun l =>
              set_l_urlQueue
                (unshift_priority (l_visitedUrls l) depth (p :: ps) (l_urlQueue l)) l)
        | _ => ret tt
        end).

Definition process_url (url : string) (depth : Z) (o : Outcome) : M unit :=
  screenshotPath ← capture url depth o;
  recognize screenshotPath url o ;;
  discover depth o ;;
  persist url ;;
  advise url depth o.

(** The [catch] block of one iteration, lines 265-276. *)
Definition record_error (url message : string) (now : Z) (s : World * Loop) : World * Loop :=
  let '(w, l) := s in
  let w := update_data (l_crawlData l) (fun crawlData =>
             set_cd_errors (cd_errors crawlData ++ [UrlError url message now]) crawlData) w in
  let w := updateOne (l_crawlId l) (fun j =>
             set_j_errors (j_errors j ++
               [{| e_url := url; e_message := message; e_timestamp := now |}]) j) w in
  (w, l).

(** Lines 169-172: take entries from the head of the queue until one passes
    the skip test. The loop test in between only re-reads the status, which
    nothing changes meanwhile. *)
Fixpoint dequeue (visited : gset string) (maxDepth : Z) (queue : list (string * Z))
    : option (string * Z * list (string * Z)) :=
  match queue with
  | [] => None
  | (url, depth) :: rest =>
      if decide (url ∈ visited) then dequeue visited maxDepth rest
      else if depth >? maxDepth then dequeue visited maxDepth rest
      else Some (url, depth, rest)
  end.

(** After the loop, lines 279-289: the status update and the [finally]. *)
Definition leave_loop (now : Z) (s : World * Loop) : World * Loop :=
  let '(w, l) := s in
  let w := updateCrawlStatus (l_crawlId l) completed None now w in
  let w := cleanupCrawl (l_crawlId l) now w in
  (w, set_l_pc Returned l).

Definition status_of (w : World) (ref : loc) : option Status :=
  cd_status <$> heap w !! ref.

(** Lines 169-175: the entry leaves the queue and its url is marked. *)
Definition enter (url : string) (depth : Z) (rest : list (string * Z)) (l : Loop) : Loop :=
  let l := set_l_urlQueue rest l in
  let l := set_l_visitedUrls ({[url]} ∪ l_visitedUrls l) l in
  set_l_yielded (l_yielded l ++ [(url, depth)]) l.

(** The end of an iteration: the [try] block returned, or the [catch]
    block runs. *)
Definition settle (url : string) (now : Z) (r : Result unit * (World * Loop))
    : World * Loop :=
  match r with
  | (Ok _, s) => s
  | (Throw message, s) => record_error url message now s
  end.

(** One scheduling step of an invocation of [processCrawl]: from the loop
    test of line 168 to the next loop test, or out of the loop. *)
Definition tick (o : Outcome) (s : World * Loop) : World * Loop :=
  let '(w, l) := s in
  match l_pc l with
  | Returned => s
  | AtLoopHead =>
      if decide (status_of w (l_crawlData l) = Some running) then
        match dequeue (l_visitedUrls l) (l_maxDepth l) (l_urlQueue l) with
        | None => leave_loop (o_now o) (w, set_l_urlQueue [] l)
        | Some (url, depth, rest) =>
            settle url (o_now o) (process_url url depth o (w, enter url depth rest l))
        end
      else leave_loop (o_now o) s
  end.

(** The start of [processCrawl], lines 143-158, up to the new page. When the
    job is not in the Map the call rejects and the caller's [catch] records
    the failure (lines 123-126, 687-690). *)
Definition processCrawl (crawlId startUrl : string) (maxDepth : Z) (options : Options)
    (now : Z) (w : World) : World * option Loop :=
  match activeCrawls w !! crawlId with
  | Some ref =>
      let page := Page ref (length (from_option cd_pages [] (heap w !! ref))) in
      let w := emit (NewPage page) w in
      let w := update_data ref (fun crawlData =>
                 set_cd_pages (cd_pages crawlData ++ [page]) crawlData) w in
      (w, Some {| l_crawlId := crawlId; l_crawlData := ref; l_startUrl := startUrl;
                  l_maxDepth := maxDepth; l_options := options; l_page := page;
                  l_visitedUrls := ∅; l_urlQueue := [(startUrl, 0)];
                  l_pc := AtLoopHead; l_yielded := [] |})
  | None =>
      (updateCrawlStatus crawlId failed
         (Some ("Crawl job " +:+ crawlId +:+ " not found in active crawls")%string) now w,
       None)
  end.

(** [resumeCrawl], lines 668-698, as a call that nothing interrupts: the
    source writes the job object at line 677 and awaits the store update
    at line 680. *)
Definition resumeCrawl (crawlId : string) (now : Z) (w : World)
    : bool * World * option Loop :=
  match activeCrawls w !! crawlId ≫= (fun ref => (fun d => (ref, d)) <$> heap w !! ref) with
  | Some (ref, crawlData) =>
      if decide (cd_status crawlData = paused) then
        let w := update_data ref (set_cd_status running) w in
        let w := updateOne crawlId
                   (fun j => set_j_resumedAt (Some now) (set_j_status running j)) w in
        let '(w, l) := processCrawl crawlId (cd_url crawlData) (cd_depth crawlData)
                         (cd_options crawlData) now w in
        (true, w, l)
      else (false, w, None)
  | None => (false, w, None)
  end.

(** [crawlJob.save()], line 61, rejects when the document does not pass the
    schema of the stored job (an [_id] and a [url] that are not empty, a
    [depth] of at least 1) or when the store holds a document with the same
    [_id]. *)
Definition save_rejects (crawlId url : string) (depth : Z) (w : World) : bool :=
  bool_decide (crawlId = EmptyString)
  || bool_decide (url = EmptyString)
  || (depth <? 1)
  || bool_decide (is_Some (db w !! crawlId)).

(** [startCrawl] when [save] accepts the document: the document is stored,
    the browser is launched and the job is registered. *)
Definition launch (crawlId url : string) (depth : Z) (options : Options)
    (now : Z) (w : World) : World * option Loop :=
  let crawlJob :=
    {| j_url := url; j_depth := depth; j_status := running; j_pagesProcessed := 0;
       j_screenshotCount := 0; j_errorCount := 0; j_visitedUrls := []; j_errors := [];
       j_ocrResults := []; j_duration := 0; j_errorMessage := None; j_startedAt := now;
       j_completedAt := None; j_pausedAt := None; j_resumedAt := None;
       j_stoppedAt := None; j_failedAt := None |} in
  let w := set_db (<[crawlId := crawlJob]> (db w)) w in
  let ref := length (heap w) in
  let crawlData :=
    {| cd_browser := Browser ref; cd_context := Context ref; cd_status := running;
       cd_url := url; cd_depth := depth; cd_options := options;
       cd_screenshotDir := ("data/screenshots/" +:+ crawlId)%string;
       cd_pages := []; cd_errors := []; cd_capturedScreenshots := [];
       cd_startTime := now; cd_visitedUrls := None |} in
  let w := set_heap (heap w ++ [crawlData]) w in
  let w := set_activeCrawls (<[crawlId := ref]> (activeCrawls w)) w in
  processCrawl crawlId url depth options now w.

(** [startCrawl], lines 44-133. When [save] rejects, the [catch] of line 129
    rethrows: nothing is stored, launched or registered. *)
Definition startCrawl (crawlId url : string) (depth : Z) (options : Options)
    (now : Z) (w : World) : World * option Loop :=
  if save_rejects crawlId url depth w then (w, None)
  else launch crawlId url depth options now w.

(** *** The whole service: commands and loop steps in any order *)

Record Sys := { world : World; loops : list Loop }.

Inductive Event :=
| Start (crawlId url : string) (depth : Z) (options : Options) (now : Z)
| Pause (crawlId : string) (now : Z)
| Resume (crawlId : string) (now : Z)
| Stop (crawlId : string) (now : Z)
| Tick (i : nat) (o : Outcome).

Definition add_loop (l : option Loop) (ls : list Loop) : list Loop :=
  match l with
  | Some l => ls ++ [l]
  | None => ls
  end.

Definition step (s : Sys) (e : Event) : Sys :=
  match e with
  | Start crawlId url depth options now =>
      let '(w, l) := startCrawl crawlId url depth options now (world s) in
      {| world := w; loops := add_loop l (loops s) |}
  | Pause crawlId now =>
      {| world := snd (pauseCrawl crawlId now (world s)); loops := loops s |}
  | Resume crawlId now =>
      let '(_, w, l) := resumeCrawl crawlId now (world s) in
      {| world := w; loops := add_loop l (loops s) |}
  | Stop crawlId now =>
      {| world := snd (stopCrawl crawlId now (world s)); loops := loops s |}
  | Tick i o =>
      match loops s !! i with
      | Some l =>
          let '(w, l') := tick o (world s, l) in
          {| world := w; loops := <[i := l']> (loops s) |}
      | None => s
      end
  end.

Definition run (s : Sys) (es : list Event) : Sys := fold_left step es s.

Definition initial : Sys :=
  {| world := {| activeCrawls := ∅; heap := []; db := ∅; trace := [] |};
     loops := [] |}.

(** *** Relations and invariants used to state the properties *)

(** Every step of a piece of code keeps the relation [R] between the state
    before and the state after. *)
Definition respects (R : World * Loop -> World * Loop -> Prop) {A} (m : M A) : Prop :=
  forall s, R s (snd (m s)).

(** Job objects have no [visitedUrls] property, and the Map only holds
    references into the heap. *)
Definition world_ok (w : World) : Prop :=
  Forall (fun crawlData => cd_visitedUrls crawlData = None) (heap w)
  /\ (forall id ref, activeCrawls w !! id = Some ref -> (ref < length (heap w))%nat).

Definition keeps_visitedUrls (f : CrawlData -> CrawlData) : Prop :=
  forall crawlData, cd_visitedUrls (f crawlData) = cd_visitedUrls crawlData.

(** The invariant of the locals of a crawl loop. *)
Definition loop_ok (l : Loop) : Prop :=
  (0 <= l_maxDepth l -> forall e, e ∈ l_urlQueue l -> e.2 <= l_maxDepth l + 1)
  /\ (0 <= l_maxDepth l -> is_false (useAI (l_options l)) = true ->
      forall e, e ∈ l_urlQueue l -> e.2 <= l_maxDepth l)
  /\ (forall e, e ∈ l_yielded l -> e.2 <= l_maxDepth l)
  /\ NoDup (l_yielded l).*1
  /\ (forall u, u ∈ l_visitedUrls l <-> u ∈ (l_yielded l).*1).

(** What one iteration may do to the locals of the loop: only the queue
    changes, and a new entry has depth [depth + 1]; it comes from the link
    extraction, which needs [depth < maxDepth], or from the advisory stage. *)
Definition queue_step (depth : Z) (s s' : World * Loop) : Prop :=
  snd s' = set_l_urlQueue (l_urlQueue (snd s')) (snd s)
  /\ forall e, e ∈ l_urlQueue (snd s') ->
       e ∈ l_urlQueue (snd s)
       \/ (e.2 = depth + 1
           /\ (depth < l_maxDepth (snd s) \/ is_false (useAI (l_options (snd s))) = false)).

(** What a stage that is not a lifecycle transition keeps: every status, in
    memory and in the store, the Map, the calls made so far, the entries of
    the queue and the place of the loop. *)
Definition keeps_lifecycle (s s' : World * Loop) : Prop :=
  (forall ref, status_of (fst s') ref = status_of (fst s) ref)
  /\ (forall id, j_status <$> db (fst s') !! id = j_status <$> db (fst s) !! id)
  /\ activeCrawls (fst s') = activeCrawls (fst s)
  /\ (exists calls, trace (fst s') = trace (fst s) ++ calls)
  /\ (forall e, e ∈ l_urlQueue (snd s) -> e ∈ l_urlQueue (snd s'))
  /\ l_pc (snd s') = l_pc (snd s).

(** What follows the link extraction in an iteration. *)
Definition after_discover (url : string) (depth : Z) (o : Outcome) : M unit :=
  persist url ;; advise url depth o.

(** The state [resumeCrawl] hands to [processCrawl], and the loop it starts. *)
Definition resumed_world (crawlId : string) (now : Z) (ref : nat) (w : World) : World :=
  updateOne crawlId (fun j => set_j_resumedAt (Some now) (set_j_status running j))
    (update_data ref (set_cd_status running) w).

Definition fresh_loop (crawlId : string) (ref : nat) (crawlData : CrawlData) (page : Resource)
    : Loop :=
  {| l_crawlId := crawlId; l_crawlData := ref; l_startUrl := cd_url crawlData;
     l_maxDepth := cd_depth crawlData; l_options := cd_options crawlData;
     l_page := page; l_visitedUrls := ∅; l_urlQueue := [(cd_url crawlData, 0)];
     l_pc := AtLoopHead; l_yielded := [] |}.

(** [stopCrawl] called once per clock reading of [nows], in a row. *)
Fixpoint stop_repeatedly (crawlId : string) (nows : list Z) (w : World) : list bool * World :=
  match nows with
  | [] => ([], w)
  | now :: nows =>
      let '(b, w) := stopCrawl crawlId now w in
      let '(bs, w) := stop_repeatedly crawlId nows w in
      (b :: bs, w)
  end.

(** The resources closed, in order; the job a resource belongs to. *)
Definition is_close (c : Call) : bool :=
  match c with Close _ => true | _ => false end.

Definition closes (calls : list Call) : list Resource :=
  omap (fun c => match c with Close r => Some r | _ => None end) calls.

(** How often a resource is among the resources of a list. *)
Definition occurrences_of (r : Resource) (rs : list Resource) : nat :=
  length (List.filter (fun x => bool_decide (x = r)) rs).

Definition owner (r : Resource) : nat :=
  match r with Page job _ | Context job | Browser job => job end.

(** An invariant of [run], where commands and loop steps do not overlap: a
    job object owns its browser, its context and the pages it has opened;
    the Map is injective; nothing is closed twice, nothing of a job that is
    still in the Map is closed. *)
Definition resources_ok (w : World) : Prop :=
  (forall ref crawlData, heap w !! ref = Some crawlData ->
     cd_browser crawlData = Browser ref
     /\ cd_context crawlData = Context ref
     /\ cd_pages crawlData = map (Page ref) (seq 0 (length (cd_pages crawlData))))
  /\ (forall id ref, activeCrawls w !! id = Some ref -> (ref < length (heap w))%nat)
  /\ (forall id1 id2 ref,
        activeCrawls w !! id1 = Some ref -> activeCrawls w !! id2 = Some ref -> id1 = id2)
  /\ NoDup (closes (trace w))
  /\ (forall r, r ∈ closes (trace w) -> (owner r < length (heap w))%nat)
  /\ (forall id ref r,
        activeCrawls w !! id = Some ref -> r ∈ closes (trace w) -> owner r <> ref).

Definition keeps_resources (f : CrawlData -> CrawlData) : Prop :=
  forall crawlData,
    cd_browser (f crawlData) = cd_browser crawlData
    /\ cd_context (f crawlData) = cd_context crawlData
    /\ cd_pages (f crawlData) = cd_pages crawlData.

(** The urls navigated to, in order. *)
Definition crawled (calls : list Call) : list string :=
  omap (fun c => match c with Goto url => Some url | _ => None end) calls.

(** *** Link extraction ([extractLinks], lines 343-364) *)

(** The url parser belongs to the platform: [resolve href baseUrl] is
    [new URL(href, baseUrl).href] and [origin url] is [new URL(url).origin];
    [None]: the constructor throws. *)
Section ExtractLinks.
Variable resolve : string -> string -> option string.
Variable origin : string -> option string.

(** A [Set] of strings in insertion order, [Set.prototype.add], and
    [new Set(values)]. *)
Definition Set_add (set : list string) (value : string) : list string :=
  if decide (value ∈ set) then set else set ++ [value].

Definition Set_of (values : list string) : list string := fold_left Set_add values [].

(** The [filter] callback of line 358; [url] is the result of the [map]
    callback, [None] for [null]. The empty string is falsy and does not
    start with "http" either. [None]: one of the two constructors throws. *)
Definition keep_link (baseUrl : string) (url : option string) : option bool :=
  match url with
  | None => Some false
  | Some url =>
      if String.prefix "http" url then
        link_origin ← origin url;
        base_origin ← origin baseUrl;
        Some (bool_decide (link_origin = base_origin))
      else Some false
  end.

(** [Array.prototype.filter] with a callback that may throw. *)
Fixpoint filter_links (baseUrl : string) (urls : list (option string))
    : option (list string) :=
  match urls with
  | [] => Some []
  | url :: rest =>
      keep ← keep_link baseUrl url;
      kept ← filter_links baseUrl rest;
      Some (match url with
            | Some link => if (keep : bool) then link :: kept else kept
            | None => kept
            end)
  end.

(** [extractLinks] on the [href] properties of the anchors of the page, in
    document order; [None]: the evaluation in the page rejects. *)
Definition extractLinks (hrefs : list string) (baseUrl : string) : option (list string) :=
  links ← filter_links baseUrl (map (fun href => resolve href baseUrl) hrefs);
  Some (Set_of links).

End ExtractLinks.

(** *** The log of a job ([getCrawlLogs], lines 742-791) *)

Inductive LogLevel := LevelInfo | LevelError.

Inductive LogType := TypeUrl | TypeError | TypeOcr.

(** The message templates of lines 755, 763 and 771. *)
Inductive LogMessage :=
| VisitedUrl (url : string)
| ErrorAt (url message : string)
| OcrProcessed (screenshotPath : ScreenshotPath).

(** A log entry; of the [details] of an entry for a recognition result the
    confidence is kept. *)
Record LogEntry := {
  log_level : LogLevel;
  log_message : LogMessage;
  log_timestamp : Z;
  log_type : LogType;
  log_confidence : option R
}.

(** The three [map] callbacks. An entry for a visited url is stamped with
    [new Date()]: [clock i] is the reading for the i-th url. *)
Definition url_log (clock : nat -> Z) (i : nat) (url : string) : LogEntry :=
  {| log_level := LevelInfo; log_message := VisitedUrl url; log_timestamp := clock i;
     log_type := TypeUrl; log_confidence := None |}.

Definition error_log (e : DbError) : LogEntry :=
  {| log_level := LevelError; log_message := ErrorAt (e_url e) (e_message e);
     log_timestamp := e_timestamp e; log_type := TypeError; log_confidence := None |}.

Definition ocr_log (r : DbOcr) : LogEntry :=
  {| log_level := LevelInfo; log_message := OcrProcessed (r_screenshotPath r);
     log_timestamp := r_timestamp r; log_type := TypeOcr;
     log_confidence := Some (r_confidence r) |}.

(** [logs.sort((a, b) => b.timestamp - a.timestamp)]: the sort is stable,
    so the result is the one arrangement by decreasing timestamp in which
    entries of equal timestamp keep their order. Each entry is inserted
    before the entries behind it, in front of the first one that is not
    newer than it. *)
Fixpoint insert_newest_first (e : LogEntry) (sorted : list LogEntry) : list LogEntry :=
  match sorted with
  | [] => [e]
  | e' :: rest =>
      if log_timestamp e <? log_timestamp e' then e' :: insert_newest_first e rest
      else e :: sorted
  end.

Definition sort_newest_first (logs : list LogEntry) : list LogEntry :=
  foldr insert_newest_first [] logs.

(** [Array.prototype.slice(start, end)] with integer arguments: a negative
    index counts from the end. *)
Definition slice {A} (l : list A) (start final : Z) : list A :=
  let len := Z.of_nat (length l) in
  let k := if start <? 0 then Z.max (len + start) 0 else Z.min start len in
  let final := if final <? 0 then Z.max (len + final) 0 else Z.min final len in
  take (Z.to_nat (final - k)) (drop (Z.to_nat k) l).

(** All the entries of a stored job, newest first. *)
Definition all_logs (clock : nat -> Z) (crawlJob : CrawlJob) : list LogEntry :=
  sort_newest_first
    (imap (url_log clock) (j_visitedUrls crawlJob)
     ++ map error_log (j_errors crawlJob)
     ++ map ocr_log (j_ocrResults crawlJob)).

(** [getCrawlLogs]; [None] is [null]. *)
Definition getCrawlLogs (crawlId : string) (limit offset : Z) (clock : nat -> Z)
    (w : World) : option (list LogEntry) :=
  crawlJob ← db w !! crawlId;
  Some (slice (all_logs clock crawlJob) offset (offset + limit)).

(** The handler of the logs route ([getCrawlLogs] in
    [src/api/controllers/crawlerController.js], lines 312-340): the query
    parameters after [parseInt] ([None]: absent or not a number), with
    their defaults; [None] is answered with status 404. *)
Definition getCrawlLogs_handler (crawlId : string) (limit offset : option Z)
    (clock : nat -> Z) (w : World) : option (list LogEntry) :=
  getCrawlLogs crawlId (Scroll.or_else limit 100) (Scroll.or_else offset 0) clock w.

(** Timestamps do not increase along a list of entries. *)
Definition newest_first (logs : list LogEntry) : Prop :=
  forall i j e e', (i <= j)%nat -> logs !! i = Some e -> logs !! j = Some e' ->
                   log_timestamp e' <= log_timestamp e.

(** *** What one iteration records *)

(** The message of the first awaited call that throws, stage by stage. *)
Definition capture_failure (options : Options) (o : Outcome) : option string :=
  match o_goto o with
  | Some message => Some message
  | None =>
      match o_loadState o with
      | Some message => Some message
      | None =>
          match (if is_false (handleInfiniteScroll options) then None else o_scroll o) with
          | Some message => Some message
          | None => o_screenshot o
          end
      end
  end.

Definition discover_failure (depth maxDepth : Z) (o : Outcome) : option string :=
  if depth <? maxDepth then
    match o_links o with
    | Ok _ => None
    | Throw message => Some message
    end
  else None.

Definition advise_failure (options : Options) (o : Outcome) : option string :=
  if is_false (useAI options) then None else o_title o.

(** The page is recorded in the stored job when the stages before line 233
    return. *)
Definition persisted (options : Options) (depth maxDepth : Z) (o : Outcome) : bool :=
  match capture_failure options o, discover_failure depth maxDepth o with
  | None, None => true
  | _, _ => false
  end.

Definition iteration_failure (options : Options) (depth maxDepth : Z) (o : Outcome)
    : option string :=
  match capture_failure options o with
  | Some message => Some message
  | None =>
      match discover_failure depth maxDepth o with
      | Some message => Some message
      | None => advise_failure options o
      end
  end.

(** *** What the store and the job objects agree on *)

(** The stored page counter counts the stored urls, and a job in the Map
    has a stored document with the same status and url. *)
Definition store_ok (w : World) : Prop :=
  (forall id j, db w !! id = Some j ->
     j_pagesProcessed j = Z.of_nat (length (j_visitedUrls j)))
  /\ (forall id ref crawlData,
        activeCrawls w !! id = Some ref -> heap w !! ref = Some crawlData ->
        exists j, db w !! id = Some j
                  /\ j_status j = cd_status crawlData /\ j_url j = cd_url crawlData).

(** The confidence of every stored recognition result is a whole
    percentage. *)
Definition percentage (x : R) : Prop := exists z, x = IZR z /\ 0 <= z <= 100.

Definition results_ok (w : World) : Prop :=
  forall id j r, db w !! id = Some j -> r ∈ j_ocrResults j -> percentage (r_confidence r).

(** Entries in order of depth. The locals of a crawl loop are breadth
    first when the entries processed followed by the entries queued are in
    order of depth and the queue spans at most two levels. *)
Definition by_depth (e e' : string * Z) : Prop := e.2 <= e'.2.

Definition breadth_first (l : Loop) : Prop :=
  StronglySorted by_depth (l_yielded l ++ l_urlQueue l)
  /\ forall q q', q ∈ l_urlQueue l -> q' ∈ l_urlQueue l -> q.2 <= q'.2 + 1.

(** What the pages of a run offer: the links extracted from them and the
    urls suggested for them all satisfy [P]. *)
Definition offers (P : string -> Prop) (o : Outcome) : Prop :=
  (forall links, o_links o = Ok links -> Forall P links)
  /\ (forall priorityUrls, o_priorityUrls o = Some priorityUrls -> Forall P priorityUrls).

(** What holds of a job object from a pause or a stop of its job until the
    job is resumed: it is not running, and no id but that of the job leads
    to it in the Map. *)
Definition held (crawlId : string) (ref : loc) (w : World) : Prop :=
  (exists status, status_of w ref = Some status /\ status <> running)
  /\ forall id, activeCrawls w !! id = Some ref -> id = crawlId.



(** *** Example runs *)

Section Examples.
Local Open Scope string_scope.

Definition no_ocr : Options :=
  {| handleInfiniteScroll := None; performOcr := None; skipOcr := Some true; useAI := None |}.

Definition with_ocr : Options :=
  {| handleInfiniteScroll := None; performOcr := None; skipOcr := None; useAI := Some false |}.

(** A page on which every stage succeeds. *)
Definition page_ok (now : Z) (links : list string) (priority : option (list string))
    : Outcome :=
  {| o_now := now; o_uuid := "id"; o_fallback_uuid := "id2"; o_goto := None;
     o_loadState := None; o_scroll := None; o_screenshot := None;
     o_ocr := OcrThrows "unused"; o_links := Ok links; o_title := None;
     o_priorityUrls := priority |}.

Definition goto_fails : Outcome :=
  {| o_now := 10; o_uuid := "id"; o_fallback_uuid := "id2";
     o_goto := Some "net::ERR_NAME_NOT_RESOLVED";
     o_loadState := None; o_scroll := None; o_screenshot := None;
     o_ocr := OcrThrows "unused"; o_links := Ok []; o_title := None;
     o_priorityUrls := None |}.

Definition ocr_fails : Outcome :=
  {| o_now := 10; o_uuid := "id"; o_fallback_uuid := "id2"; o_goto := None;
     o_loadState := None; o_scroll := None; o_screenshot := None;
     o_ocr := OcrRuns (Ocr.RecognitionFailed "tesseract failed");
     o_links := Ok ["http://a/b"]; o_title := None; o_priorityUrls := None |}.

(** A job just started, its crawl loop and its job object. *)
Definition started (options : Options) : Sys :=
  run initial [Start "job" "http://a" 1 options 0].

Definition start_loop (options : Options) : Loop :=
  {| l_crawlId := "job"; l_crawlData := 0%nat; l_startUrl := "http://a";
     l_maxDepth := 1; l_options := options; l_page := Page 0 0;
     l_visitedUrls := ∅; l_urlQueue := [("http://a", 0)];
     l_pc := AtLoopHead; l_yielded := [] |}.

Definition start_data (options : Options) : CrawlData :=
  {| cd_browser := Browser 0; cd_context := Context 0; cd_status := running;
     cd_url := "http://a"; cd_depth := 1; cd_options := options;
     cd_screenshotDir := "data/screenshots/job"; cd_pages := [Page 0 0];
     cd_errors := []; cd_capturedScreenshots := []; cd_startTime := 0;
     cd_visitedUrls := None |}.

Definition one_page_crawled : list Event :=
  [Start "job" "http://a" 1 no_ocr 0; Tick 0 (page_ok 10 ["http://a/b"] None)].

(** A page that links to itself. *)
Definition self_link : list Event :=
  [Start "job" "http://a" 1 no_ocr 0; Tick 0 (page_ok 10 ["http://a"] None)].

(** The advisory service suggests a url on a page at the maximum depth. *)
Definition priority_at_max_depth : list Event :=
  [Start "job" "http://a" 1 no_ocr 0;
   Tick 0 (page_ok 10 ["http://a/b"] None);
   Tick 0 (page_ok 20 [] (Some ["http://a/ad"]))].

(** Pause, then resume before the loop gets to its next test. *)
Definition pause_resume : list Event :=
  [Start "job" "http://a" 1 no_ocr 0;
   Tick 0 (page_ok 10 ["http://a/b"] None);
   Pause "job" 20; Resume "job" 30;
   Tick 1 (page_ok 40 ["http://a/b"] None)].

(** Pause or stop, then the loop gets to its next test. *)
Definition paused_job : list Event :=
  [Start "job" "http://a" 1 no_ocr 0; Pause "job" 5].

Definition pause_then_test : list Event :=
  paused_job ++ [Tick 0 (page_ok 10 [] None)].

Definition stop_then_test : list Event :=
  [Start "job" "http://a" 1 no_ocr 0; Stop "job" 5; Tick 0 (page_ok 10 [] None)].

(** A start page with three links and a maximum depth of 1, crawled to the
    end: the start page, its three links, then the loop test on the empty
    queue. *)
Definition three_links : list Event :=
  [Start "job" "http://a" 1 no_ocr 0;
   Tick 0 (page_ok 10 ["http://a/1"; "http://a/2"; "http://a/3"] None);
   Tick 0 (page_ok 20 [] None);
   Tick 0 (page_ok 30 [] None);
   Tick 0 (page_ok 40 [] None);
   Tick 0 (page_ok 50 [] None)].

(** The first crawl loop after a run. *)
Definition loop_after (es : list Event) : Loop :=
  default (start_loop no_ocr) (loops (run initial es) !! 0%nat).

(** The stored job just after the start, and the first job object and the
    stored job after a run. *)
Definition start_job : CrawlJob :=
  {| j_url := "http://a"; j_depth := 1; j_status := running; j_pagesProcessed := 0;
     j_screenshotCount := 0; j_errorCount := 0; j_visitedUrls := []; j_errors := [];
     j_ocrResults := []; j_duration := 0; j_errorMessage := None; j_startedAt := 0;
     j_completedAt := None; j_pausedAt := None; j_resumedAt := None;
     j_stoppedAt := None; j_failedAt := None |}.

Definition data_after (es : list Event) : CrawlData :=
  default (start_data no_ocr) (heap (world (run initial es)) !! 0%nat).

Definition job_after (es : list Event) : CrawlJob :=
  default start_job (db (world (run initial es)) !! "job").

(** The page is captured and its links are extracted, then [page.title()]
    throws. *)
Definition title_fails : Outcome :=
  {| o_now := 10; o_uuid := "id"; o_fallback_uuid := "id2"; o_goto := None;
     o_loadState := None; o_scroll := None; o_screenshot := None;
     o_ocr := OcrThrows "unused"; o_links := Ok ["http://a/b"];
     o_title := Some "Execution context was destroyed"; o_priorityUrls := None |}.

(** The start page is crawled, the navigation to its link fails. *)
Definition page_then_failure : list Event :=
  [Start "job" "http://a" 1 no_ocr 0;
   Tick 0 (page_ok 5 ["http://a/b"] None);
   Tick 0 goto_fails].

(** A crawl with the advisory stage switched off: the start page with two
    links, then the first of them. *)
Definition two_links_no_advice : list Event :=
  [Start "job" "http://a" 1 with_ocr 0;
   Tick 0 (page_ok 10 ["http://a/1"; "http://a/2"] None);
   Tick 0 (page_ok 20 [] None)].

(** A crawl of one page on which the recognition returns a text. *)
Definition recognized : Outcome :=
  {| o_now := 10; o_uuid := "id"; o_fallback_uuid := "id2"; o_goto := None;
     o_loadState := None; o_scroll := None; o_screenshot := None;
     o_ocr := OcrRuns (Ocr.Recognized (Ocr.units "summer sale"));
     o_links := Ok []; o_title := None; o_priorityUrls := None |}.

Definition ocr_crawl : list Event :=
  [Start "job" "http://a" 1 with_ocr 0; Tick 0 recognized].

Definition recognized_result : DbOcr :=
  {| r_screenshotPath := {| shot_dir := "data/screenshots/job"; shot_stamp := 10 |};
     r_ocrResultId := "id";
     r_confidence := Ocr.calculateConfidence (Ocr.units "summer sale");
     r_timestamp := 10 |}.

(** A job is paused with a link in its queue; another job is started
    before the loop of the first gets to its test. *)
Definition paused_with_work : list Event :=
  one_page_crawled ++ Pause "job" 20 :: [Start "other" "http://b" 1 no_ocr 25].

(** A url parser for examples with hosts of one letter: every string
    parses, the origin is the first eight characters ("http://a"). *)
Definition example_origin (url : string) : option string :=
  Some (String.substring 0 8 url).

Definition example_resolve (href baseUrl : string) : option string :=
  if String.prefix "/" href then Some (baseUrl +:+ href) else Some href.

End Examples.

End Crawler.

(** *** The stored recognition result ([src/models/OCRResult.js]) *)

Module OCRResult.

(** The virtuals [textLength] and [wordCount], lines 98-108, of a document
    whose [text] is the given one; the empty text is falsy. *)
Definition textLength (text : list N) : nat :=
  if (length text =? 0)%nat then 0%nat else length text.

Definition wordCount (text : list N) : nat :=
  if (length text =? 0)%nat then 0%nat
  else length (List.filter (fun word => (0 <? length word)%nat) (Ocr.split_whitespace text)).

(** The keyword subdocument. The score is stored and copied, never
    computed with. *)
Record Keyword := {
  word : string;
  score : R;
  frequency : Z;
  category : option string
}.

(** [a || b] on an optional string: [null] and the empty string are
    falsy. *)
Definition or_category (a b : option string) : option string :=
  match a with
  | Some EmptyString | None => b
  | Some _ => a
  end.

(** One round of the loop of [addKeywords], lines 140-156: [find] returns
    the first keyword with the same word, which is updated in place; when
    there is none the keyword is pushed. *)
Fixpoint add_keyword (keyword : Keyword) (keywords : list Keyword) : list Keyword :=
  match keywords with
  | [] => [keyword]
  | existingKeyword :: rest =>
      if decide (word existingKeyword = word keyword) then
        {| word := word existingKeyword; score := score keyword;
           frequency := frequency existingKeyword + 1;
           category := or_category (category keyword) (category existingKeyword) |}
        :: rest
      else existingKeyword :: add_keyword keyword rest
  end.

(** [addKeywords]: the document's [keywords] after the call. *)
Definition addKeywords (keywords new : list Keyword) : list Keyword :=
  fold_left (fun keywords keyword => add_keyword keyword keywords) new keywords.

(** How often a word occurs among keywords. *)
Definition occurrences (w : string) (keywords : list Keyword) : nat :=
  length (List.filter (fun keyword => bool_decide (word keyword = w)) keywords).

Definition example_keywords : list Keyword :=
  [{| word := "sale"; score := 2; frequency := 3; category := Some "marketing" |};
   {| word := "shoes"; score := 1; frequency := 1; category := None |}]%string.

Definition example_new : list Keyword :=
  [{| word := "sale"; score := 5; frequency := 1; category := None |};
   {| word := "summer"; score := 4; frequency := 1; category := None |};
   {| word := "sale"; score := 6; frequency := 1; category := Some "" |}]%string.

End OCRResult.

(** ** Part II: theorems *)

(** *** The confidence heuristic *)

Section OcrProperties.
Import Ocr.

(** [split] leaves an empty piece where the text starts or ends with white
    space; [filter] removes it. *)
Example split_whitespace_example :
  split_whitespace (units " ab  c ") = [[]; units "ab"; units "c"; []]
  /\ words_of (units " ab  c ") = [units "ab"; units "c"]
  /\ trim (units " ab  c ") = units "ab  c".
Proof. repeat split; reflexivity. Qed.

Lemma drop_whitespace_nil s : drop_whitespace s = [] <-> blank s = true.
Proof.
  unfold blank. induction s as [|c s IH]; cbn; [tauto|].
  destruct (is_whitespace c) eqn:Hc; cbn; [exact IH|]. split; discriminate.
Qed.

Lemma blank_rev s : blank (rev s) = blank s.
Proof.
  unfold blank. induction s as [|c s IH]; [reflexivity|].
  cbn. rewrite forallb_app, IH. cbn. rewrite andb_true_r. apply andb_comm.
Qed.

Lemma blank_drop_whitespace s : blank (drop_whitespace s) = blank s.
Proof.
  unfold blank. induction s as [|c s IH]; [reflexivity|].
  cbn. destruct (is_whitespace c) eqn:Hc; cbn; [exact IH|]. now rewrite Hc.
Qed.

Lemma blank_trim s : blank (trim s) = blank s.
Proof.
  unfold trim. now rewrite blank_rev, blank_drop_whitespace, blank_rev, blank_drop_whitespace.
Qed.

Lemma trim_empty_iff s : length (trim s) = 0%nat <-> blank s = true.
Proof.
  split.
  - intros H. rewrite <- blank_trim. destruct (trim s); [reflexivity|discriminate].
  - intros H. unfold trim. apply drop_whitespace_nil in H. rewrite H. reflexivity.
Qed.

Lemma early_return_iff_blank s :
  ((length s =? 0)%nat || (length (trim s) =? 0)%nat) = blank s.
Proof.
  destruct (blank s) eqn:Hb.
  - apply orb_true_iff. right. apply Nat.eqb_eq. now apply trim_empty_iff.
  - apply orb_false_iff. split; apply Nat.eqb_neq; intros H.
    + destruct s; [discriminate Hb|discriminate H].
    + apply trim_empty_iff in H. congruence.
Qed.

(** Words and tokens *)
Lemma nonempty_rev_cons a (cur : list N) : nonempty (rev (a :: cur)) = true.
Proof. unfold nonempty. apply Nat.ltb_lt. cbn [rev]. rewrite length_app. cbn [length]. lia. Qed.

Lemma filter_step {A} (f : A -> bool) x l :
  List.filter f (x :: l) = if f x then x :: List.filter f l else List.filter f l.
Proof. reflexivity. Qed.

Lemma words_count cur in_sep s :
  (cur = [] \/ in_sep = false) ->
  length (List.filter nonempty (split_from cur in_sep s))
  = match cur with
    | [] => count_tokens true s
    | _ :: _ => S (count_tokens false s)
    end.
Proof.
  revert cur in_sep. induction s as [|c s IH]; intros cur in_sep Hinv.
  - cbn [split_from count_tokens]. rewrite filter_step. destruct cur as [|a cur]; [reflexivity|].
    now rewrite nonempty_rev_cons.
  - cbn [split_from count_tokens]. destruct (is_whitespace c) eqn:Hc.
    + destruct in_sep.
      * destruct Hinv as [->|Hinv]; [|discriminate]. now rewrite IH by (left; reflexivity).
      * rewrite filter_step. destruct cur as [|a cur].
        -- cbn. now rewrite IH by (left; reflexivity).
        -- rewrite nonempty_rev_cons. cbn [length].
           now rewrite IH by (left; reflexivity).
    + rewrite IH by (right; reflexivity). destruct cur; reflexivity.
Qed.

Lemma fold_length_from ws : forall a,
  fold_left (fun sum (word : list N) => (sum + length word)%nat) ws a
  = (a + total_length ws)%nat.
Proof.
  unfold total_length. induction ws as [|w ws IH]; intros a; cbn; [lia|].
  rewrite IH, (IH (length w)). lia.
Qed.

Lemma total_length_cons w ws : total_length (w :: ws) = (length w + total_length ws)%nat.
Proof. unfold total_length at 1. cbn. now rewrite fold_length_from. Qed.

Lemma total_length_filter ws : total_length (List.filter nonempty ws) = total_length ws.
Proof.
  induction ws as [|w ws IH]; [reflexivity|]. cbn [List.filter].
  rewrite total_length_cons, <- IH. unfold nonempty at 1.
  destruct w; cbn [length Nat.ltb Nat.leb]; [reflexivity|].
  now rewrite total_length_cons.
Qed.

Lemma words_chars cur in_sep s :
  (cur = [] \/ in_sep = false) ->
  total_length (split_from cur in_sep s) = (length cur + tokenChars s)%nat.
Proof.
  unfold tokenChars.
  revert cur in_sep. induction s as [|c s IH]; intros cur in_sep Hinv.
  - cbn [split_from]. rewrite total_length_cons, length_rev. reflexivity.
  - cbn [split_from List.filter]. destruct (is_whitespace c) eqn:Hc; cbn [negb].
    + destruct in_sep.
      * destruct Hinv as [->|Hinv]; [|discriminate]. now rewrite IH by (left; reflexivity).
      * rewrite total_length_cons, length_rev, IH by (left; reflexivity). reflexivity.
    + rewrite IH by (right; reflexivity). cbn [length]. lia.
Qed.

Lemma wordCount_tokenCount s : length (words_of s) = tokenCount s.
Proof. unfold words_of, split_whitespace. apply (words_count [] false). now left. Qed.

Lemma wordChars_tokenChars s : total_length (words_of s) = tokenChars s.
Proof.
  unfold words_of, split_whitespace.
  change (fun word : list N => (0 <? length word)%nat) with nonempty.
  rewrite total_length_filter. apply (words_chars [] false). now left.
Qed.

Lemma tokenCount_pos s : blank s = false -> (1 <= tokenCount s)%nat.
Proof.
  unfold tokenCount, blank. induction s as [|c s IH]; [discriminate|].
  cbn. destruct (is_whitespace c); cbn; [exact IH|lia].
Qed.

(** The code computes the rounded reference formula. *)
Lemma calculateConfidence_rounded s : calculateConfidence s = reference_score_rounded s.
Proof.
  unfold calculateConfidence, reference_score_rounded.
  rewrite early_return_iff_blank. destruct (blank s) eqn:Hb; [reflexivity|].
  fold (total_length (words_of s)).
  rewrite wordCount_tokenCount, wordChars_tokenChars.
  unfold clamp, reference_raw, averageTokenLength, glyphFraction.
  assert (Hn : (1 <= INR (tokenCount s))%R).
  { apply tokenCount_pos in Hb. change 1%R with (INR 1). now apply le_INR. }
  rewrite (Rmax_right 1 (INR (tokenCount s))) by exact Hn.
  do 3 f_equal. unfold Rminus. f_equal; [f_equal; f_equal; apply Rmult_comm|].
  f_equal. apply Rmult_comm.
Qed.

Lemma Math_round_IZR z : Math_round (IZR z) = IZR z.
Proof.
  unfold Math_round. f_equal. symmetry. apply Int_part_spec. lra.
Qed.


Lemma Math_round_ge z x : (IZR z <= x)%R -> (IZR z <= Math_round x)%R.
Proof.
  intros H. unfold Math_round. apply IZR_le.
  destruct (base_Int_part (x + / 2)) as [_ Hlow].
  assert (Hlt : (IZR (z - 1) < IZR (Int_part (x + / 2)))%R) by (rewrite minus_IZR; lra).
  apply lt_IZR in Hlt. lia.
Qed.

Lemma log10_1 : log10 1 = 0%R.
Proof. unfold log10. rewrite ln_1. lra. Qed.

Lemma ln_10_pos : (0 < ln 10)%R.
Proof. rewrite <- ln_1. apply ln_increasing; lra. Qed.







End OcrProperties.

(** *** Infinite scroll *)

Section ScrollProperties.
Import Scroll.

(** The handler on three pages: one that grows once, one without height,
    one that never stops growing. *)
Example handleInfiniteScroll_examples :
  handleInfiniteScroll example_page None example_options
  = (2%nat, [EvaluateScrollHeight; ScrollToBottom; WaitForTimeout 1000;
             EvaluateScrollHeight; ScrollToBottom; WaitForTimeout 1000;
             EvaluateScrollHeight; ScrollToTop])
  /\ handleInfiniteScroll flat_page None example_options
     = (0%nat, [EvaluateScrollHeight; ScrollToTop])
  /\ fst (handleInfiniteScroll endless_page None example_options) = 10%nat
  /\ fst (handleInfiniteScroll endless_page (Some 3500) example_options) = 3%nat.
Proof. repeat split; reflexivity. Qed.

Lemma scrolls_performed_cons3 acts :
  scrolls_performed (EvaluateScrollHeight :: ScrollToBottom :: WaitForTimeout 1000 :: acts)
  = S (scrolls_performed acts).
Proof. reflexivity. Qed.

Lemma scroll_loop_spec pg timeout remaining :
  forall prev c,
    let r := scroll_loop pg timeout remaining prev c in
    (c <= fst r <= c + remaining)%nat
    /\ scrolls_performed (snd r) = (fst r - c)%nat
    /\ (fst r = (c + remaining)%nat
        \/ timeout <= sp_clock pg (S (fst r)) - sp_clock pg 0
        \/ sp_height pg (fst r) = prev_from pg c prev (fst r))
    /\ (forall k, (c <= k < fst r)%nat ->
          sp_clock pg (S k) - sp_clock pg 0 < timeout
          /\ sp_height pg k <> prev_from pg c prev k).
Proof.
  induction remaining as [|remaining IH]; intros prev c; cbn [scroll_loop].
  - cbn [fst snd]. split; [lia|]. split; [cbn; lia|]. split; [left; lia|].
    intros k Hk; lia.
  - destruct (Z.ltb_spec (sp_clock pg (S c) - sp_clock pg 0) timeout) as [Hclock|Hclock].
    + destruct (Z.eqb_spec (sp_height pg c) prev) as [Hsame|Hdiff].
      * cbn [fst snd]. split; [lia|]. split; [cbn; lia|]. split.
        -- right; right. unfold prev_from. now rewrite Nat.eqb_refl.
        -- intros k Hk; lia.
      * specialize (IH (sp_height pg c) (S c)).
        destruct (scroll_loop pg timeout remaining (sp_height pg c) (S c)) as [n acts].
        cbn [fst snd] in *. destruct IH as (Hrange & Hcount & Hstop & Hbefore).
        split; [lia|]. split; [rewrite scrolls_performed_cons3, Hcount; lia|]. split.
        -- destruct Hstop as [Hstop|[Hstop|Hstop]]; [left; lia | right; left; exact Hstop |].
           right; right. rewrite Hstop. unfold prev_from.
           destruct (Nat.eqb_spec n (S c)) as [->|Hne].
           ++ replace (S c =? c)%nat with false by (symmetry; apply Nat.eqb_neq; lia).
              f_equal; lia.
           ++ replace (n =? c)%nat with false by (symmetry; apply Nat.eqb_neq; lia).
              reflexivity.
        -- intros k Hk. destruct (Nat.eq_dec k c) as [->|Hne].
           ++ split; [exact Hclock|]. unfold prev_from. now rewrite Nat.eqb_refl.
           ++ destruct (Hbefore k ltac:(lia)) as [Hc Hh]. split; [exact Hc|].
              unfold prev_from in *.
              replace (k =? c)%nat with false by (symmetry; apply Nat.eqb_neq; lia).
              destruct (Nat.eqb_spec k (S c)) as [->|Hne']; [|exact Hh].
              replace (S c - 1)%nat with c by lia. exact Hh.
    + cbn [fst snd]. split; [lia|]. split; [cbn; lia|]. split.
      * right; left. exact Hclock.
      * intros k Hk; lia.
Qed.

Lemma scroll_loop_no_top pg timeout remaining :
  forall prev c, ~ In ScrollToTop (snd (scroll_loop pg timeout remaining prev c)).
Proof.
  induction remaining as [|remaining IH]; intros prev c; cbn [scroll_loop].
  - cbn. tauto.
  - destruct (_ <? _); [|cbn; tauto].
    destruct (_ =? _); [cbn; intros [H|[]]; discriminate|].
    specialize (IH (sp_height pg c) (S c)).
    destruct (scroll_loop pg timeout remaining (sp_height pg c) (S c)) as [n acts].
    cbn in *. intros [H|[H|[H|H]]]; try discriminate. contradiction.
Qed.

Lemma prev_from_0 pg k : prev_from pg 0 0 k = previous_height pg k.
Proof.
  unfold prev_from, previous_height. destruct k as [|k]; [reflexivity|].
  cbn. now rewrite Nat.sub_0_r.
Qed.

Lemma scrolls_performed_app acts acts' :
  scrolls_performed (acts ++ acts') = (scrolls_performed acts + scrolls_performed acts')%nat.
Proof. unfold scrolls_performed. now rewrite List.filter_app, length_app. Qed.

(** The loop of the handler under the maximum and the timeout it reads at
    lines 300-301. *)
Lemma scroll_loop_stops (pg : ScrollPage) (env_timeout : option Z)
    (options : ScrollOptions) :
  let timeout := or_else (scrollTimeout options) (or_else env_timeout 30000) in
  let limit := or_else (maxScrolls options) 10 in
  let n := fst (handleInfiniteScroll pg env_timeout options) in
  let acts := snd (handleInfiniteScroll pg env_timeout options) in
  (exists before, acts = before ++ [ScrollToTop] /\ ~ In ScrollToTop before)
  /\ scrolls_performed acts = n
  /\ stops_at pg timeout limit n
  /\ (forall k, (k < n)%nat -> ~ stops_at pg timeout limit k)
  /\ (forall k, sp_height pg (S k) = sp_height pg k -> (n <= S k)%nat)
  /\ (n <= Z.to_nat limit)%nat
  /\ (forall k, timeout <= sp_clock pg (S k) - sp_clock pg 0 -> (n <= k)%nat)
  /\ (limit = 10 ->
      sp_height pg 0 <> 0 -> sp_height pg 1 <> sp_height pg 0 ->
      sp_height pg 2 = sp_height pg 1 ->
      (forall k, (k <= 2)%nat -> sp_clock pg (S k) - sp_clock pg 0 < timeout) ->
      n = 2%nat).
Proof.
  intros timeout limit n acts.
  pose proof (scroll_loop_spec pg timeout (Z.to_nat limit) 0 0%nat) as Hspec.
  pose proof (scroll_loop_no_top pg timeout (Z.to_nat limit) 0 0%nat) as Htop.
  assert (Hn : n = fst (scroll_loop pg timeout (Z.to_nat limit) 0 0)).
  { subst n. unfold handleInfiniteScroll. fold timeout limit.
    now destruct (scroll_loop pg timeout (Z.to_nat limit) 0 0). }
  assert (Hacts : acts = snd (scroll_loop pg timeout (Z.to_nat limit) 0 0) ++ [ScrollToTop]).
  { subst acts. unfold handleInfiniteScroll. fold timeout limit.
    now destruct (scroll_loop pg timeout (Z.to_nat limit) 0 0). }
  cbv zeta in Hspec. rewrite <- Hn in Hspec.
  destruct Hspec as (Hrange & Hcount & Hstop & Hbefore).
  assert (Hleast : forall k, (k < n)%nat -> ~ stops_at pg timeout limit k).
  { intros k Hk [Hmax|[Htime|Hsame]].
    - lia.
    - destruct (Hbefore k ltac:(lia)) as [Hc _]. lia.
    - destruct (Hbefore k ltac:(lia)) as [_ Hh]. apply Hh.
      now rewrite prev_from_0. }
  assert (Hat : stops_at pg timeout limit n).
  { destruct Hstop as [Hstop|[Hstop|Hstop]].
    - left. lia.
    - right; left. exact Hstop.
    - right; right. now rewrite <- prev_from_0. }
  split; [|split; [|split; [|split; [|split; [|split; [|split]]]]]].
  - eexists; split; [exact Hacts|exact Htop].
  - rewrite Hacts, scrolls_performed_app, Hcount. cbn. lia.
  - exact Hat.
  - exact Hleast.
  - intros k Hk. destruct (le_lt_dec n (S k)) as [Hle|Hlt]; [exact Hle|].
    exfalso. apply (Hleast (S k) Hlt). right; right. exact Hk.
  - lia.
  - intros k Hk. destruct (le_lt_dec n k) as [Hle|Hlt]; [exact Hle|].
    exfalso. apply (Hleast k Hlt). right; left. exact Hk.
  - intros Hlimit H0 H1 H2 Hclock.
    assert (H2' : ~ (2 < n)%nat).
    { intros Hlt. apply (Hleast 2%nat Hlt). right; right. exact H2. }
    destruct n as [|[|[|n']]]; [| |reflexivity|lia].
    + exfalso. destruct Hat as [Hmax|[Htime|Hsame]]; [lia| |].
      * specialize (Hclock 0%nat ltac:(lia)). lia.
      * cbn in Hsame. contradiction.
    + exfalso. destruct Hat as [Hmax|[Htime|Hsame]]; [lia| |].
      * specialize (Hclock 1%nat ltac:(lia)). lia.
      * cbn in Hsame. contradiction.
Qed.

(** C7, amended. The infinite-scroll handler stops scrolling as soon as the
    first of these occurs: the height measured equals the one measured
    before it, the maximum scroll count is reached, or the loop test finds
    the timeout elapsed; it always ends by scrolling back to the top.  The
    maximum is [options.maxScrolls] when that is a number other than 0 and
    10 otherwise; the timeout is [options.scrollTimeout] when that is a
    number other than 0, else [SCROLL_TIMEOUT_MS] when that is a number
    other than 0, else 30000: a configured 0 is not honoured.  [n] is the
    number of scrolls performed.  The loop stops at the first test [k] at
    which [stops_at] holds and at no earlier one (the height recorded
    before the first measurement is 0, as in the source); in the words of
    the claim: two equal consecutive measurements, the maximum, or the
    elapsed timeout each bound [n].  In particular, with a maximum of 10 and
    heights that differ until they are equal at the two checks around
    scroll 2, exactly 2 scrolls are performed. *)
Theorem C7_scroll_termination (pg : ScrollPage) (env_timeout : option Z)
    (options : ScrollOptions) :
  let n := fst (handleInfiniteScroll pg env_timeout options) in
  let acts := snd (handleInfiniteScroll pg env_timeout options) in
  exists timeout limit,
    (* the maximum and the timeout in force *)
    (forall m, maxScrolls options = Some m -> m <> 0 -> limit = m)
    /\ (maxScrolls options = None \/ maxScrolls options = Some 0 -> limit = 10)
    /\ (forall t, scrollTimeout options = Some t -> t <> 0 -> timeout = t)
    /\ (scrollTimeout options = None \/ scrollTimeout options = Some 0 ->
        (forall t, env_timeout = Some t -> t <> 0 -> timeout = t)
        /\ (env_timeout = None \/ env_timeout = Some 0 -> timeout = 30000))
    (* the handler under them *)
    /\ (exists before, acts = before ++ [ScrollToTop] /\ ~ In ScrollToTop before)
    /\ scrolls_performed acts = n
    /\ stops_at pg timeout limit n
    /\ (forall k, (k < n)%nat -> ~ stops_at pg timeout limit k)
    /\ (forall k, sp_height pg (S k) = sp_height pg k -> (n <= S k)%nat)
    /\ (n <= Z.to_nat limit)%nat
    /\ (forall k, timeout <= sp_clock pg (S k) - sp_clock pg 0 -> (n <= k)%nat)
    /\ (limit = 10 ->
        sp_height pg 0 <> 0 -> sp_height pg 1 <> sp_height pg 0 ->
        sp_height pg 2 = sp_height pg 1 ->
        (forall k, (k <= 2)%nat -> sp_clock pg (S k) - sp_clock pg 0 < timeout) ->
        n = 2%nat).
Proof.
  intros n acts.
  exists (or_else (scrollTimeout options) (or_else env_timeout 30000)),
         (or_else (maxScrolls options) 10).
  assert (Hsome : forall a b v, a = Some v -> v <> 0 -> or_else a b = v).
  { intros a b v -> Hv. unfold or_else. destruct (Z.eqb_spec v 0); [contradiction|reflexivity]. }
  assert (Hnone : forall a b, a = None \/ a = Some 0 -> or_else a b = b).
  { intros a b [->| ->]; reflexivity. }
  split; [intros m Hm Hne; now apply Hsome|].
  split; [now apply Hnone|].
  split; [intros t Ht Hne; now apply Hsome|].
  split.
  { intros Hoff. rewrite (Hnone _ _ Hoff).
    split; [intros t Ht Hne; now apply Hsome|now apply Hnone]. }
  exact (scroll_loop_stops pg env_timeout options).
Qed.

Lemma C7_scroll_termination_witness :
  fst (handleInfiniteScroll example_page None example_options) = 2%nat.
Proof.
  destruct (C7_scroll_termination example_page None example_options)
    as (timeout & limit & Hmax & _ & _ & Htimeout & _ & _ & _ & _ & _ & _ & _ & Htwo).
  assert (Hlimit : limit = 10) by (apply Hmax; [reflexivity|discriminate]).
  destruct (Htimeout (or_introl eq_refl)) as [_ Hdefault].
  assert (Ht : timeout = 30000) by (apply Hdefault; now left).
  subst timeout. apply Htwo.
  - exact Hlimit.
  - cbn; lia.
  - cbn; lia.
  - reflexivity.
  - intros k Hk. destruct k as [|[|[|k]]]; cbn; lia.
Defined.

(** A maximum of 0 is asked for and is not honoured: on a page that grows
    at every measurement the handler scrolls 10 times. *)
Lemma C7_counterexample :
  ~ (forall m, maxScrolls zero_options = Some m ->
       (fst (handleInfiniteScroll endless_page None zero_options) <= Z.to_nat m)%nat).
Proof.
  intros H. specialize (H 0 eq_refl).
  change (fst (handleInfiniteScroll endless_page None zero_options)) with 10%nat in H.
  cbn in H. lia.
Qed.

End ScrollProperties.

(** *** The crawler service *)

Section CrawlerProperties.
Import Crawler.

(** A relation between the state before and after that every step of a
    piece of monadic code keeps. *)
Section Respects.
Variable R : World * Loop -> World * Loop -> Prop.
Hypothesis R_refl : forall s, R s s.
Hypothesis R_trans : forall s1 s2 s3, R s1 s2 -> R s2 s3 -> R s1 s3.

Lemma respects_ret {A} (a : A) : respects R (ret a).
Proof. intros s. apply R_refl. Qed.

Lemma respects_bind {A B} (m : M A) (k : A -> M B) :
  respects R m -> (forall a, respects R (k a)) -> respects R (m ≫= k).
Proof.
  intros Hm Hk s. unfold mbind, M_bind, bind. specialize (Hm s).
  destruct (m s) as [[a|message] s']; cbn [snd] in *; [|exact Hm].
  eapply R_trans; [exact Hm|apply Hk].
Qed.

Lemma respects_when (b : bool) (m : M unit) : respects R m -> respects R (when b m).
Proof. intros Hm. destruct b; [exact Hm|apply respects_ret]. Qed.

Lemma respects_try_ignore {A} (m : M A) : respects R m -> respects R (try_ignore m).
Proof. intros Hm s. apply Hm. Qed.

Lemma respects_get_loop : respects R get_loop.
Proof. intros s. apply R_refl. Qed.

Lemma respects_get_world : respects R get_world.
Proof. intros s. apply R_refl. Qed.

Lemma respects_on_world f :
  (forall w l, R (w, l) (f w, l)) -> respects R (on_world f).
Proof. intros H [w l]. apply H. Qed.

Lemma respects_on_loop f :
  (forall w l, R (w, l) (w, f l)) -> respects R (on_loop f).
Proof. intros H [w l]. apply H. Qed.

Lemma respects_await c answer :
  (forall w l, R (w, l) (emit c w, l)) -> respects R (await c answer).
Proof. intros H [w l]. unfold await. destruct answer; apply H. Qed.

Lemma respects_await_value {A} c (answer : Result A) :
  (forall w l, R (w, l) (emit c w, l)) -> respects R (await_value c answer).
Proof. intros H [w l]. apply H. Qed.

(** What the stages of an iteration do to the state, one obligation per
    kind of update. *)
Variables (url : string) (depth : Z) (o : Outcome).
Hypothesis R_emit : forall c w l, is_close c = false -> R (w, l) (emit c w, l).
Hypothesis R_shot : forall w l ref path,
  R (w, l) (update_data ref (fun crawlData =>
              set_cd_capturedScreenshots
                (cd_capturedScreenshots crawlData ++ [path]) crawlData) w, l).
Hypothesis R_ocr : forall w l id rec,
  R (w, l) (updateOne id (fun j => set_j_ocrResults (j_ocrResults j ++ [rec]) j) w, l).
Hypothesis R_links : forall w l links,
  depth < l_maxDepth l ->
  R (w, l) (w, set_l_urlQueue (push_links depth links (l_urlQueue l)) l).
Hypothesis R_persist : forall w l id,
  R (w, l) (updateOne id (fun j =>
              set_j_pagesProcessed (j_pagesProcessed j + 1)
                (set_j_visitedUrls (j_visitedUrls j ++ [url]) j)) w, l).
Hypothesis R_priority : forall w l ps,
  is_false (useAI (l_options l)) = false ->
  R (w, l) (w, set_l_urlQueue
                 (unshift_priority (l_visitedUrls l) depth ps (l_urlQueue l)) l).

Lemma respects_capture : respects R (capture url depth o).
Proof.
  unfold capture.
  repeat first
    [ apply respects_bind; [|intros ?]
    | apply respects_when
    | apply respects_get_loop
    | apply respects_get_world
    | apply respects_ret
    | apply respects_await; intros; apply R_emit; reflexivity
    | apply respects_on_world; intros; first [apply R_emit; reflexivity | apply R_shot] ].
Qed.

Lemma respects_ocr id path : respects R (processScreenshotWithOCR id path url o).
Proof.
  unfold processScreenshotWithOCR.
  apply respects_bind; [apply respects_on_world; intros; now apply R_emit|intros _].
  destruct (o_ocr o) as [r|message]; [|apply respects_ret].
  destruct (truthy (Ocr.error (Ocr.processImage (o_uuid o) r))); [apply respects_ret|].
  apply respects_bind; [|intros _; apply respects_ret].
  apply respects_on_world; intros; apply R_ocr.
Qed.

Lemma respects_recognize path : respects R (recognize path url o).
Proof.
  unfold recognize. apply respects_bind; [apply respects_get_loop|intros l].
  apply respects_when, respects_try_ignore, respects_ocr.
Qed.

Lemma respects_discover : respects R (discover depth o).
Proof.
  unfold discover. intros [w l]. unfold mbind, M_bind, bind, get_loop. cbn [snd fst].
  destruct (Z.ltb_spec depth (l_maxDepth l)) as [Hlt|Hge]; cbn [when]; [|apply R_refl].
  unfold await_value. cbn [fst snd]. destruct (o_links o) as [links|message].
  - cbn. apply (R_trans _ (emit ExtractLinks w, l)); [now apply R_emit|]. now apply R_links.
  - cbn. now apply R_emit.
Qed.

Lemma respects_persist : respects R (persist url).
Proof.
  unfold persist. apply respects_bind; [apply respects_get_loop|intros l].
  apply respects_on_world; intros; apply R_persist.
Qed.

Lemma respects_advise : respects R (advise url depth o).
Proof.
  unfold advise. intros [w l]. unfold mbind, M_bind, bind, get_loop. cbn [snd fst].
  destruct (is_false (useAI (l_options l))) eqn:Hai; cbn [negb when]; [apply R_refl|].
  unfold await. cbn [fst snd]. destruct (o_title o); [now apply R_emit|].
  cbn [on_world fst snd].
  apply (R_trans _ (emit PageTitle w, l)); [now apply R_emit|].
  apply (R_trans _ (emit (AnalyzePage url depth) (emit PageTitle w), l));
    [now apply R_emit|].
  destruct (o_priorityUrls o) as [[|p ps]|]; try apply R_refl.
  unfold on_loop. cbn [fst snd]. now apply (R_priority _ _ (p :: ps)).
Qed.

Lemma respects_process_url : respects R (process_url url depth o).
Proof.
  unfold process_url.
  apply respects_bind; [apply respects_capture|intros path].
  apply respects_bind; [apply respects_recognize|intros _].
  apply respects_bind; [apply respects_discover|intros _].
  apply respects_bind; [apply respects_persist|intros _].
  apply respects_advise.
Qed.
End Respects.

Lemma world_ok_emit c w : world_ok w -> world_ok (emit c w).
Proof. intros H; exact H. Qed.

Lemma world_ok_updateOne id f w : world_ok w -> world_ok (updateOne id f w).
Proof. intros H; exact H. Qed.

Lemma world_ok_update_data ref f w :
  keeps_visitedUrls f -> world_ok w -> world_ok (update_data ref f w).
Proof.
  intros Hf [Hheap Hrefs]. split; cbn.
  - rewrite Forall_lookup in Hheap |- *. intros i x Hi.
    rewrite list_lookup_alter in Hi. case_decide.
    + subst i. destruct (heap w !! ref) as [y|] eqn:Hy; simplify_eq/=. rewrite Hf. eauto.
    + eauto.
  - intros id r Hr. rewrite length_alter. eauto.
Qed.

Lemma world_ok_updateCrawlStatus id status message now w :
  world_ok w -> world_ok (updateCrawlStatus id status message now w).
Proof.
  intros H. unfold updateCrawlStatus.
  match goal with |- context [updateOne id ?f w] => set (w1 := updateOne id f w) end.
  assert (H1 : world_ok w1) by (now apply world_ok_updateOne).
  destruct (activeCrawls w1 !! id); [|exact H1].
  apply world_ok_update_data; [|exact H1].
  intros crawlData. destruct (truthy message); reflexivity.
Qed.

Lemma world_ok_cleanupCrawl id now w : world_ok w -> world_ok (cleanupCrawl id now w).
Proof.
  intros H. unfold cleanupCrawl.
  destruct (activeCrawls w !! id) as [ref|]; [|exact H].
  destruct (heap w !! ref) as [crawlData|]; [|exact H].
  destruct H as [Hheap Hrefs]. split; cbn; [exact Hheap|].
  intros id' r Hr. apply lookup_delete_Some in Hr as [_ Hr]. eauto.
Qed.

Lemma world_ok_pauseCrawl id now w : world_ok w -> world_ok (snd (pauseCrawl id now w)).
Proof.
  intros H. unfold pauseCrawl.
  destruct (activeCrawls w !! id ≫= _) as [[ref crawlData]|]; [|exact H].
  case_decide; [|exact H]. cbn [snd].
  apply world_ok_updateOne, world_ok_update_data; [|exact H]. intros ?; reflexivity.
Qed.

Lemma world_ok_stopCrawl id now w : world_ok w -> world_ok (snd (stopCrawl id now w)).
Proof.
  intros H. unfold stopCrawl. destruct (activeCrawls w !! id) as [ref|]; [|exact H].
  cbn [snd]. apply world_ok_cleanupCrawl, world_ok_updateOne, world_ok_update_data; [|exact H].
  intros ?; reflexivity.
Qed.

Lemma world_ok_processCrawl id url depth options now w :
  world_ok w -> world_ok (fst (processCrawl id url depth options now w)).
Proof.
  intros H. unfold processCrawl. destruct (activeCrawls w !! id) as [ref|]; cbn [fst].
  - apply world_ok_update_data; [intros ?; reflexivity|]. now apply world_ok_emit.
  - now apply world_ok_updateCrawlStatus.
Qed.

Lemma world_ok_resumeCrawl id now w :
  world_ok w -> world_ok (snd (fst (resumeCrawl id now w))).
Proof.
  intros H. unfold resumeCrawl.
  destruct (activeCrawls w !! id ≫= _) as [[ref crawlData]|]; [|exact H].
  case_decide; [|exact H].
  match goal with |- context [processCrawl ?a ?b ?c ?d ?e ?w1] =>
    pose proof (world_ok_processCrawl a b c d e w1) as Hp;
    destruct (processCrawl a b c d e w1) as [w2 l2] end.
  cbn [fst snd] in *. apply Hp.
  apply world_ok_updateOne, world_ok_update_data; [|exact H]. intros ?; reflexivity.
Qed.

Lemma world_ok_startCrawl id url depth options now w :
  world_ok w -> world_ok (fst (startCrawl id url depth options now w)).
Proof.
  intros [Hheap Hrefs]. unfold startCrawl.
  destruct (save_rejects id url depth w); [now split|].
  unfold launch. apply world_ok_processCrawl. split; cbn.
  - apply Forall_app. split; [exact Hheap|]. now repeat constructor.
  - intros id' r Hr. rewrite length_app. cbn.
    apply lookup_insert_Some in Hr as [[_ <-]|[_ Hr]]; [lia|].
    apply Hrefs in Hr. lia.
Qed.

Lemma world_ok_process_url url depth o s :
  world_ok (fst s) -> world_ok (fst (snd (process_url url depth o s))).
Proof.
  revert s.
  apply (respects_process_url (fun s s' => world_ok (fst s) -> world_ok (fst s'))).
  - auto.
  - auto.
  - intros c w l _. apply world_ok_emit.
  - intros w l ref path. apply world_ok_update_data. intros ?; reflexivity.
  - intros w l id rec. apply world_ok_updateOne.
  - auto.
  - intros w l id. apply world_ok_updateOne.
  - auto.
Qed.

Lemma world_ok_leave_loop now s : world_ok (fst s) -> world_ok (fst (leave_loop now s)).
Proof.
  destruct s as [w l]. cbn. intros H.
  now apply world_ok_cleanupCrawl, world_ok_updateCrawlStatus.
Qed.

Lemma world_ok_record_error url message now s :
  world_ok (fst s) -> world_ok (fst (record_error url message now s)).
Proof.
  destruct s as [w l]. cbn [record_error fst]. intros H.
  apply world_ok_updateOne, world_ok_update_data; [|exact H]. intros ?; reflexivity.
Qed.

Lemma world_ok_tick o s : world_ok (fst s) -> world_ok (fst (tick o s)).
Proof.
  destruct s as [w l]. intros H. unfold tick.
  destruct (l_pc l); [|exact H].
  case_decide; [|now apply world_ok_leave_loop].
  destruct (dequeue _ _ _) as [[[url depth] rest]|]; [|now apply world_ok_leave_loop].
  match goal with |- context [process_url url depth o ?s1] =>
    pose proof (world_ok_process_url url depth o s1 H) as Hp;
    destruct (process_url url depth o s1) as [[[]|message] s2] end.
  - exact Hp.
  - cbn [settle]. now apply world_ok_record_error.
Qed.

Lemma world_ok_step s e : world_ok (world s) -> world_ok (world (step s e)).
Proof.
  intros H. destruct e as [id url depth options now|id now|id now|id now|i o]; cbn [step].
  - pose proof (world_ok_startCrawl id url depth options now _ H) as Hs.
    destruct (startCrawl id url depth options now (world s)). exact Hs.
  - now apply world_ok_pauseCrawl.
  - pose proof (world_ok_resumeCrawl id now _ H) as Hr.
    destruct (resumeCrawl id now (world s)) as [[b w] l]. exact Hr.
  - now apply world_ok_stopCrawl.
  - destruct (loops s !! i) as [l|]; [|exact H].
    pose proof (world_ok_tick o (world s, l) H) as Ht.
    destruct (tick o (world s, l)). exact Ht.
Qed.

Lemma world_ok_run es : forall s, world_ok (world s) -> world_ok (world (run s es)).
Proof.
  induction es as [|e es IH]; intros s H; [exact H|].
  cbn. apply IH. now apply world_ok_step.
Qed.

Lemma world_ok_initial : world_ok (world initial).
Proof. split; [constructor|]. intros id ref H. cbn in H. now rewrite lookup_empty in H. Qed.

(** A start page with three links, maximum depth 1: four pages are
    processed, then the job is completed and its resources are closed. *)
Example three_links_crawl :
  (j_status <$> db (world (run initial three_links)) !! "job"%string) = Some completed
  /\ (j_pagesProcessed <$> db (world (run initial three_links)) !! "job"%string) = Some 4
  /\ (j_visitedUrls <$> db (world (run initial three_links)) !! "job"%string)
     = Some ["http://a"; "http://a/1"; "http://a/2"; "http://a/3"]%string
  /\ crawled (trace (world (run initial three_links)))
     = ["http://a"; "http://a/1"; "http://a/2"; "http://a/3"]%string
  /\ activeCrawls (world (run initial three_links)) !! "job"%string = None
  /\ (l_pc <$> loops (run initial three_links) !! 0%nat) = Some Returned.
Proof. repeat split; vm_compute; reflexivity. Qed.

(** The example job right after its start. *)
Lemma started_loop options : loops (started options) = [start_loop options].
Proof. reflexivity. Qed.

Lemma started_heap options : heap (world (started options)) !! 0%nat = Some (start_data options).
Proof. reflexivity. Qed.

Lemma started_active options :
  activeCrawls (world (started options)) !! "job"%string = Some 0%nat.
Proof. reflexivity. Qed.

(** C10. For every job that is in the active in-memory job map, in every
    state the service can reach, the status query reports
    [pagesProcessed = 0]: the job object is created without a [visitedUrls]
    property and nothing ever sets it; the loop counts its visited urls in
    a local variable. *)
Theorem C10_active_job_reports_zero_pages (es : list Event) (crawlId : string) (now : Z) :
  is_Some (activeCrawls (world (run initial es)) !! crawlId) ->
  exists report,
    getCrawlStatus crawlId now (world (run initial es)) = Some report
    /\ s_isActive report = true
    /\ s_pagesProcessed report = 0.
Proof.
  intros [ref Href].
  destruct (world_ok_run es initial world_ok_initial) as [Hheap Hrefs].
  destruct (lookup_lt_is_Some_2 _ _ (Hrefs _ _ Href)) as [crawlData Hdata].
  unfold getCrawlStatus. rewrite Href. cbn [mbind option_bind]. rewrite Hdata.
  eexists. split; [reflexivity|]. split; [reflexivity|]. cbn.
  rewrite Forall_lookup in Hheap. now rewrite (Hheap _ _ Hdata).
Qed.

Lemma C10_active_job_reports_zero_pages_witness :
  (j_pagesProcessed <$> db (world (run initial one_page_crawled)) !! "job"%string) = Some 1
  /\ exists report,
       getCrawlStatus "job"%string 20 (world (run initial one_page_crawled)) = Some report
       /\ s_isActive report = true
       /\ s_pagesProcessed report = 0.
Proof.
  split; [vm_compute; reflexivity|].
  apply (C10_active_job_reports_zero_pages one_page_crawled "job"%string 20).
  vm_compute. eexists; reflexivity.
Defined.

(** ** Loop invariant *)

Lemma set_l_urlQueue_same l : l = set_l_urlQueue (l_urlQueue l) l.
Proof. now destruct l. Qed.

Lemma queue_step_refl depth s : queue_step depth s s.
Proof. split; [apply set_l_urlQueue_same|]. intros e He. now left. Qed.

Lemma queue_step_trans depth s1 s2 s3 :
  queue_step depth s1 s2 -> queue_step depth s2 s3 -> queue_step depth s1 s3.
Proof.
  intros [H12 Q12] [H23 Q23]. split.
  - rewrite H23, H12. reflexivity.
  - intros e He. destruct (Q23 e He) as [Hin|[Hd Hwhy]].
    + auto.
    + right. split; [exact Hd|]. rewrite H12 in Hwhy. exact Hwhy.
Qed.

Lemma queue_step_world depth w w' l : queue_step depth (w, l) (w', l).
Proof. split; [apply set_l_urlQueue_same|]. intros e He. now left. Qed.

Lemma push_links_app depth links : forall queue,
  push_links depth links queue = queue ++ map (fun link => (link, depth + 1)) links.
Proof.
  unfold push_links. induction links as [|link links IH]; intros queue; cbn.
  - now rewrite app_nil_r.
  - rewrite IH, <- app_assoc. reflexivity.
Qed.

Lemma unshift_priority_elem visited depth ps : forall queue e,
  e ∈ unshift_priority visited depth ps queue ->
  e ∈ queue \/ (e.2 = depth + 1 /\ e.1 ∈ ps /\ e.1 ∉ visited).
Proof.
  unfold unshift_priority. induction ps as [|p ps IH]; intros queue e He; cbn in He.
  - now left.
  - apply IH in He as [He|(Hd & Hp & Hv)].
    + case_decide; [now left|]. apply elem_of_cons in He as [->|He]; [|now left].
      right. cbn. split; [reflexivity|]. split; [apply elem_of_cons; now left|assumption].
    + right. split; [exact Hd|]. split; [apply elem_of_cons; now right|exact Hv].
Qed.

Lemma unshift_priority_keeps visited depth ps : forall queue e,
  e ∈ queue -> e ∈ unshift_priority visited depth ps queue.
Proof.
  unfold unshift_priority. induction ps as [|p ps IH]; intros queue e He; cbn; [exact He|].
  apply IH. case_decide; [exact He|]. apply elem_of_cons. now right.
Qed.

Lemma queue_step_process_url url depth o s :
  queue_step depth s (snd (process_url url depth o s)).
Proof.
  revert s. apply (respects_process_url (queue_step depth)).
  - apply queue_step_refl.
  - apply queue_step_trans.
  - intros; apply queue_step_world.
  - intros; apply queue_step_world.
  - intros; apply queue_step_world.
  - intros w l links Hlt. split; [reflexivity|]. cbn. intros e He.
    rewrite push_links_app in He. apply elem_of_app in He as [He|He]; [now left|].
    right. apply list_elem_of_fmap in He as (link & -> & _). cbn. auto.
  - intros; apply queue_step_world.
  - intros w l ps Hai. split; [reflexivity|]. cbn. intros e He.
    apply unshift_priority_elem in He as [He|(Hd & _)]; [now left|]. right. auto.
Qed.

Lemma dequeue_spec visited maxDepth : forall queue url depth rest,
  dequeue visited maxDepth queue = Some (url, depth, rest) ->
  (url ∉ visited) /\ depth <= maxDepth /\ (url, depth) ∈ queue
  /\ (forall e, e ∈ rest -> e ∈ queue).
Proof.
  induction queue as [|[u d] queue IH]; intros url depth rest H; cbn in H; [discriminate|].
  assert (Hrec : dequeue visited maxDepth queue = Some (url, depth, rest) ->
                 (url ∉ visited) /\ depth <= maxDepth /\ (url, depth) ∈ (u, d) :: queue
                 /\ (forall e, e ∈ rest -> e ∈ (u, d) :: queue)).
  { intros H'. destruct (IH _ _ _ H') as (Hv & Hd & Hin & Hrest).
    repeat split; try assumption; [apply elem_of_cons; now right|].
    intros e He. apply elem_of_cons. right. auto. }
  case_decide; [now apply Hrec|].
  destruct (Z.gtb_spec d maxDepth) as [Hgt|Hle]; [now apply Hrec|].
  injection H as <- <- <-. repeat split; try assumption.
  - apply elem_of_cons. now left.
  - intros e He. apply elem_of_cons. now right.
Qed.

Lemma loop_ok_set_pc pc l : loop_ok l -> loop_ok (set_l_pc pc l).
Proof. intros H; exact H. Qed.

Lemma loop_ok_empty_queue l : loop_ok l -> loop_ok (set_l_urlQueue [] l).
Proof.
  intros (_ & _ & Hy & Hnd & Hv). repeat split; try assumption; cbn.
  - intros _ e He. now apply elem_of_nil in He.
  - intros _ _ e He. now apply elem_of_nil in He.
  - apply Hv.
  - apply Hv.
Qed.

Lemma loop_ok_tick o w l : loop_ok l -> loop_ok (snd (tick o (w, l))).
Proof.
  intros Hok. unfold tick. destruct (l_pc l); [|exact Hok].
  case_decide; [|cbn; now apply loop_ok_set_pc].
  destruct (dequeue _ _ _) as [[[url depth] rest]|] eqn:Hdq.
  2:{ cbn. now apply loop_ok_set_pc, loop_ok_empty_queue. }
  apply dequeue_spec in Hdq as (Hfresh & Hdepth & Hin & Hrest).
  match goal with |- context [process_url url depth o ?s1] =>
    pose proof (queue_step_process_url url depth o s1) as [Hsame Hqueue];
    destruct (process_url url depth o s1) as [r [w2 l2]] end.
  cbn in Hsame, Hqueue.
  assert (Hl2 : loop_ok l2).
  { destruct Hok as (Hq1 & Hq2 & Hy & Hnd & Hv). rewrite Hsame. cbn.
    split; [|split; [|split; [|split]]]; cbn.
    - intros Hpos e He. destruct (Hqueue e He) as [He'|[-> _]]; [|lia].
      apply Hq1; auto.
    - intros Hpos Hai e He. destruct (Hqueue e He) as [He'|[-> [Hlt|Hai']]].
      + apply Hq2; auto.
      + lia.
      + congruence.
    - intros e He. apply elem_of_app in He as [He|He]; [now apply Hy|].
      apply list_elem_of_singleton in He as ->. exact Hdepth.
    - rewrite fmap_app. apply NoDup_app. split; [exact Hnd|]. split.
      + intros u Hu Hu'. cbn in Hu'. apply list_elem_of_singleton in Hu' as ->.
        apply Hfresh. now apply Hv.
      + cbn. apply NoDup_singleton.
    - intros u. rewrite fmap_app, elem_of_app, elem_of_union, elem_of_singleton. cbn.
      rewrite list_elem_of_singleton, Hv. tauto. }
  destruct r as [[]|message]; [exact Hl2|exact Hl2].
Qed.

Lemma loop_ok_fresh id ref startUrl maxDepth options page :
  loop_ok {| l_crawlId := id; l_crawlData := ref; l_startUrl := startUrl;
             l_maxDepth := maxDepth; l_options := options; l_page := page;
             l_visitedUrls := ∅; l_urlQueue := [(startUrl, 0)];
             l_pc := AtLoopHead; l_yielded := [] |}.
Proof.
  repeat split; cbn.
  - intros Hpos e He. apply list_elem_of_singleton in He as ->. cbn. lia.
  - intros Hpos _ e He. apply list_elem_of_singleton in He as ->. cbn. lia.
  - intros e He. now apply elem_of_nil in He.
  - apply NoDup_nil_2.
  - intros Hu. now apply elem_of_empty in Hu.
  - intros Hu. now apply elem_of_nil in Hu.
Qed.

Lemma loops_ok_add l ls :
  (forall l', l = Some l' -> loop_ok l') -> Forall loop_ok ls -> Forall loop_ok (add_loop l ls).
Proof.
  intros Hl Hls. destruct l as [l'|]; [|exact Hls].
  apply Forall_app. split; [exact Hls|]. constructor; [now apply Hl|constructor].
Qed.

Lemma loop_ok_processCrawl id url depth options now w l :
  snd (processCrawl id url depth options now w) = Some l -> loop_ok l.
Proof.
  unfold processCrawl. destruct (activeCrawls w !! id) as [ref|]; cbn; [|discriminate].
  intros [= <-]. apply loop_ok_fresh.
Qed.

Lemma loops_ok_step s e : Forall loop_ok (loops s) -> Forall loop_ok (loops (step s e)).
Proof.
  intros H. destruct e as [id url depth options now|id now|id now|id now|i o]; cbn [step].
  - unfold startCrawl. destruct (save_rejects id url depth (world s)); [exact H|].
    unfold launch.
    match goal with |- context [processCrawl ?a ?b ?c ?d ?e ?w1] =>
      pose proof (loop_ok_processCrawl a b c d e w1) as Hp;
      destruct (processCrawl a b c d e w1) as [w2 l2] end.
    cbn. apply loops_ok_add; [exact Hp|exact H].
  - exact H.
  - unfold resumeCrawl.
    destruct (activeCrawls (world s) !! id ≫= _) as [[ref crawlData]|]; [|exact H].
    case_decide; [|exact H].
    match goal with |- context [processCrawl ?a ?b ?c ?d ?e ?w1] =>
      pose proof (loop_ok_processCrawl a b c d e w1) as Hp;
      destruct (processCrawl a b c d e w1) as [w2 l2] end.
    cbn. apply loops_ok_add; [exact Hp|exact H].
  - exact H.
  - destruct (loops s !! i) as [l|] eqn:Hl; [|exact H].
    pose proof (loop_ok_tick o (world s) l) as Ht.
    destruct (tick o (world s, l)) as [w' l']. cbn in *.
    apply Forall_insert; [exact H|]. apply Ht.
    rewrite Forall_lookup in H. eauto.
Qed.

Lemma loops_ok_run es : forall s, Forall loop_ok (loops s) -> Forall loop_ok (loops (run s es)).
Proof.
  induction es as [|e es IH]; intros s H; [exact H|].
  cbn. apply IH. now apply loops_ok_step.
Qed.

Lemma loops_ok_reachable es i l : loops (run initial es) !! i = Some l -> loop_ok l.
Proof.
  intros Hl. pose proof (loops_ok_run es initial (Forall_nil_2 _)) as H.
  rewrite Forall_lookup in H. eauto.
Qed.

(** ** Navigation failure *)

Lemma capture_goto_throws url depth o w l message :
  o_goto o = Some message ->
  capture url depth o (w, l)
  = (Throw message, (emit (Goto url) (emit (LogCrawling url depth (l_maxDepth l)) w), l)).
Proof.
  intros H. unfold capture, mbind, M_bind, bind, get_loop, on_world, await. cbn.
  rewrite H. reflexivity.
Qed.

Lemma process_url_goto_throws url depth o w l message :
  o_goto o = Some message ->
  process_url url depth o (w, l)
  = (Throw message, (emit (Goto url) (emit (LogCrawling url depth (l_maxDepth l)) w), l)).
Proof.
  intros H. unfold process_url, mbind, M_bind, bind.
  now rewrite (capture_goto_throws _ _ _ _ _ _ H).
Qed.

(** C9. For every url whose navigation fails, that url alone is abandoned:
    an error entry with the url, the message and the time is recorded (in
    the job object and in the stored job), the error count of the status
    query goes up by one, nothing is asked of the page after the failed
    [goto] (no screenshot, no recognition), and the loop is back at its
    test with the rest of the queue and the same lifecycle status. *)
Theorem C9_navigation_failure_abandons_url
    (o : Outcome) (w : World) (l : Loop) (crawlData : CrawlData)
    (url : string) (depth : Z) (rest : list (string * Z)) (message : string) :
  l_pc l = AtLoopHead ->
  activeCrawls w !! l_crawlId l = Some (l_crawlData l) ->
  heap w !! l_crawlData l = Some crawlData ->
  cd_status crawlData = running ->
  dequeue (l_visitedUrls l) (l_maxDepth l) (l_urlQueue l) = Some (url, depth, rest) ->
  o_goto o = Some message ->
  let w' := fst (tick o (w, l)) in
  let l' := snd (tick o (w, l)) in
  (* the error entry, in memory and in the store *)
  (exists crawlData',
     heap w' !! l_crawlData l = Some crawlData'
     /\ cd_errors crawlData' = cd_errors crawlData ++ [UrlError url message (o_now o)]
     /\ cd_status crawlData' = running
     /\ cd_capturedScreenshots crawlData' = cd_capturedScreenshots crawlData)
  /\ (forall j, db w !! l_crawlId l = Some j ->
        exists j',
          db w' !! l_crawlId l = Some j'
          /\ j_errors j' = j_errors j ++
               [{| e_url := url; e_message := message; e_timestamp := o_now o |}]
          /\ j_status j' = j_status j
          /\ j_ocrResults j' = j_ocrResults j
          /\ j_pagesProcessed j' = j_pagesProcessed j)
  (* the error count of the status query goes up by one, the status stays *)
  /\ (forall now, exists r r',
        getCrawlStatus (l_crawlId l) now w = Some r
        /\ getCrawlStatus (l_crawlId l) now w' = Some r'
        /\ s_errorCount r' = s_errorCount r + 1
        /\ s_status r' = s_status r
        /\ s_screenshotCount r' = s_screenshotCount r)
  (* nothing is asked of the page after the navigation *)
  /\ trace w' = trace w ++ [LogCrawling url depth (l_maxDepth l); Goto url]
  (* the loop goes on with the rest of the queue *)
  /\ l_pc l' = AtLoopHead
  /\ l_urlQueue l' = rest
  /\ url ∈ l_visitedUrls l'
  /\ activeCrawls w' = activeCrawls w.
Proof.
  intros Hpc Hactive Hheap Hrun Hdq Hgoto w' l'.
  assert (Hstatus : status_of w (l_crawlData l) = Some running).
  { unfold status_of. rewrite Hheap. cbn. now rewrite Hrun. }
  assert (Htick : tick o (w, l)
    = record_error url message (o_now o)
        (emit (Goto url) (emit (LogCrawling url depth (l_maxDepth l)) w),
         enter url depth rest l)).
  { unfold tick. rewrite Hpc. rewrite decide_True by exact Hstatus. rewrite Hdq.
    now rewrite (process_url_goto_throws _ _ _ _ _ _ Hgoto). }
  subst w' l'. rewrite Htick. cbn [record_error fst snd]. cbn.
  assert (Hheap' : alter (fun crawlData0 =>
             set_cd_errors (cd_errors crawlData0 ++ [UrlError url message (o_now o)])
               crawlData0) (l_crawlData l) (heap w) !! l_crawlData l
           = Some (set_cd_errors (cd_errors crawlData ++ [UrlError url message (o_now o)])
                     crawlData)).
  { rewrite list_lookup_alter, decide_True by reflexivity. now rewrite Hheap. }
  split; [|split; [|split; [|split; [|split; [|split; [|split]]]]]].
  - eexists. split; [exact Hheap'|]. cbn. now rewrite Hrun.
  - intros j Hj. eexists. split; [rewrite lookup_alter_eq, Hj; reflexivity|]. now cbn.
  - intros now. unfold getCrawlStatus. cbn. rewrite Hactive. cbn.
    rewrite Hheap, Hheap'. do 2 eexists. split; [reflexivity|]. split; [reflexivity|].
    cbn. rewrite length_app. cbn. repeat split. lia.
  - now rewrite <- app_assoc.
  - exact Hpc.
  - reflexivity.
  - apply elem_of_union. left. now apply elem_of_singleton.
  - reflexivity.
Qed.

Lemma C9_navigation_failure_abandons_url_witness :
  trace (fst (tick goto_fails (world (started no_ocr), start_loop no_ocr)))
  = trace (world (started no_ocr))
      ++ [LogCrawling "http://a"%string 0 1; Goto "http://a"%string].
Proof.
  apply (C9_navigation_failure_abandons_url goto_fails (world (started no_ocr))
           (start_loop no_ocr) (start_data no_ocr) "http://a"%string 0 []
           "net::ERR_NAME_NOT_RESOLVED"%string); reflexivity.
Defined.

(** ** Recognition failure *)

Lemma keeps_lifecycle_refl s : keeps_lifecycle s s.
Proof. repeat split; auto. exists []. now rewrite app_nil_r. Qed.

Lemma keeps_lifecycle_trans s1 s2 s3 :
  keeps_lifecycle s1 s2 -> keeps_lifecycle s2 s3 -> keeps_lifecycle s1 s3.
Proof.
  intros (Hs & Hj & Ha & [c Ht] & Hq & Hp) (Hs' & Hj' & Ha' & [c' Ht'] & Hq' & Hp').
  split; [|split; [|split; [|split; [|split]]]].
  - intros ref. now rewrite Hs', Hs.
  - intros id. now rewrite Hj', Hj.
  - now rewrite Ha', Ha.
  - exists (c ++ c'). now rewrite Ht', Ht, app_assoc.
  - auto.
  - now rewrite Hp', Hp.
Qed.

Lemma keeps_lifecycle_emit c w l : keeps_lifecycle (w, l) (emit c w, l).
Proof. repeat split; auto. now exists [c]. Qed.

Lemma keeps_lifecycle_update_data ref f w l :
  (forall crawlData, cd_status (f crawlData) = cd_status crawlData) ->
  keeps_lifecycle (w, l) (update_data ref f w, l).
Proof.
  intros Hf. split; [|split; [|split; [|split; [|split]]]]; cbn; auto.
  - intros r. unfold status_of. cbn. rewrite list_lookup_alter. case_decide; [|reflexivity].
    subst r. destruct (heap w !! ref); cbn; [|reflexivity]. now rewrite Hf.
  - exists []. now rewrite app_nil_r.
Qed.

Lemma keeps_lifecycle_updateOne id f w l :
  (forall j, j_status (f j) = j_status j) ->
  keeps_lifecycle (w, l) (updateOne id f w, l).
Proof.
  intros Hf. split; [|split; [|split; [|split; [|split]]]]; cbn; auto.
  - intros id'. rewrite lookup_alter. case_decide; [|reflexivity].
    subst id'. destruct (db w !! id); cbn; [|reflexivity]. now rewrite Hf.
  - exists []. now rewrite app_nil_r.
Qed.

Lemma keeps_lifecycle_queue w l queue :
  (forall e, e ∈ l_urlQueue l -> e ∈ queue) ->
  keeps_lifecycle (w, l) (w, set_l_urlQueue queue l).
Proof.
  intros Hq. split; [|split; [|split; [|split; [|split]]]]; cbn; auto.
  exists []. now rewrite app_nil_r.
Qed.

Section KeepsLifecycle.
Variables (url : string) (depth : Z) (o : Outcome).

Lemma keeps_shot w l ref path :
  keeps_lifecycle (w, l)
    (update_data ref (fun crawlData =>
       set_cd_capturedScreenshots
         (cd_capturedScreenshots crawlData ++ [path]) crawlData) w, l).
Proof. apply keeps_lifecycle_update_data. reflexivity. Qed.

Lemma keeps_ocr w l id rec :
  keeps_lifecycle (w, l)
    (updateOne id (fun j => set_j_ocrResults (j_ocrResults j ++ [rec]) j) w, l).
Proof. apply keeps_lifecycle_updateOne. reflexivity. Qed.

Lemma keeps_links w l links :
  depth < l_maxDepth l ->
  keeps_lifecycle (w, l)
    (w, set_l_urlQueue (push_links depth links (l_urlQueue l)) l).
Proof.
  intros _. apply keeps_lifecycle_queue. intros e He.
  rewrite push_links_app. apply elem_of_app. now left.
Qed.

Lemma keeps_persist w l id :
  keeps_lifecycle (w, l)
    (updateOne id (fun j =>
       set_j_pagesProcessed (j_pagesProcessed j + 1)
         (set_j_visitedUrls (j_visitedUrls j ++ [url]) j)) w, l).
Proof. apply keeps_lifecycle_updateOne. reflexivity. Qed.

Lemma keeps_priority w l ps :
  is_false (useAI (l_options l)) = false ->
  keeps_lifecycle (w, l)
    (w, set_l_urlQueue
          (unshift_priority (l_visitedUrls l) depth ps (l_urlQueue l)) l).
Proof. intros _. apply keeps_lifecycle_queue. apply unshift_priority_keeps. Qed.

Lemma keeps_lifecycle_capture s : keeps_lifecycle s (snd (capture url depth o s)).
Proof.
  revert s. apply (respects_capture keeps_lifecycle keeps_lifecycle_refl
                     keeps_lifecycle_trans url depth o (fun c w l _ => keeps_lifecycle_emit c w l)
                     keeps_shot).
Qed.

Lemma keeps_lifecycle_persist s : keeps_lifecycle s (snd (persist url s)).
Proof.
  revert s. apply (respects_persist keeps_lifecycle keeps_lifecycle_refl
                     keeps_lifecycle_trans url keeps_persist).
Qed.

Lemma keeps_lifecycle_advise s : keeps_lifecycle s (snd (advise url depth o s)).
Proof.
  revert s. apply (respects_advise keeps_lifecycle keeps_lifecycle_refl
                     keeps_lifecycle_trans url depth o (fun c w l _ => keeps_lifecycle_emit c w l)
                     keeps_priority).
Qed.

Lemma keeps_lifecycle_process_url s : keeps_lifecycle s (snd (process_url url depth o s)).
Proof.
  revert s. apply (respects_process_url keeps_lifecycle keeps_lifecycle_refl
                     keeps_lifecycle_trans url depth o
                     (fun c w l _ => keeps_lifecycle_emit c w l) keeps_shot keeps_ocr keeps_links
                     keeps_persist keeps_priority).
Qed.
End KeepsLifecycle.

Lemma keeps_lifecycle_record_error url message now s :
  keeps_lifecycle s (record_error url message now s).
Proof.
  destruct s as [w l]. unfold record_error.
  apply (keeps_lifecycle_trans _
           (update_data (l_crawlData l) (fun crawlData =>
              set_cd_errors (cd_errors crawlData ++ [UrlError url message now]) crawlData)
              w, l)).
  - apply keeps_lifecycle_update_data. reflexivity.
  - apply keeps_lifecycle_updateOne. reflexivity.
Qed.

Lemma capture_returns url depth o w l :
  o_goto o = None -> o_loadState o = None ->
  (is_false (handleInfiniteScroll (l_options l)) = true \/ o_scroll o = None) ->
  o_screenshot o = None ->
  exists w1, capture url depth o (w, l) = (Ok (shot_path w l o), (w1, l)).
Proof.
  intros Hgoto Hload Hscroll Hshot.
  unfold capture, mbind, M_bind, bind, get_loop, get_world, on_world, await, when, ret.
  cbn. rewrite Hgoto, Hload.
  destruct Hscroll as [Hoff|Hscroll].
  - rewrite Hoff. cbn. rewrite Hshot. eexists. reflexivity.
  - rewrite Hscroll. destruct (is_false _); cbn; rewrite Hshot; eexists; reflexivity.
Qed.

(** What [processScreenshotWithOCR] returns and does when the recognition
    fails: the fallback object when the call throws, [null] when
    [processImage] reports an error message, and, when that message is the
    empty string, the result of [processImage], which is then also stored
    with the job. *)
Lemma processScreenshotWithOCR_failure id path url o message s :
  (o_ocr o = OcrRuns (Ocr.RecognitionFailed message) \/ o_ocr o = OcrThrows message) ->
  processScreenshotWithOCR id path url o s
  = match o_ocr o, message with
    | OcrThrows _, _ =>
        (Ok (Some {| Ocr.analysisId := o_fallback_uuid o; Ocr.text := [];
                     Ocr.confidence := 0%R; Ocr.processed := false;
                     Ocr.error := Some message |}),
         (emit (ProcessImage path url) (fst s), snd s))
    | OcrRuns _, EmptyString =>
        (Ok (Some {| Ocr.analysisId := o_uuid o; Ocr.text := [];
                     Ocr.confidence := 0%R; Ocr.processed := false;
                     Ocr.error := Some EmptyString |}),
         (updateOne id (fun j =>
            set_j_ocrResults
              (j_ocrResults j ++
                 [{| r_screenshotPath := path; r_ocrResultId := o_uuid o;
                     r_confidence := 0%R; r_timestamp := o_now o |}]) j)
            (emit (ProcessImage path url) (fst s)),
          snd s))
    | OcrRuns _, String _ _ =>
        (Ok None, (emit (ProcessImage path url) (fst s), snd s))
    end.
Proof.
  intros Hocr. unfold processScreenshotWithOCR, mbind, M_bind, bind, on_world. cbn.
  destruct Hocr as [->| ->]; [|reflexivity]. destruct message; reflexivity.
Qed.

Lemma recognize_failure path url o w l message :
  is_false (performOcr (l_options l)) = false ->
  is_true (skipOcr (l_options l)) = false ->
  (o_ocr o = OcrRuns (Ocr.RecognitionFailed message) \/ o_ocr o = OcrThrows message) ->
  exists w2,
    recognize path url o (w, l) = (Ok tt, (w2, l))
    /\ trace w2 = trace w ++ [ProcessImage path url]
    /\ keeps_lifecycle (w, l) (w2, l).
Proof.
  intros Hperform Hskip Hocr.
  unfold recognize, mbind, M_bind, bind, get_loop, when, try_ignore. cbn.
  rewrite Hperform, Hskip. cbn.
  rewrite (processScreenshotWithOCR_failure _ _ _ _ message _ Hocr). cbn [fst snd].
  destruct (o_ocr o) as [r|m]; [destruct message|]; cbn [snd];
    eexists; (split; [reflexivity|]); (split; [reflexivity|]);
    try apply keeps_lifecycle_emit.
  eapply keeps_lifecycle_trans; [apply keeps_lifecycle_emit|].
  apply keeps_lifecycle_updateOne. reflexivity.
Qed.

Lemma discover_below_max depth o w l :
  depth < l_maxDepth l ->
  discover depth o (w, l)
  = match o_links o with
    | Ok links =>
        (Ok tt, (emit ExtractLinks w,
                 set_l_urlQueue (push_links depth links (l_urlQueue l)) l))
    | Throw message => (Throw message, (emit ExtractLinks w, l))
    end.
Proof.
  intros Hlt. unfold discover, mbind, M_bind, bind, get_loop. cbn.
  replace (depth <? l_maxDepth l) with true by (symmetry; now apply Z.ltb_lt).
  cbn. unfold await_value. cbn. now destruct (o_links o).
Qed.

Lemma keeps_lifecycle_settle url now s r :
  keeps_lifecycle s (snd r) -> keeps_lifecycle s (settle url now r).
Proof.
  destruct r as [[[]|message] s']; cbn; [auto|]. intros H.
  eapply keeps_lifecycle_trans; [exact H|apply keeps_lifecycle_record_error].
Qed.

Lemma keeps_lifecycle_after_discover url depth o s :
  keeps_lifecycle s (snd (after_discover url depth o s)).
Proof.
  unfold after_discover, mbind, M_bind, bind.
  pose proof (keeps_lifecycle_persist url s) as Hp.
  destruct (persist url s) as [[[]|m] s']; cbn [snd] in *; [|exact Hp].
  eapply keeps_lifecycle_trans; [exact Hp|apply keeps_lifecycle_advise].
Qed.

(** C8. For every url whose recognition stage fails (the recognition
    pipeline throws inside [processImage], or the call itself throws), an
    empty-text, zero-confidence result that carries the error message is
    substituted: by [processImage] (analysis id of the call, text empty,
    confidence 0, not processed, the message) when its pipeline throws, by
    [processScreenshotWithOCR] (a new id and the same fields) when the call
    throws.  [processScreenshotWithOCR] returns the second, returns [null]
    for the first when the message is not empty, and for an empty message
    returns the first and stores it with the job, confidence 0; the crawl
    loop ignores what is returned.  No status changes, in memory or in the
    store, and when [depth < maxDepth] the link extraction is the next call
    after the recognition and its links are in the queue afterwards. *)
Theorem C8_recognition_failure_is_isolated
    (o : Outcome) (w : World) (l : Loop) (url : string) (depth : Z)
    (rest : list (string * Z)) (message : string) :
  l_pc l = AtLoopHead ->
  status_of w (l_crawlData l) = Some running ->
  dequeue (l_visitedUrls l) (l_maxDepth l) (l_urlQueue l) = Some (url, depth, rest) ->
  o_goto o = None -> o_loadState o = None ->
  (is_false (handleInfiniteScroll (l_options l)) = true \/ o_scroll o = None) ->
  o_screenshot o = None ->
  is_false (performOcr (l_options l)) = false ->
  is_true (skipOcr (l_options l)) = false ->
  (o_ocr o = OcrRuns (Ocr.RecognitionFailed message) \/ o_ocr o = OcrThrows message) ->
  let w' := fst (tick o (w, l)) in
  let l' := snd (tick o (w, l)) in
  let path := shot_path w l o in
  (* the substituted result *)
  Ocr.processImage (o_uuid o) (Ocr.RecognitionFailed message)
    = {| Ocr.analysisId := o_uuid o; Ocr.text := []; Ocr.confidence := 0%R;
         Ocr.processed := false; Ocr.error := Some message |}
  /\ (forall s,
        processScreenshotWithOCR (l_crawlId l) path url o s
        = match o_ocr o, message with
          | OcrThrows _, _ =>
              (Ok (Some {| Ocr.analysisId := o_fallback_uuid o; Ocr.text := [];
                           Ocr.confidence := 0%R; Ocr.processed := false;
                           Ocr.error := Some message |}),
               (emit (ProcessImage path url) (fst s), snd s))
          | OcrRuns _, EmptyString =>
              (Ok (Some {| Ocr.analysisId := o_uuid o; Ocr.text := [];
                           Ocr.confidence := 0%R; Ocr.processed := false;
                           Ocr.error := Some EmptyString |}),
               (updateOne (l_crawlId l) (fun j =>
                  set_j_ocrResults
                    (j_ocrResults j ++
                       [{| r_screenshotPath := path; r_ocrResultId := o_uuid o;
                           r_confidence := 0%R; r_timestamp := o_now o |}]) j)
                  (emit (ProcessImage path url) (fst s)),
                snd s))
          | OcrRuns _, String _ _ =>
              (Ok None, (emit (ProcessImage path url) (fst s), snd s))
          end)
  (* no status changes *)
  /\ (forall ref, status_of w' ref = status_of w ref)
  /\ (forall id, j_status <$> db w' !! id = j_status <$> db w !! id)
  /\ activeCrawls w' = activeCrawls w
  /\ l_pc l' = AtLoopHead
  (* link extraction follows the failed recognition *)
  /\ (depth < l_maxDepth l ->
      exists before after,
        trace w' = trace w ++ before ++ [ProcessImage path url; ExtractLinks] ++ after)
  /\ (depth < l_maxDepth l ->
      forall links, o_links o = Ok links ->
      forall link, link ∈ links -> (link, depth + 1) ∈ l_urlQueue l').
Proof.
  intros Hpc Hstatus Hdq Hgoto Hload Hscroll Hshot Hperform Hskip Hocr w' l' path.
  set (l1 := enter url depth rest l).
  destruct (capture_returns url depth o w l1 Hgoto Hload Hscroll Hshot) as [w1 Hcap].
  change (shot_path w l1 o) with path in Hcap.
  pose proof (keeps_lifecycle_capture url depth o (w, l1)) as Hk1.
  rewrite Hcap in Hk1. cbn [snd] in Hk1.
  destruct (recognize_failure path url o w1 l1 message Hperform Hskip Hocr)
    as (w2 & Hrec & Htrace2 & Hk12).
  assert (Htick : tick o (w, l)
                  = settle url (o_now o)
                      (match discover depth o (w2, l1) with
                       | (Ok _, s) => after_discover url depth o s
                       | (Throw m, s) => (Throw m, s)
                       end)).
  { unfold tick. rewrite Hpc. rewrite decide_True by exact Hstatus. rewrite Hdq.
    fold l1. f_equal. unfold process_url, mbind, M_bind. unfold bind at 1. rewrite Hcap.
    unfold bind at 1. rewrite Hrec. unfold bind at 1. unfold after_discover, mbind, M_bind.
    destruct (discover depth o (w2, l1)) as [[[]|m] s3]; reflexivity. }
  assert (Hk2 : keeps_lifecycle (w, l1) (w2, l1)).
  { eapply keeps_lifecycle_trans; [exact Hk1|exact Hk12]. }
  (* the state [s3] after the link extraction, and what follows it *)
  assert (Hend : exists s3,
            keeps_lifecycle (w2, l1) s3 /\ keeps_lifecycle s3 (tick o (w, l))
            /\ (depth < l_maxDepth l ->
                trace (fst s3) = trace w2 ++ [ExtractLinks]
                /\ forall links, o_links o = Ok links ->
                   l_urlQueue (snd s3) = push_links depth links rest)).
  { rewrite Htick.
    destruct (Z.lt_ge_cases depth (l_maxDepth l)) as [Hlt|Hge].
    - rewrite (discover_below_max depth o w2 l1 Hlt).
      destruct (o_links o) as [links|m]; eexists; (split; [|split]).
      + eapply keeps_lifecycle_trans; [apply keeps_lifecycle_emit|].
        apply (keeps_links depth (emit ExtractLinks w2) l1 links Hlt).
      + apply keeps_lifecycle_settle, keeps_lifecycle_after_discover.
      + intros _. split; [reflexivity|]. intros links' [= <-]. reflexivity.
      + apply keeps_lifecycle_emit.
      + apply keeps_lifecycle_settle. apply keeps_lifecycle_refl.
      + intros _. split; [reflexivity|]. intros links' [=].
    - exists (w2, l1). split; [apply keeps_lifecycle_refl|]. split; [|lia].
      unfold discover, mbind, M_bind, bind, get_loop. cbn [snd fst].
      replace (depth <? l_maxDepth l1) with false by (symmetry; apply Z.ltb_ge; exact Hge).
      cbn [when ret]. apply keeps_lifecycle_settle, keeps_lifecycle_after_discover. }
  destruct Hend as (s3 & Hk3 & Hk4 & Hlinks).
  pose proof (keeps_lifecycle_trans _ _ _ Hk2 (keeps_lifecycle_trans _ _ _ Hk3 Hk4)) as Hall.
  destruct Hall as (Hs & Hj & Ha & _ & _ & Hp). cbn [fst snd] in Hs, Hj, Ha, Hp.
  split; [reflexivity|]. split.
  { intros s. now apply processScreenshotWithOCR_failure. }
  split; [exact Hs|]. split; [exact Hj|]. split; [exact Ha|].
  split; [subst l'; rewrite Hp; exact Hpc|]. split.
  - intros Hlt. destruct (Hlinks Hlt) as [Htrace _].
    destruct Hk1 as (_ & _ & _ & [before Hbefore] & _).
    destruct Hk4 as (_ & _ & _ & [after Hafter] & _).
    exists before, after. subst w'. rewrite Hafter, Htrace, Htrace2.
    cbn [fst] in Hbefore. rewrite Hbefore. rewrite <- !app_assoc. reflexivity.
  - intros Hlt links Hok link Hlink. destruct (Hlinks Hlt) as [_ Hqueue].
    destruct Hk4 as (_ & _ & _ & _ & Hkeep & _). apply Hkeep.
    rewrite (Hqueue links Hok), push_links_app. apply elem_of_app. right.
    apply list_elem_of_fmap. exists link. split; [reflexivity|exact Hlink].
Qed.

Lemma C8_recognition_failure_is_isolated_witness :
  ("http://a/b"%string, 1) ∈
    l_urlQueue (snd (tick ocr_fails (world (started with_ocr), start_loop with_ocr))).
Proof.
  apply (C8_recognition_failure_is_isolated ocr_fails (world (started with_ocr))
           (start_loop with_ocr) "http://a"%string 0 [] "tesseract failed"%string
           eq_refl eq_refl eq_refl eq_refl eq_refl (or_intror eq_refl) eq_refl eq_refl
           eq_refl (or_introl eq_refl)) with (links := ["http://a/b"%string]).
  - reflexivity.
  - reflexivity.
  - apply list_elem_of_singleton. reflexivity.
Defined.

(** ** Depth bound and visited urls *)

Lemma discover_queue depth o w l e :
  e ∈ l_urlQueue (snd (snd (discover depth o (w, l)))) ->
  e ∈ l_urlQueue l \/ (e.2 = depth + 1 /\ e.2 <= l_maxDepth l).
Proof.
  unfold discover, mbind, M_bind, bind, get_loop. cbn [fst snd].
  destruct (Z.ltb_spec depth (l_maxDepth l)) as [Hlt|Hge]; cbn [when ret snd]; [|now left].
  unfold await_value. cbn [fst snd]. destruct (o_links o) as [links|m]; cbn; [|now left].
  rewrite push_links_app, elem_of_app. intros [He|He]; [now left|right].
  apply list_elem_of_fmap in He as (link & -> & _). cbn. lia.
Qed.

Lemma advise_queue url depth o w l e :
  e ∈ l_urlQueue (snd (snd (advise url depth o (w, l)))) ->
  e ∈ l_urlQueue l \/ e.2 = depth + 1.
Proof.
  unfold advise, mbind, M_bind, bind, get_loop. cbn [fst snd].
  destruct (is_false (useAI (l_options l))); cbn [negb when ret snd]; [now left|].
  unfold await. cbn [fst snd]. destruct (o_title o); cbn; [now left|].
  destruct (o_priorityUrls o) as [[|p ps]|]; cbn; try (now left).
  intros He. apply (unshift_priority_elem _ _ (p :: ps)) in He as [He|[Hd _]]; auto.
Qed.

(** C3, amended. The link-extraction path only appends pairs of depth at
    most [maxDepth]; the advisory path puts pairs of depth [depth + 1] at
    the head without a depth test.  So in every reachable state every
    queued pair has depth at most [maxDepth + 1] (at most [maxDepth] when
    the advisory stage is switched off), and every pair that leaves the
    queue for processing has depth at most [maxDepth]. *)
Theorem C3_depth_bound_on_dequeue (es : list Event) (i : nat) (l : Loop) :
  loops (run initial es) !! i = Some l ->
  0 <= l_maxDepth l ->
  (forall depth o w e,
     e ∈ l_urlQueue (snd (snd (discover depth o (w, l)))) ->
     e ∈ l_urlQueue l \/ (e.2 = depth + 1 /\ e.2 <= l_maxDepth l))
  /\ (forall url depth o w e,
        e ∈ l_urlQueue (snd (snd (advise url depth o (w, l)))) ->
        e ∈ l_urlQueue l \/ e.2 = depth + 1)
  /\ (forall e, e ∈ l_urlQueue l -> e.2 <= l_maxDepth l + 1)
  /\ (useAI (l_options l) = Some false ->
      forall e, e ∈ l_urlQueue l -> e.2 <= l_maxDepth l)
  /\ (forall e, e ∈ l_yielded l -> e.2 <= l_maxDepth l).
Proof.
  intros Hl Hpos. destruct (loops_ok_reachable es i l Hl) as (Hq1 & Hq2 & Hy & _ & _).
  split; [intros depth o w e; apply discover_queue|].
  split; [intros url depth o w e; apply advise_queue|].
  split; [now apply Hq1|]. split; [|exact Hy].
  intros Hai. apply Hq2; [exact Hpos|]. now rewrite Hai.
Qed.

Lemma C3_depth_bound_on_dequeue_witness :
  ("http://a/ad"%string, 2) ∈ l_urlQueue (loop_after priority_at_max_depth)
  /\ 2 <= l_maxDepth (loop_after priority_at_max_depth) + 1.
Proof.
  assert (Hin : ("http://a/ad"%string, 2) ∈ l_urlQueue (loop_after priority_at_max_depth)).
  { replace (l_urlQueue (loop_after priority_at_max_depth))
      with [("http://a/ad"%string, 2)] by (vm_compute; reflexivity).
    apply elem_of_cons. now left. }
  split; [exact Hin|].
  destruct (C3_depth_bound_on_dequeue priority_at_max_depth 0%nat
              (loop_after priority_at_max_depth)) as (_ & _ & Hqueue & _).
  - vm_compute. reflexivity.
  - vm_compute. discriminate.
  - exact (Hqueue _ Hin).
Defined.

Lemma C3_counterexample :
  ~ (forall l, loops (run initial priority_at_max_depth) !! 0%nat = Some l ->
               forall e, e ∈ l_urlQueue l -> e.2 <= l_maxDepth l).
Proof.
  intros H.
  destruct (loops (run initial priority_at_max_depth) !! 0%nat) as [l|] eqn:Hl;
    [|vm_compute in Hl; discriminate].
  specialize (H l eq_refl ("http://a/ad"%string, 2)).
  vm_compute in Hl. injection Hl as <-. cbn in H.
  assert (Hle : 2 <= 1); [|lia].
  apply H. apply elem_of_cons. left. reflexivity.
Qed.

Lemma C5_no_url_processed_twice_aux (es : list Event) (i : nat) (l : Loop) :
  loops (run initial es) !! i = Some l ->
  forall url, url ∈ (l_yielded l).*1 -> url ∈ l_visitedUrls l.
Proof.
  intros Hl url. destruct (loops_ok_reachable es i l Hl) as (_ & _ & _ & _ & Hv). apply Hv.
Qed.

(** C5, amended. Extracted links are appended as they come, whether or not
    their url is visited or queued; the test is made when an entry leaves
    the queue: an entry whose url is visited is skipped.  So within one
    crawl loop no url is processed twice, and the visited set is the set of
    the urls processed. *)
Theorem C5_no_url_processed_twice (es : list Event) (i : nat) (l : Loop) :
  loops (run initial es) !! i = Some l ->
  NoDup (l_yielded l).*1
  /\ (forall url, url ∈ l_visitedUrls l <-> url ∈ (l_yielded l).*1)
  /\ (forall url depth rest,
        dequeue (l_visitedUrls l) (l_maxDepth l) (l_urlQueue l) = Some (url, depth, rest) ->
        url ∉ l_visitedUrls l)
  /\ (forall depth links,
        push_links depth links (l_urlQueue l)
        = l_urlQueue l ++ map (fun link => (link, depth + 1)) links).
Proof.
  intros Hl. destruct (loops_ok_reachable es i l Hl) as (_ & _ & _ & Hnd & Hv).
  split; [exact Hnd|]. split; [exact Hv|]. split.
  - intros url depth rest Hdq. now apply dequeue_spec in Hdq as [Hfresh _].
  - intros depth links. apply push_links_app.
Qed.

Lemma C5_no_url_processed_twice_witness :
  NoDup (l_yielded (loop_after self_link)).*1.
Proof.
  apply (C5_no_url_processed_twice self_link 0%nat (loop_after self_link)).
  vm_compute. reflexivity.
Defined.


Lemma C5_counterexample :
  ~ (forall l, loops (run initial self_link) !! 0%nat = Some l ->
               forall e, e ∈ l_urlQueue l -> e.1 ∉ l_visitedUrls l).
Proof.
  intros H.
  destruct (loops (run initial self_link) !! 0%nat) as [l|] eqn:Hl;
    [|vm_compute in Hl; discriminate].
  apply (H l eq_refl ("http://a"%string, 1)).
  - vm_compute in Hl. injection Hl as <-. apply elem_of_cons. left. reflexivity.
  - pose proof (C5_no_url_processed_twice_aux self_link 0 l Hl) as Hv.
    apply Hv. vm_compute in Hl. injection Hl as <-. cbn. apply elem_of_cons. now left.
Qed.

(** ** Pause, resume, stop *)

(** A job that is paused or stopped when its loop gets to the next test
    ends up [completed] in the store, with the start url still queued;
    after the pause it is gone from the map and cannot be resumed. *)
Lemma paused_or_stopped_job_ends_completed :
  length pause_then_test = 3%nat
  /\ (j_status <$> db (world (run initial paused_job)) !! "job"%string) = Some paused
  /\ (l_urlQueue <$> loops (run initial pause_then_test) !! 0%nat
        = Some [("http://a"%string, 0)])
  /\ (j_status <$> db (world (run initial pause_then_test)) !! "job"%string)
     = Some completed
  /\ activeCrawls (world (run initial pause_then_test)) !! "job"%string = None
  /\ fst (fst (resumeCrawl "job"%string 20 (world (run initial pause_then_test)))) = false
  /\ (l_urlQueue <$> loops (run initial stop_then_test) !! 0%nat
        = Some [("http://a"%string, 0)])
  /\ (j_stoppedAt <$> db (world (run initial stop_then_test)) !! "job"%string)
     = Some (Some 5)
  /\ (j_status <$> db (world (run initial stop_then_test)) !! "job"%string)
     = Some completed.
Proof. repeat split; vm_compute; reflexivity. Qed.

Lemma updateCrawlStatus_db_status id status message now w :
  j_status <$> db (updateCrawlStatus id status message now w) !! id
  = (fun _ => status) <$> db w !! id.
Proof.
  unfold updateCrawlStatus.
  match goal with |- context [updateOne id ?f w] => set (update := f) end.
  assert (Hdb : j_status <$> db (updateOne id update w) !! id
                = (fun _ => status) <$> db w !! id).
  { cbn. rewrite lookup_alter_eq. destruct (db w !! id) as [j|]; [|reflexivity].
    cbn. f_equal. subst update. cbn.
    destruct ((if terminal status then _ else _) : option Z); destruct status; reflexivity. }
  destruct (activeCrawls (updateOne id update w) !! id); exact Hdb.
Qed.

Lemma cleanupCrawl_db_status id now w id' :
  j_status <$> db (cleanupCrawl id now w) !! id' = j_status <$> db w !! id'.
Proof.
  unfold cleanupCrawl. destruct (activeCrawls w !! id) as [ref|]; [|reflexivity].
  destruct (heap w !! ref) as [crawlData|]; [|reflexivity].
  cbn. rewrite lookup_alter. case_decide; [|reflexivity].
  subst id'. now destruct (db w !! id).
Qed.

(** C1, as the code has it: when the loop test finds the status changed
    (paused or stopped), the loop is left, whatever is still queued, and
    the stored job is marked [completed]. The claim says this never
    happens. *)
Theorem C1_loop_exit_marks_completed
    (o : Outcome) (w : World) (l : Loop) (status : Status) :
  l_pc l = AtLoopHead ->
  status_of w (l_crawlData l) = Some status ->
  status <> running ->
  is_Some (db w !! l_crawlId l) ->
  (j_status <$> db (fst (tick o (w, l))) !! l_crawlId l) = Some completed
  /\ l_urlQueue (snd (tick o (w, l))) = l_urlQueue l
  /\ l_pc (snd (tick o (w, l))) = Returned.
Proof.
  intros Hpc Hstatus Hne [j Hj]. unfold tick. rewrite Hpc.
  rewrite decide_False by (rewrite Hstatus; congruence).
  cbn [leave_loop fst snd]. split; [|split; reflexivity].
  rewrite cleanupCrawl_db_status, updateCrawlStatus_db_status, Hj. reflexivity.
Qed.

Lemma C1_loop_exit_marks_completed_witness :
  (j_status <$>
     db (fst (tick (page_ok 10 [] None)
                (world (run initial paused_job), start_loop no_ocr))) !! "job"%string)
  = Some completed
  /\ l_urlQueue (snd (tick (page_ok 10 [] None)
                        (world (run initial paused_job), start_loop no_ocr)))
     = [("http://a"%string, 0)].
Proof.
  destruct (C1_loop_exit_marks_completed (page_ok 10 [] None)
              (world (run initial paused_job)) (start_loop no_ocr) paused)
    as (Hdb & Hqueue & _).
  - reflexivity.
  - reflexivity.
  - discriminate.
  - vm_compute. eexists; reflexivity.
  - split; [exact Hdb|exact Hqueue].
Defined.

Lemma status_of_update_data ref f w crawlData :
  heap w !! ref = Some crawlData ->
  status_of (update_data ref f w) ref = Some (cd_status (f crawlData)).
Proof.
  intros H. unfold status_of, update_data. cbn.
  rewrite list_lookup_alter, decide_True by reflexivity. now rewrite H.
Qed.

Lemma pauseCrawl_running crawlId now w ref crawlData :
  activeCrawls w !! crawlId = Some ref ->
  heap w !! ref = Some crawlData ->
  cd_status crawlData = running ->
  pauseCrawl crawlId now w
  = (true, updateOne crawlId (fun j => set_j_pausedAt (Some now) (set_j_status paused j))
             (update_data ref (set_cd_status paused) w)).
Proof.
  intros Hactive Hheap Hrun. unfold pauseCrawl. rewrite Hactive. cbn [mbind option_bind].
  rewrite Hheap. cbn [fmap option_fmap option_map]. now rewrite decide_True by exact Hrun.
Qed.

Lemma resumeCrawl_paused crawlId now w ref crawlData :
  activeCrawls w !! crawlId = Some ref ->
  heap w !! ref = Some crawlData ->
  cd_status crawlData = paused ->
  let w2 := resumed_world crawlId now ref w in
  let page := Page ref (length (from_option cd_pages [] (heap w2 !! ref))) in
  resumeCrawl crawlId now w
  = (true,
     update_data ref (fun d => set_cd_pages (cd_pages d ++ [page]) d) (emit (NewPage page) w2),
     Some (fresh_loop crawlId ref crawlData page)).
Proof.
  intros Hactive Hheap Hpaused w2 page. unfold resumeCrawl. rewrite Hactive.
  cbn [mbind option_bind]. rewrite Hheap. cbn [fmap option_fmap option_map].
  rewrite decide_True by exact Hpaused. fold (resumed_world crawlId now ref w). fold w2.
  unfold processCrawl. replace (activeCrawls w2) with (activeCrawls w) by reflexivity.
  rewrite Hactive. reflexivity.
Qed.

(** C2, amended. For every job that is paused while running and resumed
    before its crawl loop gets to the next loop test, both commands
    succeed, the status is [running] again, the crawl loops that exist keep
    their frontier and visited set, and the stored [pagesProcessed] and
    [visitedUrls] are as before; but resume starts one more crawl loop for
    the job, whose frontier is the start url at depth 0 and whose visited
    set is empty. *)
Theorem C2_resume_starts_a_fresh_loop
    (s : Sys) (crawlId : string) (ref : nat) (crawlData : CrawlData) (t1 t2 : Z) :
  activeCrawls (world s) !! crawlId = Some ref ->
  heap (world s) !! ref = Some crawlData ->
  cd_status crawlData = running ->
  let paused_world := snd (pauseCrawl crawlId t1 (world s)) in
  let s' := run s [Pause crawlId t1; Resume crawlId t2] in
  fst (pauseCrawl crawlId t1 (world s)) = true
  /\ status_of paused_world ref = Some paused
  /\ fst (fst (resumeCrawl crawlId t2 paused_world)) = true
  /\ status_of (world s') ref = Some running
  /\ (exists fresh,
        loops s' = loops s ++ [fresh]
        /\ l_crawlId fresh = crawlId /\ l_crawlData fresh = ref
        /\ l_maxDepth fresh = cd_depth crawlData
        /\ l_urlQueue fresh = [(cd_url crawlData, 0)]
        /\ l_visitedUrls fresh = ∅
        /\ l_yielded fresh = []
        /\ l_pc fresh = AtLoopHead)
  /\ (forall j, db (world s) !! crawlId = Some j ->
        exists j',
          db (world s') !! crawlId = Some j'
          /\ j_pagesProcessed j' = j_pagesProcessed j
          /\ j_visitedUrls j' = j_visitedUrls j
          /\ j_status j' = running)
  /\ activeCrawls (world s') = activeCrawls (world s).
Proof.
  intros Hactive Hheap Hrun paused_world s'.
  pose proof (pauseCrawl_running crawlId t1 (world s) ref crawlData Hactive Hheap Hrun)
    as Hpause.
  assert (Hheap1 : heap paused_world !! ref = Some (set_cd_status paused crawlData)).
  { subst paused_world. rewrite Hpause. cbn.
    rewrite list_lookup_alter, decide_True by reflexivity. now rewrite Hheap. }
  assert (Hactive1 : activeCrawls paused_world !! crawlId = Some ref).
  { subst paused_world. rewrite Hpause. exact Hactive. }
  pose proof (resumeCrawl_paused crawlId t2 paused_world ref _ Hactive1 Hheap1 eq_refl)
    as Hresume. cbv zeta in Hresume.
  assert (Hs' : s' = {| world := snd (fst (resumeCrawl crawlId t2 paused_world));
                        loops := add_loop (snd (resumeCrawl crawlId t2 paused_world))
                                   (loops s) |}).
  { subst s'. cbn [run fold_left step world loops]. fold paused_world.
    now destruct (resumeCrawl crawlId t2 paused_world) as [[b w3] l3]. }
  rewrite Hs', Hresume. cbn [fst snd world loops add_loop].
  split; [now rewrite Hpause|]. split.
  { unfold status_of. now rewrite Hheap1. }
  split; [reflexivity|]. split.
  { unfold status_of, resumed_world. cbn.
    rewrite !list_lookup_alter, !decide_True by reflexivity. now rewrite Hheap1. }
  split; [eexists; repeat split|]. split.
  - intros j Hj. unfold resumed_world. subst paused_world. rewrite Hpause. cbn.
    rewrite !lookup_alter_eq, Hj. cbn. eexists. split; [reflexivity|]. now cbn.
  - subst paused_world. rewrite Hpause. reflexivity.
Qed.

Lemma C2_resume_starts_a_fresh_loop_witness :
  fst (fst (resumeCrawl "job"%string 30
              (snd (pauseCrawl "job"%string 20 (world (started no_ocr)))))) = true.
Proof.
  apply (C2_resume_starts_a_fresh_loop (started no_ocr) "job"%string 0%nat
           (start_data no_ocr) 20 30); reflexivity.
Defined.

Lemma C2_counterexample :
  ~ NoDup (crawled (trace (world (run initial pause_resume)))).
Proof.
  replace (crawled (trace (world (run initial pause_resume))))
    with ["http://a"%string; "http://a"%string] by (vm_compute; reflexivity).
  intros H. apply NoDup_cons in H as [Hnotin _]. apply Hnotin.
  apply elem_of_cons. now left.
Qed.

(** ** Resources, when commands and loop steps do not overlap *)

Lemma closes_app calls calls' : closes (calls ++ calls') = closes calls ++ closes calls'.
Proof. unfold closes. apply omap_app. Qed.

Lemma closes_emit c w :
  is_close c = false -> closes (trace (emit c w)) = closes (trace w).
Proof.
  intros Hc. cbn. rewrite closes_app. destruct c; try discriminate; cbn; apply app_nil_r.
Qed.

Lemma closes_map_Close rs : closes (map Close rs) = rs.
Proof. induction rs as [|r rs IH]; [reflexivity|]. cbn. f_equal. exact IH. Qed.

Lemma resources_ok_emit c w :
  is_close c = false -> resources_ok w -> resources_ok (emit c w).
Proof.
  intros Hc (Hown & Hrefs & Hinj & Hnd & Hold & Hlive).
  unfold resources_ok. rewrite (closes_emit c w Hc). repeat split; eauto; apply Hown; auto.
Qed.

Lemma resources_ok_updateOne id f w : resources_ok w -> resources_ok (updateOne id f w).
Proof. intros H; exact H. Qed.

Lemma resources_ok_update_data ref f w :
  keeps_resources f -> resources_ok w -> resources_ok (update_data ref f w).
Proof.
  intros Hf (Hown & Hrefs & Hinj & Hnd & Hold & Hlive).
  split; [|split; [|split; [|split; [|split]]]]; cbn; try assumption.
  - intros r d Hd. rewrite list_lookup_alter in Hd. case_decide; [|now apply Hown].
    subst r. destruct (heap w !! ref) as [d0|] eqn:Hd0; simplify_eq/=.
    destruct (Hf d0) as (-> & -> & ->). now apply Hown.
  - intros id r Hr. rewrite length_alter. eauto.
  - intros r Hr. rewrite length_alter. eauto.
Qed.

Lemma resources_ok_new_page ref w :
  resources_ok w ->
  resources_ok
    (update_data ref (fun crawlData =>
       set_cd_pages
         (cd_pages crawlData
          ++ [Page ref (length (from_option cd_pages [] (heap w !! ref)))]) crawlData) w).
Proof.
  intros (Hown & Hrefs & Hinj & Hnd & Hold & Hlive).
  split; [|split; [|split; [|split; [|split]]]]; cbn; try assumption.
  - intros r d Hd. rewrite list_lookup_alter in Hd. case_decide; [|now apply Hown].
    subst r. destruct (heap w !! ref) as [d0|] eqn:Hd0; simplify_eq/=.
    destruct (Hown ref d0 Hd0) as (Hb & Hc & Hp). repeat split; try assumption.
    rewrite length_app. cbn [length]. rewrite Nat.add_1_r, seq_S, map_app. cbn.
    now rewrite <- Hp.
  - intros id r Hr. rewrite length_alter. eauto.
  - intros r Hr. rewrite length_alter. eauto.
Qed.

Lemma resources_ok_updateCrawlStatus id status message now w :
  resources_ok w -> resources_ok (updateCrawlStatus id status message now w).
Proof.
  intros H. unfold updateCrawlStatus.
  match goal with |- context [updateOne id ?f w] => set (w1 := updateOne id f w) end.
  assert (H1 : resources_ok w1) by (now apply resources_ok_updateOne).
  destruct (activeCrawls w1 !! id); [|exact H1].
  apply resources_ok_update_data; [|exact H1].
  intros crawlData. destruct (truthy message); repeat split.
Qed.

Lemma NoDup_pages ref n : NoDup (map (Page ref) (seq 0 n)).
Proof.
  apply NoDup_fmap_2; [|apply NoDup_seq]. intros a b Hab. now injection Hab.
Qed.

Lemma resources_ok_cleanupCrawl id now w :
  resources_ok w -> resources_ok (cleanupCrawl id now w).
Proof.
  intros H. unfold cleanupCrawl.
  destruct (activeCrawls w !! id) as [ref|] eqn:Href; [|exact H].
  destruct (heap w !! ref) as [crawlData|] eqn:Hdata; [|exact H].
  destruct H as (Hown & Hrefs & Hinj & Hnd & Hold & Hlive).
  destruct (Hown ref crawlData Hdata) as (Hb & Hc & Hp).
  set (released := cd_pages crawlData ++ [Context ref; Browser ref]).
  assert (Hcloses : closes (trace w ++ map Close (cd_pages crawlData)
                            ++ [Close (cd_context crawlData); Close (cd_browser crawlData)])
                    = closes (trace w) ++ released).
  { rewrite !closes_app, closes_map_Close, Hb, Hc. reflexivity. }
  assert (Howner : forall r, r ∈ released -> owner r = ref).
  { intros r Hr. subst released. apply elem_of_app in Hr as [Hr|Hr].
    - rewrite Hp in Hr. apply list_elem_of_fmap in Hr as (n & -> & _). reflexivity.
    - apply elem_of_cons in Hr as [->|Hr]; [reflexivity|].
      apply list_elem_of_singleton in Hr as ->. reflexivity. }
  assert (Hndr : NoDup released).
  { subst released. apply NoDup_app. split; [rewrite Hp; apply NoDup_pages|]. split.
    - intros r Hr Hr'. rewrite Hp in Hr. apply list_elem_of_fmap in Hr as (n & -> & _).
      apply elem_of_cons in Hr' as [Hr'|Hr']; [discriminate|].
      apply list_elem_of_singleton in Hr'. discriminate.
    - apply NoDup_cons. split; [|apply NoDup_singleton].
      intros Hr. apply list_elem_of_singleton in Hr. discriminate. }
  split; [|split; [|split; [|split; [|split]]]]; cbn -[closes]; try assumption.
  - intros id' r Hr. apply lookup_delete_Some in Hr as [_ Hr]. eauto.
  - intros id1 id2 r H1 H2. apply lookup_delete_Some in H1 as [_ H1].
    apply lookup_delete_Some in H2 as [_ H2]. eauto.
  - rewrite Hcloses. apply NoDup_app. split; [exact Hnd|]. split; [|exact Hndr].
    intros r Hr Hr'. apply (Hlive id ref r Href Hr). now apply Howner.
  - rewrite Hcloses. intros r Hr. apply elem_of_app in Hr as [Hr|Hr]; [now apply Hold|].
    rewrite (Howner r Hr). eauto.
  - rewrite Hcloses. intros id' ref' r Hid' Hr.
    apply lookup_delete_Some in Hid' as [Hne Hid'].
    apply elem_of_app in Hr as [Hr|Hr]; [now apply (Hlive id' ref' r)|].
    rewrite (Howner r Hr). intros <-. apply Hne. now apply (Hinj id id' ref).
Qed.

Lemma resources_ok_pauseCrawl id now w :
  resources_ok w -> resources_ok (snd (pauseCrawl id now w)).
Proof.
  intros H. unfold pauseCrawl.
  destruct (activeCrawls w !! id ≫= _) as [[ref crawlData]|]; [|exact H].
  case_decide; [|exact H]. cbn [snd].
  apply resources_ok_updateOne, resources_ok_update_data; [|exact H]. intros ?; repeat split.
Qed.

Lemma resources_ok_stopCrawl id now w :
  resources_ok w -> resources_ok (snd (stopCrawl id now w)).
Proof.
  intros H. unfold stopCrawl. destruct (activeCrawls w !! id) as [ref|]; [|exact H].
  cbn [snd]. apply resources_ok_cleanupCrawl, resources_ok_updateOne, resources_ok_update_data;
    [|exact H].
  intros ?; repeat split.
Qed.

Lemma resources_ok_processCrawl id url depth options now w :
  resources_ok w -> resources_ok (fst (processCrawl id url depth options now w)).
Proof.
  intros H. unfold processCrawl. destruct (activeCrawls w !! id) as [ref|]; cbn [fst].
  - apply (resources_ok_new_page ref (emit (NewPage _) w)). now apply resources_ok_emit.
  - now apply resources_ok_updateCrawlStatus.
Qed.

Lemma resources_ok_resumeCrawl id now w :
  resources_ok w -> resources_ok (snd (fst (resumeCrawl id now w))).
Proof.
  intros H. unfold resumeCrawl.
  destruct (activeCrawls w !! id ≫= _) as [[ref crawlData]|]; [|exact H].
  case_decide; [|exact H].
  match goal with |- context [processCrawl ?a ?b ?c ?d ?e ?w1] =>
    pose proof (resources_ok_processCrawl a b c d e w1) as Hp;
    destruct (processCrawl a b c d e w1) as [w2 l2] end.
  cbn [fst snd] in *. apply Hp.
  apply resources_ok_updateOne, resources_ok_update_data; [|exact H]. intros ?; repeat split.
Qed.

Lemma resources_ok_startCrawl id url depth options now w :
  resources_ok w -> resources_ok (fst (startCrawl id url depth options now w)).
Proof.
  intros H. unfold startCrawl. destruct (save_rejects id url depth w); [exact H|].
  destruct H as (Hown & Hrefs & Hinj & Hnd & Hold & Hlive). unfold launch.
  apply resources_ok_processCrawl.
  split; [|split; [|split; [|split; [|split]]]]; cbn; try assumption.
  - intros ref d Hd. apply lookup_app_Some in Hd as [Hd|[Hlen Hd]]; [now apply Hown|].
    apply list_lookup_singleton_Some in Hd as [Hz <-]. cbn.
    replace ref with (length (heap w)) by lia. repeat split.
  - intros id' r Hr. rewrite length_app. cbn.
    apply lookup_insert_Some in Hr as [[_ <-]|[_ Hr]]; [lia|]. apply Hrefs in Hr. lia.
  - intros id1 id2 r H1 H2.
    apply lookup_insert_Some in H1 as [[<- <-]|[Hne1 H1]];
      apply lookup_insert_Some in H2 as [[<- E2]|[Hne2 H2]].
    + reflexivity.
    + apply Hrefs in H2. lia.
    + apply Hrefs in H1. lia.
    + eauto.
  - intros r Hr. rewrite length_app. cbn. apply Hold in Hr. lia.
  - intros id' ref r Hid' Hr.
    apply lookup_insert_Some in Hid' as [[_ <-]|[_ Hid']]; [|now apply (Hlive id' ref r)].
    apply Hold in Hr. lia.
Qed.

Lemma resources_ok_process_url url depth o s :
  resources_ok (fst s) -> resources_ok (fst (snd (process_url url depth o s))).
Proof.
  revert s.
  apply (respects_process_url (fun s s' => resources_ok (fst s) -> resources_ok (fst s'))).
  - auto.
  - auto.
  - intros c w l Hc. now apply resources_ok_emit.
  - intros w l ref path. apply resources_ok_update_data. intros ?; repeat split.
  - intros w l id rec. apply resources_ok_updateOne.
  - auto.
  - intros w l id. apply resources_ok_updateOne.
  - auto.
Qed.

Lemma resources_ok_tick o s : resources_ok (fst s) -> resources_ok (fst (tick o s)).
Proof.
  destruct s as [w l]. intros H. unfold tick.
  assert (Hleave : forall l', resources_ok (fst (leave_loop (o_now o) (w, l')))).
  { intros l'. cbn. now apply resources_ok_cleanupCrawl, resources_ok_updateCrawlStatus. }
  destruct (l_pc l); [|exact H].
  case_decide; [|apply Hleave].
  destruct (dequeue _ _ _) as [[[url depth] rest]|]; [|apply Hleave].
  match goal with |- context [process_url url depth o ?s1] =>
    pose proof (resources_ok_process_url url depth o s1 H) as Hp;
    destruct (process_url url depth o s1) as [[[]|message] [w2 l2]] end.
  - exact Hp.
  - cbn [settle record_error fst]. cbn [fst snd] in Hp.
    apply resources_ok_updateOne, resources_ok_update_data; [|exact Hp].
    intros ?; repeat split.
Qed.

Lemma resources_ok_step s e : resources_ok (world s) -> resources_ok (world (step s e)).
Proof.
  intros H. destruct e as [id url depth options now|id now|id now|id now|i o]; cbn [step].
  - pose proof (resources_ok_startCrawl id url depth options now _ H) as Hs.
    destruct (startCrawl id url depth options now (world s)). exact Hs.
  - now apply resources_ok_pauseCrawl.
  - pose proof (resources_ok_resumeCrawl id now _ H) as Hr.
    destruct (resumeCrawl id now (world s)) as [[b w] l]. exact Hr.
  - now apply resources_ok_stopCrawl.
  - destruct (loops s !! i) as [l|]; [|exact H].
    pose proof (resources_ok_tick o (world s, l) H) as Ht.
    destruct (tick o (world s, l)). exact Ht.
Qed.

Lemma resources_ok_run es : forall s, resources_ok (world s) -> resources_ok (world (run s es)).
Proof.
  induction es as [|e es IH]; intros s H; [exact H|].
  cbn. apply IH. now apply resources_ok_step.
Qed.

Lemma resources_ok_initial : resources_ok (world initial).
Proof.
  split; [|split; [|split; [|split; [|split]]]]; cbn.
  - intros ref d Hd. discriminate.
  - intros id ref H. now rewrite lookup_empty in H.
  - intros id1 id2 ref H. now rewrite lookup_empty in H.
  - apply NoDup_nil_2.
  - intros r Hr. now apply elem_of_nil in Hr.
  - intros id ref r H. now rewrite lookup_empty in H.
Qed.

Lemma stop_repeatedly_absent crawlId nows w :
  activeCrawls w !! crawlId = None ->
  stop_repeatedly crawlId nows w = (repeat false (length nows), w).
Proof.
  intros H. induction nows as [|now nows IH]; [reflexivity|].
  cbn. unfold stopCrawl. rewrite H. now rewrite IH.
Qed.

(** ** [stopCrawl] between its awaits *)

Lemma World_eq (a b : World) :
  activeCrawls a = activeCrawls b -> heap a = heap b -> db a = db b -> trace a = trace b ->
  a = b.
Proof. destruct a, b. cbn. now intros -> -> -> ->. Qed.

Lemma stop_finish_returned nows crawlId result w :
  stop_finish nows {| sc_crawlId := crawlId; sc_pc := StopReturned result |} w
  = (w, {| sc_crawlId := crawlId; sc_pc := StopReturned result |}).
Proof. induction nows as [|now nows IH]; [reflexivity|]. cbn. exact IH. Qed.

Lemma stop_finish_cons now nows c w :
  stop_finish (now :: nows) c w
  = stop_finish nows (snd (stop_resume now c w)) (fst (stop_resume now c w)).
Proof. cbn [stop_finish]. now destruct (stop_resume now c w). Qed.

(** The resources of a job in the order [cleanupCrawl] closes them. *)
Lemma resources_lookup crawlData k :
  (cd_pages crawlData ++ [cd_context crawlData; cd_browser crawlData]) !! k
  = match cd_pages crawlData !! k with
    | Some page => Some page
    | None =>
        if (k =? length (cd_pages crawlData))%nat then Some (cd_context crawlData)
        else if (k =? S (length (cd_pages crawlData)))%nat then Some (cd_browser crawlData)
        else None
    end.
Proof.
  destruct (cd_pages crawlData !! k) as [page|] eqn:Hk.
  - now apply lookup_app_l_Some.
  - apply lookup_ge_None in Hk. rewrite lookup_app_r by exact Hk.
    destruct (Nat.eqb_spec k (length (cd_pages crawlData))) as [->|H1].
    + now rewrite Nat.sub_diag.
    + destruct (Nat.eqb_spec k (S (length (cd_pages crawlData)))) as [->|H2].
      * now replace (S (length (cd_pages crawlData)) - length (cd_pages crawlData))%nat
          with 1%nat by lia.
      * apply lookup_ge_None. cbn. lia.
Qed.

(** [cleanupCrawl] entered by a call whose job is in the Map: the first
    resource is closed. *)
Lemma stop_resume_enter crawlId now ref crawlData w :
  activeCrawls w !! crawlId = Some ref ->
  heap w !! ref = Some crawlData ->
  exists r,
    (cd_pages crawlData ++ [cd_context crawlData; cd_browser crawlData]) !! 0%nat = Some r
    /\ stop_resume now {| sc_crawlId := crawlId; sc_pc := AwaitStatusUpdate |} w
       = (emit (Close r) w,
          {| sc_crawlId := crawlId; sc_pc := waits_after_close ref crawlData 0 |}).
Proof.
  intros Hactive Hheap. unfold stop_resume, close_next, waits_after_close. cbn [sc_crawlId sc_pc].
  rewrite Hactive, Hheap, resources_lookup.
  destruct (cd_pages crawlData) as [|page pages]; cbn; eexists; split; reflexivity.
Qed.

(** The call taken up after the close of resource [k]: the next resource
    is closed. *)
Lemma stop_resume_close crawlId now ref crawlData k w :
  heap w !! ref = Some crawlData ->
  (k <= length (cd_pages crawlData))%nat ->
  exists r,
    (cd_pages crawlData ++ [cd_context crawlData; cd_browser crawlData]) !! S k = Some r
    /\ stop_resume now {| sc_crawlId := crawlId; sc_pc := waits_after_close ref crawlData k |} w
       = (emit (Close r) w,
          {| sc_crawlId := crawlId; sc_pc := waits_after_close ref crawlData (S k) |}).
Proof.
  intros Hheap Hk. rewrite resources_lookup. unfold waits_after_close.
  destruct (Nat.ltb_spec k (length (cd_pages crawlData))) as [Hlt|Hge].
  - unfold stop_resume, close_next. cbn [sc_crawlId sc_pc]. rewrite Hheap.
    destruct (cd_pages crawlData !! S k) as [page|] eqn:Hpage.
    + apply lookup_lt_Some in Hpage as Hlt'.
      replace (S k <? length (cd_pages crawlData))%nat with true
        by (symmetry; now apply Nat.ltb_lt).
      eexists; split; reflexivity.
    + apply lookup_ge_None in Hpage.
      replace (S k <? length (cd_pages crawlData))%nat with false
        by (symmetry; apply Nat.ltb_ge; lia).
      replace (S k =? length (cd_pages crawlData))%nat with true
        by (symmetry; apply Nat.eqb_eq; lia).
      eexists; split; reflexivity.
  - assert (k = length (cd_pages crawlData)) as -> by lia.
    rewrite Nat.eqb_refl.
    replace (cd_pages crawlData !! S (length (cd_pages crawlData))) with (@None Resource)
      by (symmetry; apply lookup_ge_None; lia).
    replace (S (length (cd_pages crawlData)) =? length (cd_pages crawlData))%nat with false
      by (symmetry; apply Nat.eqb_neq; lia).
    rewrite Nat.eqb_refl.
    replace (S (length (cd_pages crawlData)) <? length (cd_pages crawlData))%nat with false
      by (symmetry; apply Nat.ltb_ge; lia).
    unfold stop_resume. cbn [sc_crawlId sc_pc]. rewrite Hheap.
    eexists; split; reflexivity.
Qed.

(** A call that waits after the close of resource [k] and is taken up
    until it returns, nothing in between: it closes the resources after
    [k], writes the statistics and deletes the entry of the Map. *)
Lemma stop_finish_from crawlId now ref crawlData m : forall k w extra,
  heap w !! ref = Some crawlData ->
  (k + m = S (length (cd_pages crawlData)))%nat ->
  let r := stop_finish (repeat now (m + 2 + extra))
             {| sc_crawlId := crawlId; sc_pc := waits_after_close ref crawlData k |} w in
  snd r = {| sc_crawlId := crawlId; sc_pc := StopReturned true |}
  /\ trace (fst r)
     = trace w ++ map Close (drop (S k) (cd_pages crawlData
                                          ++ [cd_context crawlData; cd_browser crawlData]))
  /\ activeCrawls (fst r) = delete crawlId (activeCrawls w)
  /\ heap (fst r) = heap w
  /\ db (fst r) = alter (final_statistics now crawlData) crawlId (db w).
Proof.
  induction m as [|m IH]; intros k w extra Hheap Hk.
  - assert (k = S (length (cd_pages crawlData))) as -> by lia.
    unfold waits_after_close.
    replace (S (length (cd_pages crawlData)) <? length (cd_pages crawlData))%nat with false
      by (symmetry; apply Nat.ltb_ge; lia).
    replace (S (length (cd_pages crawlData)) =? length (cd_pages crawlData))%nat with false
      by (symmetry; apply Nat.eqb_neq; lia).
    assert (Hrun : stop_finish (repeat now (0 + 2 + extra))
                     {| sc_crawlId := crawlId; sc_pc := AwaitBrowserClose ref |} w
                   = (set_activeCrawls (delete crawlId (activeCrawls w))
                        (updateOne crawlId (final_statistics now crawlData) w),
                      {| sc_crawlId := crawlId; sc_pc := StopReturned true |})).
    { cbn [Nat.add repeat]. rewrite !stop_finish_cons. unfold stop_resume.
      cbn [sc_crawlId sc_pc]. rewrite Hheap. cbn [sc_crawlId sc_pc fst snd].
      apply stop_finish_returned. }
    rewrite Hrun. cbn [fst snd].
    rewrite drop_ge by (rewrite length_app; cbn; lia). cbn. rewrite app_nil_r.
    repeat split.
  - destruct (stop_resume_close crawlId now ref crawlData k w Hheap ltac:(lia))
      as (r & Hr & Hresume).
    cbn [Nat.add repeat]. rewrite stop_finish_cons, Hresume. cbn [fst snd].
    specialize (IH (S k) (emit (Close r) w) extra Hheap ltac:(lia)). cbv zeta in IH.
    destruct IH as (Hc & Ht & Ha & Hh & Hd).
    split; [exact Hc|]. split; [|split; [exact Ha|split; [exact Hh|exact Hd]]].
    rewrite Ht. cbn [emit trace set_trace]. rewrite <- app_assoc. f_equal.
    rewrite (drop_S _ r (S k) Hr). reflexivity.
Qed.

(** The same from the call on. *)
Lemma stop_uninterrupted_spec crawlId now ref crawlData resumes w :
  activeCrawls w !! crawlId = Some ref ->
  heap w !! ref = Some crawlData ->
  (length (cd_pages crawlData) + 4 <= resumes)%nat ->
  let r := stop_uninterrupted crawlId now resumes w in
  snd r = {| sc_crawlId := crawlId; sc_pc := StopReturned true |}
  /\ trace (fst r)
     = trace w ++ map Close (cd_pages crawlData
                             ++ [cd_context crawlData; cd_browser crawlData])
  /\ activeCrawls (fst r) = delete crawlId (activeCrawls w)
  /\ heap (fst r) = alter (set_cd_status stopped) ref (heap w)
  /\ db (fst r)
     = alter (final_statistics now (set_cd_status stopped crawlData)) crawlId
         (alter (fun j => set_j_stoppedAt (Some now) (set_j_status stopped j)) crawlId (db w)).
Proof.
  intros Hactive Hheap Hresumes. unfold stop_uninterrupted, stop_call. rewrite Hactive.
  set (w1 := updateOne crawlId _ (update_data ref (set_cd_status stopped) w)).
  set (d1 := set_cd_status stopped crawlData).
  assert (Hheap1 : heap w1 !! ref = Some d1).
  { subst w1. cbn. rewrite list_lookup_alter, decide_True by reflexivity. now rewrite Hheap. }
  destruct (stop_resume_enter crawlId now ref d1 w1 Hactive Hheap1) as (r & Hr & Henter).
  replace resumes with (S (S (length (cd_pages crawlData)) + 2
                           + (resumes - length (cd_pages crawlData) - 4)))%nat by lia.
  cbn [repeat]. rewrite stop_finish_cons, Henter. cbn [fst snd].
  pose proof (stop_finish_from crawlId now ref d1 (S (length (cd_pages crawlData))) 0%nat
                (emit (Close r) w1) (resumes - length (cd_pages crawlData) - 4)
                Hheap1 ltac:(reflexivity)) as Hfinish.
  cbv zeta in Hfinish. destruct Hfinish as (Hc & Ht & Ha & Hh & Hd).
  split; [exact Hc|]. split; [|split; [exact Ha|split; [exact Hh|exact Hd]]].
  rewrite Ht. cbn [emit trace set_trace]. rewrite <- app_assoc. f_equal.
  change (trace w1) with (trace w).
  change (cd_pages d1 ++ [cd_context d1; cd_browser d1])
    with (cd_pages crawlData ++ [cd_context crawlData; cd_browser crawlData]) in *.
  rewrite <- (drop_0 (cd_pages crawlData ++ _)) at 2. rewrite (drop_S _ r 0 Hr). reflexivity.
Qed.

Lemma second_stop_during_cleanup_unfold crawlId now resumes w :
  second_stop_during_cleanup crawlId now resumes w
  = let s1 := stop_call crawlId now w in
    let s2 := stop_resume now (snd s1) (fst s1) in
    let s4 := stop_uninterrupted crawlId now resumes (fst s2) in
    let s5 := stop_finish (repeat now resumes) (snd s2) (fst s4) in
    (fst s5, snd s5, snd s4).
Proof.
  unfold second_stop_during_cleanup, stop_uninterrupted.
  destruct (stop_call crawlId now w) as [w1 c1]. cbn [fst snd].
  destruct (stop_resume now c1 w1) as [w2 c2]. cbn [fst snd].
  destruct (stop_call crawlId now w2) as [w3 c3].
  destruct (stop_finish (repeat now resumes) c3 w3) as [w4 c4]. cbn [fst snd].
  now destruct (stop_finish (repeat now resumes) c2 w4).
Qed.

Lemma occurrences_of_app r rs rs' :
  occurrences_of r (rs ++ rs') = (occurrences_of r rs + occurrences_of r rs')%nat.
Proof. unfold occurrences_of. now rewrite List.filter_app, length_app. Qed.

(** C4. One call of [stopCrawl] after the other on a job in the Map: the
    first returns [true], leaves the status [stopped] in the job object
    and in the stored job, closes each page, the context and the browser
    once and removes the job from the Map; every later call returns
    [false] and changes nothing; a call taken up at each of its awaits
    with nothing in between does the same.  Two calls that overlap: when
    the second is made while the first waits for its first [close] in
    [cleanupCrawl] (line 542), the job is still in the Map, whose entry is
    only deleted at line 570, after the awaits; both calls return [true]
    and every page, the context and the browser are closed twice. *)
Theorem C4_second_stop_during_cleanup_releases_twice
    (w : World) (crawlId : string) (ref : nat) (crawlData : CrawlData)
    (now : Z) (nows : list Z) (resumes : nat) :
  activeCrawls w !! crawlId = Some ref ->
  heap w !! ref = Some crawlData ->
  (length (cd_pages crawlData) + 4 <= resumes)%nat ->
  let resources := cd_pages crawlData ++ [cd_context crawlData; cd_browser crawlData] in
  let returned := {| sc_crawlId := crawlId; sc_pc := StopReturned true |} in
  let w' := snd (stopCrawl crawlId now w) in
  let overlap := second_stop_during_cleanup crawlId now resumes w in
  (* one call after the other *)
  stop_repeatedly crawlId (now :: nows) w = (true :: repeat false (length nows), w')
  /\ (forall now', stopCrawl crawlId now' w' = (false, w'))
  /\ status_of w' ref = Some stopped
  /\ (forall j, db w !! crawlId = Some j -> j_status <$> db w' !! crawlId = Some stopped)
  /\ activeCrawls w' !! crawlId = None
  /\ trace w' = trace w ++ map Close resources
  /\ stop_uninterrupted crawlId now resumes w = (w', returned)
  (* the second call made while the first waits in [cleanupCrawl] *)
  /\ snd (fst overlap) = returned
  /\ snd overlap = returned
  /\ (exists r rest,
        resources = r :: rest
        /\ trace (fst (fst overlap))
           = trace w ++ Close r :: map Close resources ++ map Close rest)
  /\ (forall r,
        occurrences_of r (closes (trace (fst (fst overlap))))
        = (occurrences_of r (closes (trace w)) + 2 * occurrences_of r resources)%nat)
  /\ ~ NoDup (closes (trace (fst (fst overlap))))
  /\ activeCrawls (fst (fst overlap)) !! crawlId = None
  /\ status_of (fst (fst overlap)) ref = Some stopped.
Proof.
  intros Hactive Hheap Hresumes resources returned w' overlap.
  set (w1 := updateOne crawlId (fun j => set_j_stoppedAt (Some now) (set_j_status stopped j))
               (update_data ref (set_cd_status stopped) w)).
  set (d1 := set_cd_status stopped crawlData).
  assert (Hheap1 : heap w1 !! ref = Some d1).
  { subst w1. cbn. rewrite list_lookup_alter, decide_True by reflexivity. now rewrite Hheap. }
  assert (Hstop : stopCrawl crawlId now w = (true, cleanupCrawl crawlId now w1)).
  { unfold stopCrawl. now rewrite Hactive. }
  assert (Hclean : cleanupCrawl crawlId now w1
    = set_activeCrawls (delete crawlId (activeCrawls w))
        (updateOne crawlId (final_statistics now d1)
           (set_trace (trace w ++ map Close (cd_pages crawlData)
                       ++ [Close (cd_context crawlData); Close (cd_browser crawlData)]) w1))).
  { unfold cleanupCrawl. replace (activeCrawls w1) with (activeCrawls w) by reflexivity.
    rewrite Hactive, Hheap1. reflexivity. }
  assert (Hw' : w' = cleanupCrawl crawlId now w1) by (subst w'; now rewrite Hstop).
  assert (Habsent : activeCrawls w' !! crawlId = None).
  { rewrite Hw', Hclean. cbn. apply lookup_delete_eq. }
  assert (Hresources : map Close resources
                       = map Close (cd_pages crawlData)
                         ++ [Close (cd_context crawlData); Close (cd_browser crawlData)]).
  { subst resources. now rewrite map_app. }
  (* the call taken up at each await *)
  pose proof (stop_uninterrupted_spec crawlId now ref crawlData resumes w
                Hactive Hheap Hresumes) as Hun.
  cbv zeta in Hun. destruct Hun as (Hun_c & Hun_t & Hun_a & Hun_h & Hun_d).
  (* the two calls *)
  assert (Hcall : stop_call crawlId now w
                  = (w1, {| sc_crawlId := crawlId; sc_pc := AwaitStatusUpdate |})).
  { unfold stop_call. now rewrite Hactive. }
  destruct (stop_resume_enter crawlId now ref d1 w1 Hactive Hheap1) as (r & Hr & Henter).
  change (cd_pages d1 ++ [cd_context d1; cd_browser d1]) with resources in Hr.
  set (w2 := emit (Close r) w1) in *.
  pose proof (stop_uninterrupted_spec crawlId now ref d1 resumes w2
                Hactive Hheap1 Hresumes) as Hsecond.
  cbv zeta in Hsecond. destruct Hsecond as (Hs_c & Hs_t & Hs_a & Hs_h & Hs_d).
  change (cd_pages d1 ++ [cd_context d1; cd_browser d1]) with resources in Hs_t.
  set (s4 := stop_uninterrupted crawlId now resumes w2) in *.
  assert (Hheap4 : heap (fst s4) !! ref = Some (set_cd_status stopped d1)).
  { rewrite Hs_h. rewrite list_lookup_alter, decide_True by reflexivity.
    change (heap w2) with (heap w1). now rewrite Hheap1. }
  pose proof (stop_finish_from crawlId now ref (set_cd_status stopped d1)
                (S (length (cd_pages crawlData))) 0%nat (fst s4)
                (resumes - length (cd_pages crawlData) - 3)
                Hheap4 ltac:(reflexivity)) as Hfirst.
  cbv zeta in Hfirst.
  replace (S (length (cd_pages crawlData)) + 2
           + (resumes - length (cd_pages crawlData) - 3))%nat with resumes in Hfirst by lia.
  change (waits_after_close ref (set_cd_status stopped d1) 0)
    with (waits_after_close ref d1 0) in Hfirst.
  change (cd_pages (set_cd_status stopped d1)
          ++ [cd_context (set_cd_status stopped d1); cd_browser (set_cd_status stopped d1)])
    with resources in Hfirst.
  destruct Hfirst as (Hf_c & Hf_t & Hf_a & Hf_h & _).
  assert (Hoverlap : overlap
            = (fst (stop_finish (repeat now resumes)
                      {| sc_crawlId := crawlId; sc_pc := waits_after_close ref d1 0 |}
                      (fst s4)),
               snd (stop_finish (repeat now resumes)
                      {| sc_crawlId := crawlId; sc_pc := waits_after_close ref d1 0 |}
                      (fst s4)),
               snd s4)).
  { subst overlap. rewrite second_stop_during_cleanup_unfold. cbv zeta.
    rewrite Hcall. cbn [fst snd]. rewrite Henter. reflexivity. }
  assert (Hrest : resources = r :: drop 1 resources).
  { rewrite <- (drop_0 resources) at 1. now apply drop_S. }
  assert (Htrace : trace (fst (fst overlap))
                   = trace w ++ Close r :: map Close resources
                     ++ map Close (drop 1 resources)).
  { rewrite Hoverlap. cbn [fst]. rewrite Hf_t, Hs_t. subst w2. cbn [emit trace set_trace].
    change (trace w1) with (trace w). rewrite <- !app_assoc. reflexivity. }
  assert (Hcloses : closes (trace (fst (fst overlap)))
                    = closes (trace w) ++ r :: resources ++ drop 1 resources).
  { rewrite Htrace, closes_app. f_equal.
    change (closes (Close r :: map Close resources ++ map Close (drop 1 resources)))
      with (r :: closes (map Close resources ++ map Close (drop 1 resources))).
    now rewrite closes_app, !closes_map_Close. }
  split; [|split; [|split; [|split; [|split; [|split; [|split]]]]]].
  - cbn [stop_repeatedly]. fold w'. rewrite Hstop. cbn [snd].
    rewrite <- Hw'. now rewrite (stop_repeatedly_absent _ _ _ Habsent).
  - intros now'. unfold stopCrawl. now rewrite Habsent.
  - rewrite Hw', Hclean. unfold status_of. cbn.
    rewrite list_lookup_alter, decide_True by reflexivity. now rewrite Hheap.
  - intros j Hj. rewrite Hw', Hclean. cbn.
    rewrite !lookup_alter_eq, Hj. reflexivity.
  - exact Habsent.
  - rewrite Hw', Hclean, Hresources. reflexivity.
  - rewrite (surjective_pairing (stop_uninterrupted crawlId now resumes w)). f_equal;
      [|exact Hun_c].
    apply World_eq.
    + rewrite Hun_a, Hw', Hclean. reflexivity.
    + rewrite Hun_h, Hw', Hclean. reflexivity.
    + rewrite Hun_d, Hw', Hclean. reflexivity.
    + rewrite Hun_t, Hw', Hclean, map_app. reflexivity.
  - split; [rewrite Hoverlap; exact Hf_c|]. split; [rewrite Hoverlap; exact Hs_c|]. split.
    { exists r, (drop 1 resources). split; [exact Hrest|exact Htrace]. }
    split.
    { intros x. rewrite Hcloses, occurrences_of_app.
      change (r :: resources ++ drop 1 resources)
        with ((r :: resources) ++ drop 1 resources).
      rewrite occurrences_of_app.
      change (r :: resources) with ([r] ++ resources). rewrite occurrences_of_app.
      assert (Hocc : occurrences_of x resources
                     = (occurrences_of x [r] + occurrences_of x (drop 1 resources))%nat).
      { rewrite Hrest at 1. apply (occurrences_of_app x [r]). }
      lia. }
    split.
    { rewrite Hcloses. intros Hnd. apply NoDup_app in Hnd as (_ & _ & Hnd).
      apply NoDup_cons in Hnd as [Hnotin _]. apply Hnotin. apply elem_of_app. left.
      rewrite Hrest. apply elem_of_cons. now left. }
    split.
    + rewrite Hoverlap. cbn [fst]. rewrite Hf_a. apply lookup_delete_eq.
    + rewrite Hoverlap. cbn [fst]. unfold status_of. rewrite Hf_h, Hheap4. reflexivity.
Qed.

Lemma C4_second_stop_during_cleanup_releases_twice_witness :
  snd (second_stop_during_cleanup "job"%string 5 5 (world (started no_ocr)))
  = {| sc_crawlId := "job"%string; sc_pc := StopReturned true |}
  /\ closes (trace (fst (fst (second_stop_during_cleanup "job"%string 5 5
                                (world (started no_ocr))))))
     = [Page 0 0; Page 0 0; Context 0; Browser 0; Context 0; Browser 0].
Proof.
  split; [|reflexivity].
  apply (C4_second_stop_during_cleanup_releases_twice (world (started no_ocr)) "job"%string
           0%nat (start_data no_ocr) 5 [] 5).
  - reflexivity.
  - reflexivity.
  - cbn. lia.
Defined.

End CrawlerProperties.

(** *** Bounds on the confidence *)

Section ConfidenceBounds.
Import Ocr.

Lemma Math_round_le z x : (x <= IZR z)%R -> (Math_round x <= IZR z)%R.
Proof.
  intros H. unfold Math_round. apply IZR_le.
  destruct (base_Int_part (x + / 2)) as [Hup _].
  assert (Hlt : (IZR (Int_part (x + / 2)) < IZR (z + 1))%R) by (rewrite plus_IZR; lra).
  apply lt_IZR in Hlt. lia.
Qed.

Lemma clamp_IZR k : exists z, clamp (IZR k) = IZR z /\ 0 <= z <= 100.
Proof.
  unfold clamp.
  destruct (Z_le_gt_dec k 0) as [Hk|Hk].
  - exists 0. split; [|lia]. apply IZR_le in Hk.
    rewrite Rmin_right by lra. now rewrite Rmax_left by lra.
  - destruct (Z_le_gt_dec k 100) as [Hk'|Hk'].
    + exists k. split; [|lia]. apply IZR_le in Hk'. assert (0 < IZR k)%R by (apply IZR_lt; lia).
      rewrite Rmin_right by lra. now rewrite Rmax_right by lra.
    + exists 100. split; [|lia]. assert (100 < IZR k)%R by (apply IZR_lt; lia).
      rewrite Rmin_left by lra. now rewrite Rmax_right by lra.
Qed.

Lemma calculateConfidence_percentage t :
  exists z, calculateConfidence t = IZR z /\ 0 <= z <= 100.
Proof.
  rewrite calculateConfidence_rounded. unfold reference_score_rounded.
  destruct (blank t); [exists 0; split; [reflexivity|lia]|].
  unfold Math_round. apply clamp_IZR.
Qed.

(** For every text the confidence is a whole number between 0 and 100, and
    so is the confidence of every result of [processImage], whether the
    recognition returned a text or failed. *)
Theorem confidence_is_a_percentage (text : list N) (id : string) (r : Recognition) :
  (exists z, calculateConfidence text = IZR z /\ 0 <= z <= 100)
  /\ (exists z, confidence (processImage id r) = IZR z /\ 0 <= z <= 100).
Proof.
  split; [apply calculateConfidence_percentage|].
  destruct r as [t|message]; cbn [processImage confidence];
    [apply calculateConfidence_percentage|].
  exists 0. split; [reflexivity|lia].
Qed.

Lemma count_tokens_le b s : (count_tokens b s <= tokenChars s)%nat.
Proof.
  unfold tokenChars. revert b. induction s as [|c s IH]; intros b; cbn; [lia|].
  destruct (is_whitespace c); cbn; [apply IH|].
  specialize (IH false). destruct b; lia.
Qed.

Lemma log10_nonneg x : (1 <= x)%R -> (0 <= log10 x)%R.
Proof.
  intros H. unfold log10. pose proof ln_10_pos.
  apply Rmult_le_pos; [|left; now apply Rinv_0_lt_compat].
  rewrite <- ln_1. destruct H as [H| <-]; [left; apply ln_increasing; lra|lra].
Qed.

Lemma log10_le_1 x : (0 < x <= 10)%R -> (log10 x <= 1)%R.
Proof.
  intros [H0 H]. unfold log10. pose proof ln_10_pos.
  apply (Rmult_le_reg_r (ln 10)); [assumption|].
  unfold Rdiv. rewrite Rmult_assoc, Rinv_l by lra.
  destruct H as [H| ->]; [|lra]. left. rewrite Rmult_1_r, Rmult_1_l. apply ln_increasing; lra.
Qed.

Lemma glyphFraction_range s : (0 <= glyphFraction s <= 1)%R.
Proof.
  unfold glyphFraction.
  pose proof (filter_length_le is_error_char s) as Hle.
  destruct s as [|c s].
  - cbn. unfold Rdiv. rewrite Rmult_0_l. lra.
  - assert (Hpos : (0 < INR (length (c :: s)))%R) by (apply lt_0_INR; cbn; lia).
    apply le_INR in Hle. pose proof (pos_INR (length (List.filter is_error_char (c :: s)))).
    split.
    + apply Rmult_le_pos; [assumption|]. left. now apply Rinv_0_lt_compat.
    + apply (Rmult_le_reg_r (INR (length (c :: s)))); [assumption|].
      unfold Rdiv. rewrite Rmult_assoc, Rinv_l by lra. lra.
Qed.

(** A text that is not blank and holds none of the error glyphs
    [? # ~ | { } [ ]] scores at least 42: 40 for the first word and 2 for a
    word length of at least one character. *)
Theorem clean_text_scores_at_least_42 (text : list N) :
  blank text = false ->
  List.filter is_error_char text = [] ->
  (42 <= calculateConfidence text)%R.
Proof.
  intros Hb Hclean. rewrite calculateConfidence_rounded. unfold reference_score_rounded.
  rewrite Hb. unfold clamp.
  assert (Hraw : (IZR 42 <= reference_raw text)%R).
  { unfold reference_raw, glyphFraction, averageTokenLength. rewrite Hclean. cbn [length INR].
    pose proof (tokenCount_pos _ Hb) as Hn.
    pose proof (count_tokens_le true text) as Hc. fold (tokenCount text) in Hc.
    apply le_INR in Hn, Hc. cbn [INR] in Hn.
    rewrite (Rmax_right 1) by exact Hn.
    pose proof (log10_nonneg _ Hn) as Hlog.
    assert (Havg : (1 <= INR (tokenChars text) / INR (tokenCount text))%R).
    { apply (Rmult_le_reg_r (INR (tokenCount text))); [lra|].
      unfold Rdiv. rewrite Rmult_assoc, Rinv_l by lra. lra. }
    assert (H1 : (40 <= Rmin 100 (40 + 30 * log10 (INR (tokenCount text))))%R)
      by (apply Rmin_glb; lra).
    assert (H2 : (2 <= Rmin 20 (2 * (INR (tokenChars text) / INR (tokenCount text))))%R)
      by (apply Rmin_glb; lra).
    unfold Rdiv at 2. rewrite Rmult_0_l. lra. }
  apply Math_round_ge in Hraw.
  apply Rmax_case_strong; intros; [|apply Rmin_glb; lra].
  assert (42 <= Rmin 100 (Math_round (reference_raw text)))%R by (apply Rmin_glb; lra). lra.
Qed.

Lemma clean_text_scores_at_least_42_witness :
  (42 <= calculateConfidence (units "ok"))%R.
Proof. apply (clean_text_scores_at_least_42 (units "ok")); reflexivity. Defined.

(** However long its words are, a text of at most ten words scores at
    most 90, and a text of a single word at most 60. *)
Theorem short_text_is_capped (text : list N) :
  (length (words_of text) <= 10)%nat ->
  (calculateConfidence text <= 90)%R
  /\ ((length (words_of text) <= 1)%nat -> (calculateConfidence text <= 60)%R).
Proof.
  intros Hn. rewrite wordCount_tokenCount in *.
  rewrite calculateConfidence_rounded. unfold reference_score_rounded.
  destruct (blank text) eqn:Hb; [split; intros; lra|].
  pose proof (tokenCount_pos _ Hb) as Hpos.
  pose proof (glyphFraction_range text) as [Hg _].
  assert (Hcap : forall bound : Z, (0 <= bound)%Z ->
            (reference_raw text <= IZR bound)%R ->
            (clamp (Math_round (reference_raw text)) <= IZR bound)%R).
  { intros bound Hbound Hraw. apply Math_round_le in Hraw. unfold clamp.
    apply IZR_le in Hbound.
    apply Rmax_lub; [lra|]. eapply Rle_trans; [apply Rmin_r|exact Hraw]. }
  assert (Hbase : forall c : R, (log10 (INR (tokenCount text)) <= c)%R ->
            (reference_raw text <= 60 + 30 * c)%R).
  { intros c Hc. unfold reference_raw. apply le_INR in Hpos. cbn [INR] in Hpos.
    rewrite (Rmax_right 1) by exact Hpos.
    pose proof (Rmin_r 100 (40 + 30 * log10 (INR (tokenCount text)))).
    pose proof (Rmin_l 20 (2 * averageTokenLength text)). lra. }
  split.
  - apply (Hcap 90); [lia|].
    replace 90%R with (60 + 30 * 1)%R by lra. apply Hbase, log10_le_1.
    apply le_INR in Hn, Hpos. cbn [INR] in Hn, Hpos. lra.
  - intros H1. apply (Hcap 60); [lia|].
    replace 60%R with (60 + 30 * 0)%R by lra. apply Hbase.
    replace (tokenCount text) with 1%nat by lia. cbn [INR]. rewrite log10_1. lra.
Qed.

Lemma short_text_is_capped_witness :
  (calculateConfidence (units "abc?") <= 90)%R
  /\ ((length (words_of (units "abc?")) <= 1)%nat ->
      (calculateConfidence (units "abc?") <= 60)%R).
Proof. apply (short_text_is_capped (units "abc?")). vm_compute. lia. Defined.

End ConfidenceBounds.

(** *** Image preprocessing *)

Section Preprocessing.
Import Ocr.

Lemma Int_part_mono x y : (x <= y)%R -> Int_part x <= Int_part y.
Proof.
  intros H. destruct (base_Int_part x) as [Hx _]. destruct (base_Int_part y) as [_ Hy].
  assert (Hlt : (IZR (Int_part x) < IZR (Int_part y + 1))%R) by (rewrite plus_IZR; lra).
  apply lt_IZR in Hlt. lia.
Qed.

Lemma Math_round_mono x y : (x <= y)%R -> (Math_round x <= Math_round y)%R.
Proof. intros H. unfold Math_round. apply IZR_le, Int_part_mono. lra. Qed.

Lemma truncateColor_range v :
  v <> NaN -> exists z, truncateColor v = Finite (IZR z) /\ 0 <= z <= 255.
Proof.
  destruct v as [|[|]|x]; intros Hv; [contradiction| | |].
  - exists 0. split; [reflexivity|lia].
  - exists 255. split; [reflexivity|lia].
  - unfold truncateColor.
    destruct (Rlt_dec x 0) as [H0|H0]; [exists 0; split; [reflexivity|lia]|].
    destruct (Rlt_dec 255 x) as [H1|H1]; [exists 255; split; [reflexivity|lia]|].
    exists (Int_part (x + / 2)). split; [reflexivity|].
    assert (Hlo : (IZR 0 <= Math_round x)%R) by (apply Math_round_ge; lra).
    assert (Hhi : (Math_round x <= IZR 255)%R) by (apply Math_round_le; lra).
    unfold Math_round in Hlo, Hhi. apply le_IZR in Hlo, Hhi. lia.
Qed.

Lemma truncateColor_fixed z :
  0 <= z <= 255 -> truncateColor (Finite (IZR z)) = Finite (IZR z).
Proof.
  intros [H0 H1]. apply IZR_le in H0, H1. unfold truncateColor.
  destruct (Rlt_dec (IZR z) 0); [lra|]. destruct (Rlt_dec 255 (IZR z)); [lra|].
  f_equal. apply Math_round_IZR.
Qed.

Lemma truncateColor_mono x y :
  (x <= y)%R ->
  exists a b, truncateColor (Finite x) = Finite a /\ truncateColor (Finite y) = Finite b
              /\ (a <= b)%R.
Proof.
  intros H. unfold truncateColor.
  destruct (Rlt_dec x 0) as [Hx0|Hx0], (Rlt_dec y 0) as [Hy0|Hy0]; try lra.
  - do 2 eexists. split; [reflexivity|]. split; [reflexivity|]. lra.
  - destruct (Rlt_dec 255 y); do 2 eexists; (split; [reflexivity|]); (split; [reflexivity|]);
      [lra|]. apply (Math_round_ge 0). lra.
  - destruct (Rlt_dec 255 x) as [Hx1|Hx1], (Rlt_dec 255 y) as [Hy1|Hy1]; try lra;
      do 2 eexists; (split; [reflexivity|]); (split; [reflexivity|]).
    + lra.
    + apply (Math_round_le 255). lra.
    + now apply Math_round_mono.
Qed.

(** [truncateColor] returns [NaN] for [NaN], 0 for minus infinity and 255
    for plus infinity; for every other number it returns a whole number
    between 0 and 255; it leaves the whole numbers of that range as they
    are, is idempotent, and is monotone on the finite numbers. *)
Theorem truncateColor_clamps_and_rounds (value : Number) :
  truncateColor NaN = NaN
  /\ truncateColor (Infinity true) = Finite 0
  /\ truncateColor (Infinity false) = Finite 255
  /\ (value <> NaN -> exists z, truncateColor value = Finite (IZR z) /\ 0 <= z <= 255)
  /\ (forall z, 0 <= z <= 255 -> truncateColor (Finite (IZR z)) = Finite (IZR z))
  /\ truncateColor (truncateColor value) = truncateColor value
  /\ (forall x y, (x <= y)%R ->
      exists a b, truncateColor (Finite x) = Finite a /\ truncateColor (Finite y) = Finite b
                  /\ (a <= b)%R).
Proof.
  split; [reflexivity|]. split; [reflexivity|]. split; [reflexivity|].
  split; [apply truncateColor_range|]. split; [apply truncateColor_fixed|].
  split; [|apply truncateColor_mono].
  destruct value as [|negative|x]; [reflexivity| |].
  - destruct (truncateColor_range (Infinity negative)) as (z & -> & Hz); [discriminate|].
    now apply truncateColor_fixed.
  - destruct (truncateColor_range (Finite x)) as (z & -> & Hz); [discriminate|].
    now apply truncateColor_fixed.
Qed.

(** A number strictly within a half of an integer in [0, 255] is stored as
    that integer. *)
Lemma ToUint8Clamp_near z x :
  0 <= z <= 255 -> (IZR z - / 2 < x < IZR z + / 2)%R -> (0 <= x <= 255)%R ->
  ToUint8Clamp x = z.
Proof.
  intros [Hz0 Hz1] [Hlo Hhi] [Hx0 Hx1]. unfold ToUint8Clamp.
  rewrite (Rmax_left x 0) by lra. rewrite (Rmin_left x 255) by lra.
  destruct (base_Int_part x) as [Hf1 Hf2].
  set (f := Int_part x) in *.
  assert (Hcases : f = z \/ f = z - 1).
  { assert (H1 : (IZR (z - 2) < IZR f)%R) by (rewrite minus_IZR; lra).
    assert (H2 : (IZR f < IZR (z + 1))%R) by (rewrite plus_IZR; lra).
    apply lt_IZR in H1, H2. lia. }
  destruct Hcases as [->| ->].
  - destruct (Rlt_dec x (IZR z + / 2)); [reflexivity|lra].
  - rewrite minus_IZR in *.
    destruct (Rlt_dec x (IZR z - 1 + / 2)); [lra|].
    destruct (Rlt_dec (IZR z - 1 + / 2) x); [lia|lra].
Qed.

Lemma gray_level_stored r g b :
  0 <= r <= 255 -> 0 <= g <= 255 -> 0 <= b <= 255 ->
  ToUint8Clamp ((IZR r + IZR g + IZR b) / 3) = gray_level r g b
  /\ 0 <= gray_level r g b <= 255.
Proof.
  intros Hr Hg Hb. unfold gray_level.
  set (s := r + g + b). assert (Hs : 0 <= s <= 765) by (unfold s; lia).
  assert (Hrange : 0 <= (s + 1) / 3 <= 255).
  { split; [apply Z.div_pos; lia|].
    assert ((s + 1) / 3 < 256) by (apply Z.div_lt_upper_bound; lia). lia. }
  split; [|exact Hrange].
  replace (IZR r + IZR g + IZR b)%R with (IZR s) by (unfold s; rewrite !plus_IZR; reflexivity).
  pose proof (Z.div_mod (s + 1) 3 ltac:(lia)) as Hdm.
  pose proof (Z.mod_pos_bound (s + 1) 3 ltac:(lia)) as Hm.
  set (q := (s + 1) / 3) in *. set (m := (s + 1) mod 3) in *.
  assert (Hs' : s = 3 * q + m - 1) by lia.
  assert (HR : IZR s = (3 * IZR q + IZR m - 1)%R).
  { rewrite Hs'. rewrite minus_IZR, plus_IZR, mult_IZR. reflexivity. }
  assert (Hm0 : (0 <= IZR m)%R) by (apply IZR_le; lia).
  assert (Hm2 : (IZR m <= 2)%R) by (apply IZR_le; lia).
  assert (Hs0 : (0 <= IZR s)%R) by (apply IZR_le; lia).
  assert (Hs1 : (IZR s <= 765)%R) by (apply IZR_le; lia).
  apply ToUint8Clamp_near; [exact Hrange|split; lra|split; lra].
Qed.

Lemma gray_level_gray v : gray_level v v v = v.
Proof. unfold gray_level. replace (v + v + v + 1) with (1 + v * 3) by lia.
  rewrite Z.div_add by lia. reflexivity. Qed.

Lemma list_ind4 (P : list Z -> Prop) :
  (forall l, (length l < 4)%nat -> P l) ->
  (forall r g b a rest, P rest -> P (r :: g :: b :: a :: rest)) ->
  forall l, P l.
Proof.
  intros Hshort Hstep l. remember (length l) as n eqn:Hn. revert l Hn.
  induction n as [n IH] using lt_wf_ind.
  intros [|r [|g [|b [|a rest]]]] ->; try (apply Hshort; cbn; lia).
  apply Hstep. eapply IH; [|reflexivity]. cbn. lia.
Qed.

Lemma grayscale_short l :
  (length l < 4)%nat -> Forall (fun v => 0 <= v <= 255) l -> grayscale l = gray_trailing l.
Proof.
  destruct l as [|r [|g [|b [|a rest]]]]; cbn [length]; intros Hlen Hb; try reflexivity;
    [|lia].
  inversion_clear Hb as [|? ? Hr Hb1]. inversion_clear Hb1 as [|? ? Hg Hb2].
  inversion_clear Hb2 as [|? ? Hb _].
  cbn [grayscale gray_trailing]. now destruct (gray_level_stored r g b Hr Hg Hb) as [-> _].
Qed.

Lemma gray_trailing_bytes l :
  (length l < 4)%nat -> Forall (fun v => 0 <= v <= 255) l ->
  length (gray_trailing l) = length l
  /\ Forall (fun v => 0 <= v <= 255) (gray_trailing l)
  /\ gray_trailing (gray_trailing l) = gray_trailing l.
Proof.
  destruct l as [|r [|g [|b [|a rest]]]]; cbn [length]; intros Hlen Hb; try lia;
    try (repeat split; [repeat constructor; lia]).
  inversion_clear Hb as [|? ? Hr Hb1]. inversion_clear Hb1 as [|? ? Hg Hb2].
  inversion_clear Hb2 as [|? ? Hb _].
  destruct (gray_level_stored r g b Hr Hg Hb) as [_ Hrange].
  cbn [gray_trailing]. rewrite gray_level_gray. repeat split; repeat constructor; lia.
Qed.

Lemma trailing_short l : (length l < 4)%nat -> trailing l = l.
Proof.
  destruct l as [|r [|g [|b [|a rest]]]]; cbn [length]; intros Hlen; try reflexivity; lia.
Qed.

Lemma trailing_pixel r g b a rest : trailing (r :: g :: b :: a :: rest) = trailing rest.
Proof.
  unfold trailing. cbn [pixels length].
  replace (4 * S (length (pixels rest)))%nat with (4 + 4 * length (pixels rest))%nat by lia.
  reflexivity.
Qed.

(** On an array of bytes the grayscale pass keeps the length of the array
    and the range of the bytes, gives the three colour channels of every
    complete pixel the same value, the average of the three rounded to the
    nearest integer, and leaves the alpha channel alone; in a trailing
    group of three bytes it stores their rounded average, in a shorter one
    zeros; applied again it changes nothing. *)
Theorem grayscale_makes_every_pixel_gray (data : list Z) :
  bytes data ->
  length (grayscale data) = length data
  /\ bytes (grayscale data)
  /\ pixels (grayscale data) = map gray_pixel (pixels data)
  /\ trailing (grayscale data)
     = match trailing data with
       | [r; g; b] => [gray_level r g b; gray_level r g b; gray_level r g b]
       | leftover => map (fun _ => 0) leftover
       end
  /\ grayscale (grayscale data) = grayscale data.
Proof.
  unfold bytes. induction data as [l Hl|r g b a rest IH] using list_ind4; intros Hbytes.
  - rewrite (grayscale_short l Hl Hbytes).
    destruct (gray_trailing_bytes l Hl Hbytes) as (Hlen & Hb & Hidem).
    assert (Hl' : (length (gray_trailing l) < 4)%nat) by lia.
    split; [exact Hlen|]. split; [exact Hb|]. split.
    { destruct l as [|r [|g [|b [|a rest]]]]; cbn in *; try reflexivity; lia. }
    split.
    { rewrite (trailing_short _ Hl'), (trailing_short _ Hl).
      destruct l as [|r [|g [|b [|a rest]]]]; reflexivity. }
    rewrite (grayscale_short _ Hl' Hb). exact Hidem.
  - inversion_clear Hbytes as [|? ? Hr Hb1]. inversion_clear Hb1 as [|? ? Hg Hb2].
    inversion_clear Hb2 as [|? ? Hb Hb3]. inversion_clear Hb3 as [|? ? Ha Hrest].
    destruct (IH Hrest) as (IHlen & IHbytes & IHpix & IHtrail & IHidem).
    destruct (gray_level_stored r g b Hr Hg Hb) as [Hstored Hrange].
    cbn [grayscale]. rewrite Hstored. repeat split.
    + cbn [length]. now rewrite IHlen.
    + repeat constructor; try lia; try exact IHbytes.
    + cbn [pixels map gray_pixel]. now rewrite IHpix.
    + rewrite !trailing_pixel. exact IHtrail.
    + cbn [grayscale].
      destruct (gray_level_stored _ _ _ Hrange Hrange Hrange) as [-> _].
      rewrite gray_level_gray, IHidem. reflexivity.
Qed.

Lemma grayscale_makes_every_pixel_gray_witness :
  length (grayscale [10; 20; 31; 255; 0; 0; 2; 128; 10; 20; 31]) = 11%nat
  /\ bytes (grayscale [10; 20; 31; 255; 0; 0; 2; 128; 10; 20; 31])
  /\ pixels (grayscale [10; 20; 31; 255; 0; 0; 2; 128; 10; 20; 31])
     = [(20, 20, 20, 255); (1, 1, 1, 128)]
  /\ trailing (grayscale [10; 20; 31; 255; 0; 0; 2; 128; 10; 20; 31]) = [20; 20; 20]
  /\ grayscale (grayscale [10; 20; 31; 255; 0; 0; 2; 128; 10; 20; 31])
     = grayscale [10; 20; 31; 255; 0; 0; 2; 128; 10; 20; 31].
Proof.
  apply (grayscale_makes_every_pixel_gray [10; 20; 31; 255; 0; 0; 2; 128; 10; 20; 31]).
  unfold bytes. repeat constructor; lia.
Defined.

End Preprocessing.

(** *** The actions of the scroll handler *)

Section ScrollTrace.
Import Scroll.

Lemma scroll_loop_shape pg timeout remaining :
  forall prev c,
    let r := scroll_loop pg timeout remaining prev c in
    exists last,
      snd r = concat (repeat scroll_round (fst r - c)) ++ last
      /\ ((last = [EvaluateScrollHeight]
           /\ (fst r < c + remaining)%nat
           /\ sp_clock pg (S (fst r)) - sp_clock pg 0 < timeout)
          \/ (last = []
              /\ (fst r = (c + remaining)%nat
                  \/ timeout <= sp_clock pg (S (fst r)) - sp_clock pg 0))).
Proof.
  induction remaining as [|remaining IH]; intros prev c; cbn [scroll_loop].
  - cbn [fst snd]. exists []. rewrite Nat.sub_diag. split; [reflexivity|].
    right. split; [reflexivity|]. left. lia.
  - destruct (Z.ltb_spec (sp_clock pg (S c) - sp_clock pg 0) timeout) as [Hclock|Hclock].
    + destruct (Z.eqb_spec (sp_height pg c) prev) as [Hsame|Hdiff].
      * cbn [fst snd]. exists [EvaluateScrollHeight]. rewrite Nat.sub_diag.
        split; [reflexivity|]. left. split; [reflexivity|]. split; [lia|exact Hclock].
      * pose proof (scroll_loop_spec pg timeout remaining (sp_height pg c) (S c)) as Hspec.
        specialize (IH (sp_height pg c) (S c)).
        destruct (scroll_loop pg timeout remaining (sp_height pg c) (S c)) as [n acts].
        cbn [fst snd] in *. destruct Hspec as (Hrange & _).
        destruct IH as (last & -> & Hlast). exists last. split.
        -- replace (n - c)%nat with (S (n - S c)) by lia. reflexivity.
        -- destruct Hlast as [(-> & Hn & Ht)|(-> & Hn)].
           ++ left. split; [reflexivity|]. split; [lia|exact Ht].
           ++ right. split; [reflexivity|]. destruct Hn as [Hn|Hn]; [left; lia|now right].
    + cbn [fst snd]. exists []. rewrite Nat.sub_diag. split; [reflexivity|].
      right. split; [reflexivity|]. now right.
Qed.

Lemma time_waited_app acts acts' :
  time_waited (acts ++ acts') = time_waited acts + time_waited acts'.
Proof.
  unfold time_waited. induction acts as [|a acts IH]; [reflexivity|].
  cbn. rewrite IH. destruct a; lia.
Qed.

Lemma time_waited_rounds n : time_waited (concat (repeat scroll_round n)) = 1000 * Z.of_nat n.
Proof.
  induction n as [|n IH]; [reflexivity|].
  cbn [repeat concat]. rewrite time_waited_app, IH. cbn. lia.
Qed.

(** What the scroll handler asks of the page is [n] rounds of measuring,
    scrolling to the bottom and waiting 1000 ms, then at most one more
    measurement, then the scroll back to the top; the extra measurement is
    made exactly when the loop ends on an unchanged height (the scroll
    budget and the time were not used up); the handler waits [n] seconds
    in all. *)
Theorem scroll_trace_shape (pg : ScrollPage) (env_timeout : option Z)
    (options : ScrollOptions) :
  let timeout := or_else (scrollTimeout options) (or_else env_timeout 30000) in
  let limit := or_else (maxScrolls options) 10 in
  let n := fst (handleInfiniteScroll pg env_timeout options) in
  let acts := snd (handleInfiniteScroll pg env_timeout options) in
  exists last,
    acts = concat (repeat scroll_round n) ++ last ++ [ScrollToTop]
    /\ (last = [EvaluateScrollHeight] \/ last = [])
    /\ (last = [EvaluateScrollHeight] <->
        (n < Z.to_nat limit)%nat /\ sp_clock pg (S n) - sp_clock pg 0 < timeout)
    /\ time_waited acts = 1000 * Z.of_nat n.
Proof.
  cbv zeta. unfold handleInfiniteScroll.
  set (timeout := or_else (scrollTimeout options) (or_else env_timeout 30000)).
  set (limit := or_else (maxScrolls options) 10).
  pose proof (scroll_loop_shape pg timeout (Z.to_nat limit) 0 0) as Hshape.
  destruct (scroll_loop pg timeout (Z.to_nat limit) 0 0) as [n acts].
  cbn [fst snd] in *. rewrite Nat.sub_0_r in Hshape.
  destruct Hshape as (last & -> & Hlast). exists last.
  split; [now rewrite <- app_assoc|].
  split; [destruct Hlast as [(-> & _)|(-> & _)]; [now left|now right]|].
  split.
  - destruct Hlast as [(-> & Hn & Ht)|(-> & Hn)].
    + split; [intros _; split; [lia|exact Ht]|reflexivity].
    + split; [discriminate|]. intros [Hlt Ht]. destruct Hn; lia.
  - rewrite !time_waited_app, time_waited_rounds.
    destruct Hlast as [(-> & _)|(-> & _)]; cbn; lia.
Qed.

End ScrollTrace.

(** *** The store, the job objects and the commands *)

Section ServiceProperties.
Import Crawler.

(** ** The store and the job objects *)

Lemma store_ok_emit c w : store_ok w -> store_ok (emit c w).
Proof. intros H; exact H. Qed.

Lemma store_ok_update_data ref f w :
  (forall crawlData, cd_status (f crawlData) = cd_status crawlData
                     /\ cd_url (f crawlData) = cd_url crawlData) ->
  store_ok w -> store_ok (update_data ref f w).
Proof.
  intros Hf [Hcount Hagree]. split; [exact Hcount|]. cbn. intros id r crawlData Hid Hr.
  rewrite list_lookup_alter in Hr. case_decide.
  - subst r. destruct (heap w !! ref) as [d|] eqn:Hd; simplify_eq/=.
    destruct (Hagree _ _ _ Hid Hd) as (j & Hj & Hs & Hu). destruct (Hf d) as [-> ->]. eauto.
  - eauto.
Qed.

Lemma store_ok_updateOne id g w :
  (forall j, j_status (g j) = j_status j /\ j_url (g j) = j_url j
             /\ (j_pagesProcessed j = Z.of_nat (length (j_visitedUrls j)) ->
                 j_pagesProcessed (g j) = Z.of_nat (length (j_visitedUrls (g j))))) ->
  store_ok w -> store_ok (updateOne id g w).
Proof.
  intros Hg [Hcount Hagree]. split; cbn.
  - intros id' j Hj. destruct (decide (id' = id)) as [->|Hne].
    + rewrite lookup_alter_eq in Hj. destruct (db w !! id) as [j0|] eqn:Hj0; simplify_eq/=.
      apply Hg. eauto.
    + rewrite lookup_alter_ne in Hj by congruence. eauto.
  - intros id' ref crawlData Hid Hr. destruct (Hagree _ _ _ Hid Hr) as (j & Hj & Hs & Hu).
    destruct (decide (id' = id)) as [->|Hne].
    + exists (g j). rewrite lookup_alter_eq, Hj. destruct (Hg j) as (-> & -> & _). auto.
    + exists j. rewrite lookup_alter_ne by congruence. auto.
Qed.

(** A status written to the stored document of [id] and to the job object
    the Map holds for it, if any. *)
Lemma store_ok_set_status id status g w :
  (forall j, j_status (g j) = status /\ j_url (g j) = j_url j
             /\ j_pagesProcessed (g j) = j_pagesProcessed j
             /\ j_visitedUrls (g j) = j_visitedUrls j) ->
  store_ok w ->
  match activeCrawls w !! id with
  | Some ref =>
      forall f,
        (forall id', activeCrawls w !! id' = Some ref -> id' = id) ->
        (forall crawlData, cd_status (f crawlData) = status
                           /\ cd_url (f crawlData) = cd_url crawlData) ->
        store_ok (updateOne id g (update_data ref f w))
  | None => store_ok (updateOne id g w)
  end.
Proof.
  intros Hg [Hcount Hagree].
  assert (Hcount' : forall w', db w' = alter g id (db w) ->
            forall id' j, db w' !! id' = Some j ->
              j_pagesProcessed j = Z.of_nat (length (j_visitedUrls j))).
  { intros w' -> id' j Hj. destruct (decide (id' = id)) as [->|Hne].
    - rewrite lookup_alter_eq in Hj. destruct (db w !! id) as [j0|] eqn:Hj0; simplify_eq/=.
      destruct (Hg j0) as (_ & _ & -> & ->). eauto.
    - rewrite lookup_alter_ne in Hj by congruence. eauto. }
  destruct (activeCrawls w !! id) as [ref|] eqn:Hactive.
  - intros f Hinj Hf. split; [now apply Hcount'|]. cbn.
    intros id' r crawlData Hid Hr. rewrite list_lookup_alter in Hr. case_decide.
    + subst r. pose proof (Hinj _ Hid) as Heq. subst id'.
      destruct (heap w !! ref) as [d|] eqn:Hd; simplify_eq/=.
      destruct (Hagree _ _ _ Hactive Hd) as (j & Hj & Hs & Hu).
      exists (g j). rewrite lookup_alter_eq, Hj.
      destruct (Hg j) as (-> & -> & _). destruct (Hf d) as (-> & ->). auto.
    + destruct (Hagree _ _ _ Hid Hr) as (j & Hj & Hs & Hu).
      exists j. rewrite lookup_alter_ne; [auto|]. intros <-. congruence.
  - split; [now apply Hcount'|]. cbn.
    intros id' r crawlData Hid Hr. destruct (Hagree _ _ _ Hid Hr) as (j & Hj & Hs & Hu).
    exists j. rewrite lookup_alter_ne; [auto|]. intros <-. congruence.
Qed.

Lemma resources_ok_injective w id ref :
  resources_ok w -> activeCrawls w !! id = Some ref ->
  forall id', activeCrawls w !! id' = Some ref -> id' = id.
Proof. intros (_ & _ & Hinj & _) Hid id' Hid'. eauto. Qed.

Lemma store_ok_updateCrawlStatus id status message now w :
  resources_ok w -> store_ok w -> store_ok (updateCrawlStatus id status message now w).
Proof.
  intros Hres H. unfold updateCrawlStatus.
  match goal with |- context [updateOne id ?g w] => set (update := g) end.
  assert (Hg : forall j, j_status (update j) = status /\ j_url (update j) = j_url j
             /\ j_pagesProcessed (update j) = j_pagesProcessed j
             /\ j_visitedUrls (update j) = j_visitedUrls j).
  { intros j. subst update. cbn.
    destruct ((if terminal status then _ else _) : option Z); destruct status; cbn; auto. }
  pose proof (store_ok_set_status id status update w Hg H) as Hset.
  change (activeCrawls (updateOne id update w) !! id) with (activeCrawls w !! id).
  destruct (activeCrawls w !! id) as [ref|] eqn:Hactive; [|exact Hset].
  match goal with |- store_ok (update_data ref ?f _) => apply (Hset f) end.
  - now apply (resources_ok_injective w id ref).
  - intros crawlData. destruct (truthy message); cbn; auto.
Qed.

Lemma store_ok_cleanupCrawl id now w : store_ok w -> store_ok (cleanupCrawl id now w).
Proof.
  intros H. unfold cleanupCrawl.
  destruct (activeCrawls w !! id) as [ref|]; [|exact H].
  destruct (heap w !! ref) as [crawlData|]; [|exact H].
  match goal with |- context [updateOne id ?g ?w0] =>
    assert (H1 : store_ok (updateOne id g w0)) by (apply store_ok_updateOne; [cbn; auto|exact H]);
    destruct H1 as [Hcount Hagree] end.
  split; [exact Hcount|]. cbn in *. intros id' r d Hid Hr.
  apply lookup_delete_Some in Hid as [_ Hid]. eauto.
Qed.

Lemma store_ok_pauseCrawl id now w :
  resources_ok w -> store_ok w -> store_ok (snd (pauseCrawl id now w)).
Proof.
  intros Hres H. unfold pauseCrawl.
  destruct (activeCrawls w !! id) as [ref|] eqn:Hactive; [|exact H]. cbn [mbind option_bind].
  destruct (heap w !! ref) as [crawlData|]; [|exact H]. cbn [fmap option_fmap option_map].
  case_decide; [|exact H]. cbn [snd].
  pose proof (store_ok_set_status id paused
                (fun j => set_j_pausedAt (Some now) (set_j_status paused j)) w
                ltac:(cbn; auto) H) as Hset.
  rewrite Hactive in Hset. apply Hset; [|cbn; auto].
  now apply (resources_ok_injective w id ref).
Qed.

Lemma store_ok_stopCrawl id now w :
  resources_ok w -> store_ok w -> store_ok (snd (stopCrawl id now w)).
Proof.
  intros Hres H. unfold stopCrawl.
  destruct (activeCrawls w !! id) as [ref|] eqn:Hactive; [|exact H]. cbn [snd].
  apply store_ok_cleanupCrawl.
  pose proof (store_ok_set_status id stopped
                (fun j => set_j_stoppedAt (Some now) (set_j_status stopped j)) w
                ltac:(cbn; auto) H) as Hset.
  rewrite Hactive in Hset. apply Hset; [|cbn; auto].
  now apply (resources_ok_injective w id ref).
Qed.

Lemma store_ok_processCrawl id url depth options now w :
  resources_ok w -> store_ok w -> store_ok (fst (processCrawl id url depth options now w)).
Proof.
  intros Hres H. unfold processCrawl. destruct (activeCrawls w !! id) as [ref|]; cbn [fst].
  - apply store_ok_update_data; [cbn; auto|]. now apply store_ok_emit.
  - now apply store_ok_updateCrawlStatus.
Qed.

Lemma store_ok_resumeCrawl id now w :
  resources_ok w -> store_ok w -> store_ok (snd (fst (resumeCrawl id now w))).
Proof.
  intros Hres H. pose proof (resources_ok_resumeCrawl id now w Hres) as Hres'.
  unfold resumeCrawl in *.
  destruct (activeCrawls w !! id) as [ref|] eqn:Hactive; [|exact H].
  cbn [mbind option_bind] in *.
  destruct (heap w !! ref) as [crawlData|]; [|exact H].
  cbn [fmap option_fmap option_map] in *.
  case_decide; [|exact H].
  match goal with |- context [processCrawl ?a ?b ?c ?d ?e ?w1] =>
    pose proof (store_ok_processCrawl a b c d e w1) as Hp;
    pose proof (resources_ok_updateOne id
                  (fun j => set_j_resumedAt (Some now) (set_j_status running j))
                  (update_data ref (set_cd_status running) w)) as Hr1;
    destruct (processCrawl a b c d e w1) as [w2 l2] end.
  cbn [fst snd] in *. apply Hp.
  - apply Hr1. apply resources_ok_update_data; [|exact Hres]. intros ?; cbn; auto.
  - pose proof (store_ok_set_status id running
                  (fun j => set_j_resumedAt (Some now) (set_j_status running j)) w
                  ltac:(cbn; auto) H) as Hset.
    rewrite Hactive in Hset. apply Hset; [|cbn; auto].
    now apply (resources_ok_injective w id ref).
Qed.

Lemma store_ok_startCrawl id url depth options now w :
  resources_ok w -> store_ok w -> store_ok (fst (startCrawl id url depth options now w)).
Proof.
  intros Hres H. unfold startCrawl.
  destruct (save_rejects id url depth w) eqn:Hsave; [exact H|].
  pose proof (resources_ok_startCrawl id url depth options now w Hres) as Hres'.
  unfold startCrawl in Hres'. rewrite Hsave in Hres'.
  pose proof Hres as (_ & Hrefs & _). destruct H as [Hcount Hagree].
  unfold launch in *.
  match goal with |- context [processCrawl _ _ _ _ _ ?w1] => set (w' := w1) end.
  fold w' in Hres'.
  assert (Hstore : store_ok w').
  { split; cbn.
    - intros id' j Hj. apply lookup_insert_Some in Hj as [[_ <-]|[_ Hj]]; [reflexivity|eauto].
    - intros id' ref crawlData Hid Hr.
      apply lookup_insert_Some in Hid as [[<- <-]|[Hne Hid]].
      + rewrite lookup_app_r, Nat.sub_diag in Hr by lia. simplify_eq/=.
        eexists. rewrite lookup_insert_eq. split; [reflexivity|]. cbn. auto.
      + apply Hrefs in Hid as Hlt. rewrite lookup_app_l in Hr by exact Hlt.
        destruct (Hagree _ _ _ Hid Hr) as (j & Hj & Hs & Hu).
        exists j. rewrite lookup_insert_ne by congruence. auto. }
  unfold processCrawl. destruct (activeCrawls w' !! id) as [ref|] eqn:Hactive; cbn [fst].
  - apply store_ok_update_data; [cbn; auto|]. now apply store_ok_emit.
  - exfalso. subst w'. cbn in Hactive. rewrite lookup_insert_eq in Hactive. discriminate.
Qed.

Lemma store_ok_process_url url depth o s :
  store_ok (fst s) -> store_ok (fst (snd (process_url url depth o s))).
Proof.
  revert s.
  apply (respects_process_url (fun s s' => store_ok (fst s) -> store_ok (fst s'))).
  - auto.
  - auto.
  - intros c w l _. apply store_ok_emit.
  - intros w l ref path. apply store_ok_update_data. cbn; auto.
  - intros w l id rec. apply store_ok_updateOne. cbn; auto.
  - auto.
  - intros w l id. apply store_ok_updateOne. intros j. cbn. repeat split.
    intros ->. rewrite length_app. cbn. lia.
  - auto.
Qed.

Lemma store_ok_record_error url message now s :
  store_ok (fst s) -> store_ok (fst (record_error url message now s)).
Proof.
  destruct s as [w l]. cbn [record_error fst]. intros H.
  apply store_ok_updateOne; [cbn; auto|]. apply store_ok_update_data; [cbn; auto|exact H].
Qed.

Lemma store_ok_leave_loop now s :
  resources_ok (fst s) -> store_ok (fst s) -> store_ok (fst (leave_loop now s)).
Proof.
  destruct s as [w l]. cbn. intros Hres H.
  now apply store_ok_cleanupCrawl, store_ok_updateCrawlStatus.
Qed.

Lemma store_ok_tick o s :
  resources_ok (fst s) -> store_ok (fst s) -> store_ok (fst (tick o s)).
Proof.
  destruct s as [w l]. intros Hres H. unfold tick.
  destruct (l_pc l); [|exact H].
  case_decide; [|now apply store_ok_leave_loop].
  destruct (dequeue _ _ _) as [[[url depth] rest]|]; [|now apply store_ok_leave_loop].
  match goal with |- context [process_url url depth o ?s1] =>
    pose proof (store_ok_process_url url depth o s1 H) as Hp;
    destruct (process_url url depth o s1) as [[[]|message] s2] end.
  - exact Hp.
  - cbn [settle]. now apply store_ok_record_error.
Qed.

Lemma store_ok_step s e :
  resources_ok (world s) -> store_ok (world s) -> store_ok (world (step s e)).
Proof.
  intros Hres H. destruct e as [id url depth options now|id now|id now|id now|i o]; cbn [step].
  - pose proof (store_ok_startCrawl id url depth options now _ Hres H) as Hs.
    destruct (startCrawl id url depth options now (world s)). exact Hs.
  - now apply store_ok_pauseCrawl.
  - pose proof (store_ok_resumeCrawl id now _ Hres H) as Hr.
    destruct (resumeCrawl id now (world s)) as [[b w] l]. exact Hr.
  - now apply store_ok_stopCrawl.
  - destruct (loops s !! i) as [l|]; [|exact H].
    pose proof (store_ok_tick o (world s, l) Hres H) as Ht.
    destruct (tick o (world s, l)). exact Ht.
Qed.

Lemma store_ok_run es : forall s,
  resources_ok (world s) -> store_ok (world s) -> store_ok (world (run s es)).
Proof.
  induction es as [|e es IH]; intros s Hres H; [exact H|].
  cbn. apply IH; [now apply resources_ok_step|now apply store_ok_step].
Qed.

Lemma store_ok_reachable es : store_ok (world (run initial es)).
Proof.
  apply store_ok_run; [apply resources_ok_initial|].
  split; cbn; intros id; intros; now rewrite lookup_empty in *.
Qed.

(** ** Which jobs are stored *)


















(** In every state the service can reach, the [pagesProcessed] counter of
    a stored job is the number of its stored [visitedUrls]. *)
Theorem stored_page_counter_counts_stored_urls (es : list Event) (crawlId : string)
    (crawlJob : CrawlJob) :
  db (world (run initial es)) !! crawlId = Some crawlJob ->
  j_pagesProcessed crawlJob = Z.of_nat (length (j_visitedUrls crawlJob)).
Proof. intros H. now apply (store_ok_reachable es) in H. Qed.

Lemma stored_page_counter_counts_stored_urls_witness :
  exists crawlJob,
    db (world (run initial three_links)) !! "job"%string = Some crawlJob
    /\ j_pagesProcessed crawlJob = 4
    /\ j_pagesProcessed crawlJob = Z.of_nat (length (j_visitedUrls crawlJob)).
Proof.
  assert (H : is_Some (db (world (run initial three_links)) !! "job"%string))
    by (vm_compute; eauto).
  destruct H as [crawlJob H]. exists crawlJob. split; [exact H|]. split.
  - revert H. vm_compute. intros [= <-]. reflexivity.
  - exact (stored_page_counter_counts_stored_urls three_links "job"%string crawlJob H).
Defined.





(** ** What an iteration records *)

Lemma capture_records url depth o w l :
  let r := capture url depth o (w, l) in
  snd (snd r) = l
  /\ db (fst (snd r)) = db w
  /\ match capture_failure (l_options l) o with
     | Some message => fst r = Throw message /\ heap (fst (snd r)) = heap w
     | None =>
         fst r = Ok (shot_path w l o)
         /\ heap (fst (snd r))
            = alter (fun crawlData =>
                       set_cd_capturedScreenshots
                         (cd_capturedScreenshots crawlData ++ [shot_path w l o]) crawlData)
                    (l_crawlData l) (heap w)
     end.
Proof.
  unfold capture, capture_failure, mbind, M_bind, bind, get_loop, get_world, on_world,
    await, when, ret.
  cbn. destruct (o_goto o); [cbn; auto|]. destruct (o_loadState o); [cbn; auto|].
  destruct (is_false (handleInfiniteScroll (l_options l))); cbn.
  - destruct (o_screenshot o); cbn; auto.
  - destruct (o_scroll o); [cbn; auto|]. destruct (o_screenshot o); cbn; auto.
Qed.

Lemma recognize_records path url o w l :
  let r := recognize path url o (w, l) in
  fst r = Ok tt /\ snd (snd r) = l /\ heap (fst (snd r)) = heap w
  /\ forall id j, db w !! id = Some j ->
       exists j', db (fst (snd r)) !! id = Some j'
                  /\ j_pagesProcessed j' = j_pagesProcessed j
                  /\ j_visitedUrls j' = j_visitedUrls j
                  /\ j_errors j' = j_errors j
                  /\ j_status j' = j_status j.
Proof.
  unfold recognize, mbind, M_bind, bind, get_loop, when, try_ignore. cbn.
  destruct (negb _ && negb _); cbn; [|repeat split; eauto 10].
  unfold processScreenshotWithOCR, mbind, M_bind, bind, on_world. cbn.
  destruct (o_ocr o) as [rec|message]; cbn; [|repeat split; eauto 10].
  destruct (truthy (Ocr.error (Ocr.processImage (o_uuid o) rec))); cbn; [repeat split; eauto 10|].
  repeat split. intros id j Hj. rewrite lookup_alter. case_decide.
  - subst id. rewrite Hj. cbn. eauto 10.
  - eauto 10.
Qed.

Lemma discover_records depth o w l :
  let r := discover depth o (w, l) in
  fst (snd r) = (if depth <? l_maxDepth l then emit ExtractLinks w else w)
  /\ snd (snd r) = set_l_urlQueue (l_urlQueue (snd (snd r))) l
  /\ fst r = match discover_failure depth (l_maxDepth l) o with
             | Some message => Throw message
             | None => Ok tt
             end.
Proof.
  unfold discover, discover_failure, mbind, M_bind, bind, get_loop, await_value, on_loop.
  cbn. destruct (depth <? l_maxDepth l); cbn; [|destruct l; auto].
  destruct (o_links o); cbn; destruct l; auto.
Qed.

Lemma advise_records url depth o w l :
  let r := advise url depth o (w, l) in
  heap (fst (snd r)) = heap w /\ db (fst (snd r)) = db w
  /\ fst r = match advise_failure (l_options l) o with
             | Some message => Throw message
             | None => Ok tt
             end.
Proof.
  unfold advise, advise_failure, mbind, M_bind, bind, get_loop, await, on_world, on_loop.
  cbn. destruct (is_false (useAI (l_options l))); cbn; [auto|].
  destruct (o_title o); cbn; [auto|]. destruct (o_priorityUrls o) as [[|p ps]|]; cbn; auto.
Qed.

(** What [process_url] returns and what it leaves in the job object and in
    the stored job. *)
Lemma process_url_records url depth o w l crawlData j :
  heap w !! l_crawlData l = Some crawlData ->
  db w !! l_crawlId l = Some j ->
  let r := process_url url depth o (w, l) in
  let kept := persisted (l_options l) depth (l_maxDepth l) o in
  fst r = match iteration_failure (l_options l) depth (l_maxDepth l) o with
          | Some message => Throw message
          | None => Ok tt
          end
  /\ (exists crawlData',
        heap (fst (snd r)) !! l_crawlData l = Some crawlData'
        /\ cd_capturedScreenshots crawlData'
           = cd_capturedScreenshots crawlData
             ++ match capture_failure (l_options l) o with
                | Some _ => []
                | None => [shot_path w l o]
                end
        /\ cd_errors crawlData' = cd_errors crawlData
        /\ cd_status crawlData' = cd_status crawlData)
  /\ (exists j',
        db (fst (snd r)) !! l_crawlId l = Some j'
        /\ j_pagesProcessed j' = j_pagesProcessed j + (if kept then 1 else 0)
        /\ j_visitedUrls j' = j_visitedUrls j ++ (if kept then [url] else [])
        /\ j_errors j' = j_errors j
        /\ j_status j' = j_status j).
Proof.
  intros Hd Hj. cbv zeta. unfold process_url, persisted, iteration_failure, mbind, M_bind, bind.
  pose proof (capture_records url depth o w l) as Hc. cbv zeta in Hc.
  destruct (capture url depth o (w, l)) as [r1 [w1 l1]]. cbn [fst snd] in Hc.
  destruct Hc as (-> & Hdb1 & Hc).
  destruct (capture_failure (l_options l) o) as [m|].
  { destruct Hc as [-> Hheap]. cbn [fst snd]. rewrite Hheap, Hdb1. split; [reflexivity|].
    split; [exists crawlData; rewrite app_nil_r; auto|].
    exists j. rewrite Z.add_0_r, app_nil_r. auto. }
  destruct Hc as [-> Hheap1].
  pose proof (recognize_records (shot_path w l o) url o w1 l) as Hr. cbv zeta in Hr.
  destruct (recognize (shot_path w l o) url o (w1, l)) as [r2 [w2 l2]]. cbn [fst snd] in Hr.
  destruct Hr as (-> & -> & Hheap2 & Hdb2).
  destruct (Hdb2 (l_crawlId l) j) as (j2 & Hj2 & Hp2 & Hv2 & He2 & Hs2); [now rewrite Hdb1|].
  assert (Hd2 : exists crawlData',
            heap w2 !! l_crawlData l = Some crawlData'
            /\ cd_capturedScreenshots crawlData'
               = cd_capturedScreenshots crawlData ++ [shot_path w l o]
            /\ cd_errors crawlData' = cd_errors crawlData
            /\ cd_status crawlData' = cd_status crawlData).
  { rewrite Hheap2, Hheap1, list_lookup_alter_eq, Hd. cbn. eauto. }
  pose proof (discover_records depth o w2 l) as Hdis. cbv zeta in Hdis.
  destruct (discover depth o (w2, l)) as [r3 [w3 l3]]. cbn [fst snd] in Hdis.
  destruct Hdis as (-> & Hl3 & ->).
  assert (Hid3 : l_crawlId l3 = l_crawlId l /\ l_options l3 = l_options l)
    by (rewrite Hl3; auto).
  destruct Hid3 as [Hid3 Hopt3].
  assert (Hw3 : heap (if depth <? l_maxDepth l then emit ExtractLinks w2 else w2) = heap w2
                /\ db (if depth <? l_maxDepth l then emit ExtractLinks w2 else w2) = db w2)
    by (destruct (depth <? l_maxDepth l); auto).
  destruct Hw3 as [Hheap3 Hdb3].
  destruct (discover_failure depth (l_maxDepth l) o) as [m|].
  { cbn [fst snd]. rewrite Hheap3, Hdb3. split; [reflexivity|]. split; [exact Hd2|].
    exists j2. rewrite Z.add_0_r, app_nil_r. auto. }
  set (w3 := if depth <? l_maxDepth l then emit ExtractLinks w2 else w2) in *.
  unfold persist. unfold mbind, M_bind, bind, get_loop, on_world. cbn [fst snd].
  match goal with |- context [advise url depth o (?w4, l3)] =>
    pose proof (advise_records url depth o w4 l3) as Ha; cbv zeta in Ha;
    destruct (advise url depth o (w4, l3)) as [r5 [w5 l5]] end.
  cbn [fst snd] in *. destruct Ha as (Hheap5 & Hdb5 & ->).
  rewrite Hheap5, Hdb5, Hopt3, Hid3. cbn [heap db updateOne set_db]. rewrite Hheap3.
  split; [reflexivity|]. split; [exact Hd2|].
  rewrite lookup_alter_eq, Hdb3, Hj2. cbn. eexists. split; [reflexivity|]. cbn.
  rewrite Hp2, Hv2. auto.
Qed.

(** One iteration of the crawl loop on a running job records the url in
    every case: the screenshot is kept when the capture stage returns; the
    page is counted and its url stored when the capture and the link
    extraction return; one error entry, in the job object and in the store,
    is added exactly when a stage throws. A failure of the advisory stage
    comes after the page was counted, so that page is counted and has an
    error. The status does not change and the loop is back at its test. *)
Theorem iteration_records_a_page_or_an_error
    (o : Outcome) (w : World) (l : Loop) (crawlData : CrawlData) (crawlJob : CrawlJob)
    (url : string) (depth : Z) (rest : list (string * Z)) :
  l_pc l = AtLoopHead ->
  heap w !! l_crawlData l = Some crawlData ->
  cd_status crawlData = running ->
  db w !! l_crawlId l = Some crawlJob ->
  dequeue (l_visitedUrls l) (l_maxDepth l) (l_urlQueue l) = Some (url, depth, rest) ->
  let w' := fst (tick o (w, l)) in
  let l' := snd (tick o (w, l)) in
  let failure := iteration_failure (l_options l) depth (l_maxDepth l) o in
  let kept := persisted (l_options l) depth (l_maxDepth l) o in
  (exists crawlData',
     heap w' !! l_crawlData l = Some crawlData'
     /\ cd_capturedScreenshots crawlData'
        = cd_capturedScreenshots crawlData
          ++ match capture_failure (l_options l) o with
             | Some _ => []
             | None => [shot_path w l o]
             end
     /\ cd_errors crawlData'
        = cd_errors crawlData
          ++ match failure with
             | Some message => [UrlError url message (o_now o)]
             | None => []
             end
     /\ cd_status crawlData' = running)
  /\ (exists crawlJob',
        db w' !! l_crawlId l = Some crawlJob'
        /\ j_pagesProcessed crawlJob' = j_pagesProcessed crawlJob + (if kept then 1 else 0)
        /\ j_visitedUrls crawlJob' = j_visitedUrls crawlJob ++ (if kept then [url] else [])
        /\ j_errors crawlJob'
           = j_errors crawlJob
             ++ match failure with
                | Some message =>
                    [{| e_url := url; e_message := message; e_timestamp := o_now o |}]
                | None => []
                end
        /\ j_status crawlJob' = j_status crawlJob)
  /\ (kept = true \/ is_Some failure)
  /\ l_pc l' = AtLoopHead
  /\ url ∈ l_visitedUrls l'.
Proof.
  intros Hpc Hd Hrunning Hj Hdeq. cbv zeta. unfold tick. rewrite Hpc.
  assert (Hstatus : status_of w (l_crawlData l) = Some running)
    by (unfold status_of; rewrite Hd; cbn; now f_equal).
  destruct (decide (status_of w (l_crawlData l) = Some running)) as [_|Hne]; [|contradiction].
  rewrite Hdeq.
  pose proof (process_url_records url depth o w (enter url depth rest l) crawlData crawlJob
                Hd Hj) as Hrec.
  pose proof (queue_step_process_url url depth o (w, enter url depth rest l)) as [Hloop _].
  cbv zeta in Hrec. cbn [fst snd l_options l_maxDepth l_crawlId l_crawlData enter
    set_l_urlQueue set_l_visitedUrls set_l_yielded] in Hrec, Hloop.
  change (shot_path w (enter url depth rest l) o) with (shot_path w l o) in Hrec.
  destruct (process_url url depth o (w, enter url depth rest l)) as [r [w1 l1]].
  cbn [fst snd] in Hrec, Hloop.
  destruct Hrec as (Hr & (d1 & Hd1 & Hshots & Herrors & Hstatus1) & (j1 & Hj1 & Hp & Hv & He & Hs)).
  assert (Hl1 : l_pc l1 = AtLoopHead /\ url ∈ l_visitedUrls l1 /\ l_crawlData l1 = l_crawlData l
                /\ l_crawlId l1 = l_crawlId l).
  { rewrite Hloop. cbn. rewrite Hpc. repeat split. apply elem_of_union. left.
    now apply elem_of_singleton. }
  destruct Hl1 as (Hpc1 & Hvisited1 & Href1 & Hid1).
  assert (Hsome : persisted (l_options l) depth (l_maxDepth l) o = true
                  \/ is_Some (iteration_failure (l_options l) depth (l_maxDepth l) o)).
  { unfold persisted, iteration_failure.
    destruct (capture_failure (l_options l) o); [right; eauto|].
    destruct (discover_failure depth (l_maxDepth l) o); [right; eauto|now left]. }
  destruct (iteration_failure (l_options l) depth (l_maxDepth l) o) as [message|]; subst r.
  - cbn [settle record_error fst snd]. rewrite Href1, Hid1.
    cbn [heap db update_data updateOne set_heap set_db].
    rewrite list_lookup_alter_eq, Hd1, lookup_alter_eq, Hj1. cbn.
    split; [eexists; split; [reflexivity|]; cbn; rewrite Herrors; repeat split; congruence|].
    split; [eexists; split; [reflexivity|]; cbn; rewrite He; repeat split; congruence|].
    auto.
  - cbn [settle fst snd]. rewrite !app_nil_r.
    split; [exists d1; repeat split; congruence|].
    split; [exists j1; repeat split; congruence|]. auto.
Qed.

Lemma iteration_records_a_page_or_an_error_witness :
  exists crawlJob',
    db (fst (tick title_fails (world (started no_ocr), start_loop no_ocr))) !! "job"%string
    = Some crawlJob'
    /\ j_pagesProcessed crawlJob' = 1
    /\ j_visitedUrls crawlJob' = ["http://a"%string]
    /\ j_errors crawlJob'
       = [{| e_url := "http://a"; e_message := "Execution context was destroyed";
             e_timestamp := 10 |}]
    /\ j_status crawlJob' = running.
Proof.
  destruct (iteration_records_a_page_or_an_error title_fails (world (started no_ocr))
              (start_loop no_ocr) (start_data no_ocr) start_job "http://a"%string 0 [])
    as (_ & Hjob & _); try reflexivity.
  exact Hjob.
Defined.

(** ** Commands *)

Lemma world_ok_reachable es : world_ok (world (run initial es)).
Proof. apply world_ok_run, world_ok_initial. Qed.

Lemma active_report crawlId now w status :
  (exists report, getCrawlStatus crawlId now w = Some report
                  /\ s_isActive report = true /\ s_status report = status)
  <-> exists ref crawlData,
        activeCrawls w !! crawlId = Some ref /\ heap w !! ref = Some crawlData
        /\ cd_status crawlData = status.
Proof.
  unfold getCrawlStatus.
  destruct (activeCrawls w !! crawlId) as [ref|] eqn:Hid; cbn [mbind option_bind].
  - destruct (heap w !! ref) as [d|] eqn:Hd.
    + split.
      * intros (report & [= <-] & _ & Hs). cbn in Hs. exists ref, d. auto.
      * intros (ref' & d' & [= <-] & Hd' & Hs). rewrite Hd in Hd'. injection Hd' as <-.
        eexists. split; [reflexivity|]. cbn. auto.
    + split.
      * intros (report & Hr & Ha & _). destruct (db w !! crawlId); [|discriminate].
        injection Hr as <-. discriminate.
      * intros (ref' & d' & [= <-] & Hd' & _). congruence.
  - split.
    + intros (report & Hr & Ha & _). destruct (db w !! crawlId); [|discriminate].
      injection Hr as <-. discriminate.
    + intros (ref' & d' & [=] & _).
Qed.

(** In every state the service can reach, [pauseCrawl] succeeds exactly
    when the status query reports the job active and running,
    [resumeCrawl] exactly when it reports it active and paused, [stopCrawl]
    exactly when it reports it active; a command that returns [false]
    changes nothing and starts no crawl loop. *)
Theorem commands_succeed_by_status (es : list Event) (crawlId : string) (t now : Z) :
  let w := world (run initial es) in
  let active_with (status : Status) :=
    exists report, getCrawlStatus crawlId now w = Some report
                   /\ s_isActive report = true /\ s_status report = status in
  (fst (pauseCrawl crawlId t w) = true <-> active_with running)
  /\ (fst (fst (resumeCrawl crawlId t w)) = true <-> active_with paused)
  /\ (fst (stopCrawl crawlId t w) = true <-> exists status, active_with status)
  /\ (fst (pauseCrawl crawlId t w) = false -> snd (pauseCrawl crawlId t w) = w)
  /\ (fst (fst (resumeCrawl crawlId t w)) = false -> resumeCrawl crawlId t w = (false, w, None))
  /\ (fst (stopCrawl crawlId t w) = false -> snd (stopCrawl crawlId t w) = w).
Proof.
  cbv zeta. pose proof (world_ok_reachable es) as [_ Hrefs].
  set (w := world (run initial es)) in *.
  assert (Hheap : forall ref, activeCrawls w !! crawlId = Some ref -> is_Some (heap w !! ref)).
  { intros ref Hid. apply lookup_lt_is_Some. eauto. }
  split; [|split; [|split; [|split; [|split]]]].
  - rewrite active_report. unfold pauseCrawl.
    destruct (activeCrawls w !! crawlId) as [ref|] eqn:Hid; cbn [mbind option_bind].
    + destruct (heap w !! ref) as [d|] eqn:Hd; cbn [fmap option_fmap option_map].
      * case_decide as Hst; cbn [fst].
        -- split; [intros _; exists ref, d; auto|reflexivity].
        -- split; [discriminate|]. intros (r' & d' & [= <-] & Hd' & Hs).
           rewrite Hd in Hd'. injection Hd' as <-. contradiction.
      * split; [discriminate|]. intros (r' & d' & [= <-] & Hd' & _). congruence.
    + split; [discriminate|]. intros (r' & d' & [=] & _).
  - rewrite active_report. unfold resumeCrawl.
    destruct (activeCrawls w !! crawlId) as [ref|] eqn:Hid; cbn [mbind option_bind].
    + destruct (heap w !! ref) as [d|] eqn:Hd; cbn [fmap option_fmap option_map].
      * case_decide as Hst.
        -- destruct (processCrawl _ _ _ _ _ _). cbn [fst].
           split; [intros _; exists ref, d; auto|reflexivity].
        -- cbn [fst]. split; [discriminate|]. intros (r' & d' & [= <-] & Hd' & Hs).
           rewrite Hd in Hd'. injection Hd' as <-. contradiction.
      * split; [discriminate|]. intros (r' & d' & [= <-] & Hd' & _). congruence.
    + split; [discriminate|]. intros (r' & d' & [=] & _).
  - unfold stopCrawl. destruct (activeCrawls w !! crawlId) as [ref|] eqn:Hid; cbn [fst].
    + split; [intros _|reflexivity]. destruct (Hheap ref eq_refl) as [d Hd].
      exists (cd_status d). apply active_report. exists ref, d. auto.
    + split; [discriminate|]. intros (status & Hactive).
      apply active_report in Hactive as (? & ? & Hid' & _). congruence.
  - unfold pauseCrawl. destruct (activeCrawls w !! crawlId ≫= _) as [[ref d]|]; [|reflexivity].
    case_decide; [discriminate|reflexivity].
  - unfold resumeCrawl. destruct (activeCrawls w !! crawlId ≫= _) as [[ref d]|]; [|reflexivity].
    case_decide; [|reflexivity]. destruct (processCrawl _ _ _ _ _ _). discriminate.
  - unfold stopCrawl. destruct (activeCrawls w !! crawlId); [discriminate|reflexivity].
Qed.





Lemma dequeue_exhausted visited maxDepth queue :
  (forall e, e ∈ queue -> e.1 ∈ visited \/ maxDepth < e.2) ->
  dequeue visited maxDepth queue = None.
Proof.
  induction queue as [|[u d] queue IH]; intros H; [reflexivity|]. cbn [dequeue].
  assert (Hrest : dequeue visited maxDepth queue = None).
  { apply IH. intros e He. apply H. apply elem_of_cons. now right. }
  destruct (H (u, d)) as [Hv|Hdeep]; [apply elem_of_cons; now left| |]; cbn in *.
  - destruct (decide (u ∈ visited)); [exact Hrest|contradiction].
  - destruct (decide (u ∈ visited)); [exact Hrest|].
    destruct (Z.gtb_spec d maxDepth); [exact Hrest|lia].
Qed.

(** When the loop test finds a running job whose queued entries are all
    visited or too deep, the loop returns with an empty queue: the job is
    marked [completed] in the job object and in the store, with the time of
    completion, the duration since the start and the final screenshot and
    error counts, its pages, its context and its browser are closed, and it
    leaves the Map. *)
Theorem exhausted_frontier_completes_the_job
    (o : Outcome) (w : World) (l : Loop) (crawlData : CrawlData) (crawlJob : CrawlJob) :
  l_pc l = AtLoopHead ->
  activeCrawls w !! l_crawlId l = Some (l_crawlData l) ->
  heap w !! l_crawlData l = Some crawlData ->
  cd_status crawlData = running ->
  db w !! l_crawlId l = Some crawlJob ->
  (forall e, e ∈ l_urlQueue l -> e.1 ∈ l_visitedUrls l \/ l_maxDepth l < e.2) ->
  let w' := fst (tick o (w, l)) in
  let l' := snd (tick o (w, l)) in
  l_pc l' = Returned
  /\ l_urlQueue l' = []
  /\ activeCrawls w' !! l_crawlId l = None
  /\ status_of w' (l_crawlData l) = Some completed
  /\ (exists crawlJob',
        db w' !! l_crawlId l = Some crawlJob'
        /\ j_status crawlJob' = completed
        /\ j_completedAt crawlJob' = Some (o_now o)
        /\ j_duration crawlJob' = o_now o - cd_startTime crawlData
        /\ j_screenshotCount crawlJob'
           = Z.of_nat (length (cd_capturedScreenshots crawlData))
        /\ j_errorCount crawlJob' = Z.of_nat (length (cd_errors crawlData))
        /\ j_pagesProcessed crawlJob' = j_pagesProcessed crawlJob
        /\ j_visitedUrls crawlJob' = j_visitedUrls crawlJob)
  /\ trace w' = trace w ++ map Close (cd_pages crawlData)
                 ++ [Close (cd_context crawlData); Close (cd_browser crawlData)].
Proof.
  intros Hpc Hid Hd Hrunning Hj Hqueue. cbv zeta. unfold tick. rewrite Hpc.
  assert (Hstatus : status_of w (l_crawlData l) = Some running)
    by (unfold status_of; rewrite Hd; cbn; now f_equal).
  destruct (decide (status_of w (l_crawlData l) = Some running)) as [_|Hne]; [|contradiction].
  rewrite (dequeue_exhausted _ _ _ Hqueue).
  unfold leave_loop. cbn [l_crawlId set_l_urlQueue fst snd l_pc set_l_pc l_urlQueue].
  unfold updateCrawlStatus. cbn [terminal truthy].
  cbn [activeCrawls updateOne set_db]. rewrite Hid, Hj. cbn [fmap option_fmap option_map].
  unfold cleanupCrawl.
  cbn [activeCrawls heap update_data updateOne set_heap set_db]. rewrite Hid.
  rewrite list_lookup_alter_eq, Hd. cbn [fmap option_fmap option_map].
  cbn [activeCrawls heap db trace update_data updateOne set_heap set_db set_trace
       set_activeCrawls status_of].
  split; [reflexivity|]. split; [reflexivity|]. split; [apply lookup_delete_eq|].
  split.
  { unfold status_of.
    cbn [heap set_activeCrawls updateOne set_db set_trace update_data set_heap].
    now rewrite list_lookup_alter_eq, Hd. }
  split; [|reflexivity].
  rewrite !lookup_alter_eq, Hj. eexists. split; [reflexivity|]. cbn. repeat split.
Qed.

Lemma exhausted_frontier_completes_the_job_witness :
  l_urlQueue (loop_after self_link) = [("http://a"%string, 1)]
  /\ l_pc (snd (tick (page_ok 20 [] None)
                  (world (run initial self_link), loop_after self_link))) = Returned
  /\ activeCrawls (fst (tick (page_ok 20 [] None)
                          (world (run initial self_link), loop_after self_link)))
       !! "job"%string = None.
Proof.
  split; [vm_compute; reflexivity|].
  destruct (exhausted_frontier_completes_the_job (page_ok 20 [] None)
              (world (run initial self_link)) (loop_after self_link)
              (data_after self_link) (job_after self_link))
    as (Hpc & _ & Hactive & _); try (vm_compute; reflexivity).
  - intros e He. left.
    replace (l_urlQueue (loop_after self_link)) with [("http://a"%string, 1)] in He
      by (vm_compute; reflexivity).
    apply list_elem_of_singleton in He. subst e. cbn [fst].
    apply (bool_decide_unpack _). vm_compute. exact I.
  - split; [exact Hpc|exact Hactive].
Defined.

(** ** Stored recognition results *)

Lemma results_ok_updateOne id g w :
  (forall j, j_ocrResults (g j) = j_ocrResults j) ->
  results_ok w -> results_ok (updateOne id g w).
Proof.
  intros Hg H id' j r Hj Hr. cbn in Hj. rewrite lookup_alter in Hj. case_decide.
  - subst id'. destruct (db w !! id) as [j0|] eqn:Hj0; simplify_eq/=.
    rewrite Hg in Hr. eauto.
  - eauto.
Qed.

Lemma results_ok_db w w' : db w' = db w -> results_ok w -> results_ok w'.
Proof. intros Hdb H id j r. rewrite Hdb. apply H. Qed.

Lemma results_ok_updateCrawlStatus id status message now w :
  results_ok w -> results_ok (updateCrawlStatus id status message now w).
Proof.
  intros H. unfold updateCrawlStatus.
  match goal with |- context [updateOne id ?g w] => set (update := g) end.
  assert (H1 : results_ok (updateOne id update w)).
  { apply results_ok_updateOne; [|exact H]. intros j. subst update. cbn.
    destruct ((if terminal status then _ else _) : option Z); destruct status; reflexivity. }
  destruct (activeCrawls (updateOne id update w) !! id); [|exact H1].
  eapply results_ok_db; [|exact H1]. reflexivity.
Qed.

Lemma results_ok_cleanupCrawl id now w : results_ok w -> results_ok (cleanupCrawl id now w).
Proof.
  intros H. unfold cleanupCrawl. destruct (activeCrawls w !! id) as [ref|]; [|exact H].
  destruct (heap w !! ref) as [crawlData|]; [|exact H].
  match goal with |- context [updateOne id ?g ?w0] =>
    assert (H1 : results_ok (updateOne id g w0))
      by (apply results_ok_updateOne; [reflexivity|exact H]) end.
  eapply results_ok_db; [|exact H1]. reflexivity.
Qed.

Lemma results_ok_pauseCrawl id now w : results_ok w -> results_ok (snd (pauseCrawl id now w)).
Proof.
  intros H. unfold pauseCrawl.
  destruct (activeCrawls w !! id ≫= _) as [[ref crawlData]|]; [|exact H].
  case_decide; [|exact H]. cbn [snd]. apply results_ok_updateOne; [reflexivity|exact H].
Qed.

Lemma results_ok_stopCrawl id now w : results_ok w -> results_ok (snd (stopCrawl id now w)).
Proof.
  intros H. unfold stopCrawl. destruct (activeCrawls w !! id) as [ref|]; [|exact H].
  cbn [snd]. apply results_ok_cleanupCrawl, results_ok_updateOne; [reflexivity|exact H].
Qed.

Lemma results_ok_processCrawl id url depth options now w :
  results_ok w -> results_ok (fst (processCrawl id url depth options now w)).
Proof.
  intros H. unfold processCrawl. destruct (activeCrawls w !! id) as [ref|]; cbn [fst].
  - exact H.
  - now apply results_ok_updateCrawlStatus.
Qed.

Lemma results_ok_resumeCrawl id now w :
  results_ok w -> results_ok (snd (fst (resumeCrawl id now w))).
Proof.
  intros H. unfold resumeCrawl.
  destruct (activeCrawls w !! id ≫= _) as [[ref crawlData]|]; [|exact H].
  case_decide; [|exact H].
  match goal with |- context [processCrawl ?a ?b ?c ?d ?e ?w1] =>
    pose proof (results_ok_processCrawl a b c d e w1) as Hp;
    destruct (processCrawl a b c d e w1) as [w2 l2] end.
  cbn [fst snd] in *. apply Hp. apply results_ok_updateOne; [reflexivity|exact H].
Qed.

Lemma results_ok_startCrawl id url depth options now w :
  results_ok w -> results_ok (fst (startCrawl id url depth options now w)).
Proof.
  intros H. unfold startCrawl. destruct (save_rejects id url depth w); [exact H|].
  unfold launch. apply results_ok_processCrawl.
  intros id' j r Hj Hr. cbn in Hj.
  apply lookup_insert_Some in Hj as [[_ <-]|[_ Hj]]; [|eauto].
  cbn in Hr. now apply elem_of_nil in Hr.
Qed.

(** The recognition stage stores nothing, or one result: its confidence
    is the one computed from the recognised text, or 0 when the recognition
    failed with an empty message. *)
Lemma recognize_stores path url o w l :
  let w' := fst (snd (recognize path url o (w, l))) in
  db w' = db w
  \/ exists c,
       percentage c
       /\ db w' = alter (fun j =>
                    set_j_ocrResults
                      (j_ocrResults j ++
                         [{| r_screenshotPath := path; r_ocrResultId := o_uuid o;
                             r_confidence := c; r_timestamp := o_now o |}]) j)
                    (l_crawlId l) (db w).
Proof.
  unfold recognize, mbind, M_bind, bind, get_loop, when, try_ignore. cbn.
  destruct (negb _ && negb _); cbn; [|now left].
  unfold processScreenshotWithOCR, mbind, M_bind, bind, on_world. cbn.
  destruct (o_ocr o) as [[t|[|c message]]|message]; cbn; [| |now left..].
  - right. exists (Ocr.calculateConfidence t).
    split; [apply calculateConfidence_percentage|reflexivity].
  - right. exists 0%R. split; [|reflexivity]. exists 0. split; [reflexivity|lia].
Qed.

Lemma results_ok_process_url url depth o s :
  results_ok (fst s) -> results_ok (fst (snd (process_url url depth o s))).
Proof.
  destruct s as [w l]. cbn [fst]. intros H.
  unfold process_url, mbind, M_bind, bind.
  pose proof (capture_records url depth o w l) as Hc. cbv zeta in Hc.
  destruct (capture url depth o (w, l)) as [[path|m] [w1 l1]]; cbn [fst snd] in *;
    destruct Hc as (-> & Hdb1 & _); [|now apply (results_ok_db w)].
  assert (H1 : results_ok w1) by now apply (results_ok_db w).
  pose proof (recognize_records path url o w1 l) as (Hr & Hl & _). cbv zeta in Hr, Hl.
  pose proof (recognize_stores path url o w1 l) as Hs. cbv zeta in Hs.
  destruct (recognize path url o (w1, l)) as [r2 [w2 l2]]. cbn [fst snd] in *. subst r2 l2.
  assert (H2 : results_ok w2).
  { destruct Hs as [Hs|(c & Hc & Hs)]; [now apply (results_ok_db w1)|].
    intros id j r Hj Hin. rewrite Hs in Hj. rewrite lookup_alter in Hj. case_decide.
    - subst id. destruct (db w1 !! l_crawlId l) as [j0|] eqn:Hj0; simplify_eq/=.
      apply elem_of_app in Hin as [Hin|Hin]; [eauto|].
      apply list_elem_of_singleton in Hin. subst r. cbn. exact Hc.
    - eauto. }
  pose proof (discover_records depth o w2 l) as Hd. cbv zeta in Hd.
  destruct (discover depth o (w2, l)) as [r3 [w3 l3]]. cbn [fst snd] in *.
  destruct Hd as (-> & _ & ->).
  assert (H3 : results_ok (if depth <? l_maxDepth l then emit ExtractLinks w2 else w2))
    by (destruct (depth <? l_maxDepth l); exact H2).
  destruct (discover_failure depth (l_maxDepth l) o); [exact H3|].
  unfold persist, mbind, M_bind, bind, get_loop, on_world. cbn [fst snd].
  match goal with |- context [advise url depth o (?w4, l3)] =>
    pose proof (advise_records url depth o w4 l3) as (_ & Ha & _); cbv zeta in Ha;
    assert (H4 : results_ok w4) by (apply results_ok_updateOne; [reflexivity|exact H3]);
    destruct (advise url depth o (w4, l3)) as [r5 [w5 l5]] end.
  cbn [fst snd] in *. now apply (results_ok_db _ _ Ha).
Qed.

Lemma results_ok_tick o s : results_ok (fst s) -> results_ok (fst (tick o s)).
Proof.
  destruct s as [w l]. intros H. unfold tick. destruct (l_pc l); [|exact H].
  assert (Hleave : forall l', results_ok (fst (leave_loop (o_now o) (w, l')))).
  { intros l'. cbn. now apply results_ok_cleanupCrawl, results_ok_updateCrawlStatus. }
  case_decide; [|apply Hleave].
  destruct (dequeue _ _ _) as [[[url depth] rest]|]; [|apply Hleave].
  match goal with |- context [process_url url depth o ?s1] =>
    pose proof (results_ok_process_url url depth o s1 H) as Hp;
    destruct (process_url url depth o s1) as [[[]|message] [w2 l2]] end.
  - exact Hp.
  - cbn in *. apply results_ok_updateOne; [reflexivity|].
    eapply results_ok_db; [|exact Hp]. reflexivity.
Qed.

Lemma results_ok_step s e : results_ok (world s) -> results_ok (world (step s e)).
Proof.
  intros H. destruct e as [id url depth options now|id now|id now|id now|i o]; cbn [step].
  - pose proof (results_ok_startCrawl id url depth options now _ H) as Hs.
    destruct (startCrawl id url depth options now (world s)). exact Hs.
  - now apply results_ok_pauseCrawl.
  - pose proof (results_ok_resumeCrawl id now _ H) as Hr.
    destruct (resumeCrawl id now (world s)) as [[b w] l]. exact Hr.
  - now apply results_ok_stopCrawl.
  - destruct (loops s !! i) as [l|]; [|exact H].
    pose proof (results_ok_tick o (world s, l) H) as Ht.
    destruct (tick o (world s, l)). exact Ht.
Qed.

Lemma results_ok_run es : forall s, results_ok (world s) -> results_ok (world (run s es)).
Proof.
  induction es as [|e es IH]; intros s H; [exact H|].
  cbn. apply IH. now apply results_ok_step.
Qed.

(** In every state the service can reach, the confidence of every
    recognition result stored with a job is a whole number between 0 and
    100: the one computed from the recognised text, or 0 for the result
    stored after a recognition that failed with an empty message. *)
Theorem stored_results_have_a_percentage_confidence
    (es : list Event) (crawlId : string) (crawlJob : CrawlJob) (result : DbOcr) :
  db (world (run initial es)) !! crawlId = Some crawlJob ->
  result ∈ j_ocrResults crawlJob ->
  exists z, r_confidence result = IZR z /\ 0 <= z <= 100.
Proof.
  apply (results_ok_run es initial). intros id j r Hj. cbn in Hj.
  now rewrite lookup_empty in Hj.
Qed.

Lemma ocr_crawl_stored :
  j_ocrResults <$> db (world (run initial ocr_crawl)) !! "job"%string
  = Some [recognized_result].
Proof. reflexivity. Qed.

Lemma stored_results_have_a_percentage_confidence_witness :
  exists z, r_confidence recognized_result = IZR z /\ 0 <= z <= 100.
Proof.
  pose proof ocr_crawl_stored as Hstored.
  destruct (db (world (run initial ocr_crawl)) !! "job"%string) as [crawlJob|] eqn:Hj;
    [|discriminate].
  injection Hstored as Hresults.
  apply (stored_results_have_a_percentage_confidence ocr_crawl "job"%string crawlJob
           recognized_result Hj).
  rewrite Hresults. apply list_elem_of_singleton. reflexivity.
Defined.

(** ** The frontier *)

Lemma discover_loop depth o w l :
  exists links,
    snd (snd (discover depth o (w, l)))
    = set_l_urlQueue (l_urlQueue l ++ map (fun link => (link, depth + 1)) links) l
    /\ (links = [] \/ (o_links o = Ok links /\ depth < l_maxDepth l)).
Proof.
  unfold discover, mbind, M_bind, bind, get_loop, await_value, on_loop. cbn [fst snd].
  destruct (Z.ltb_spec depth (l_maxDepth l)) as [Hlt|Hge]; cbn [when ret snd].
  - destruct (o_links o) as [links|m] eqn:Hlinks; cbn [snd].
    + exists links. rewrite push_links_app. split; [reflexivity|]. right. auto.
    + exists []. rewrite app_nil_r. split; [apply set_l_urlQueue_same|now left].
  - exists []. rewrite app_nil_r. split; [apply set_l_urlQueue_same|now left].
Qed.

Lemma advise_loop url depth o w l :
  exists ps,
    snd (snd (advise url depth o (w, l)))
    = set_l_urlQueue (unshift_priority (l_visitedUrls l) depth ps (l_urlQueue l)) l
    /\ (ps = [] \/ (o_priorityUrls o = Some ps /\ is_false (useAI (l_options l)) = false)).
Proof.
  unfold advise, mbind, M_bind, bind, get_loop, await, on_world, on_loop. cbn [fst snd].
  destruct (is_false (useAI (l_options l))) eqn:Hai; cbn [negb when ret snd].
  { exists []. split; [apply set_l_urlQueue_same|now left]. }
  destruct (o_title o); cbn [snd].
  { exists []. split; [apply set_l_urlQueue_same|now left]. }
  destruct (o_priorityUrls o) as [[|p ps]|] eqn:Hps; cbn [snd ret].
  - exists []. split; [apply set_l_urlQueue_same|now left].
  - exists (p :: ps). split; [reflexivity|]. right. auto.
  - exists []. split; [apply set_l_urlQueue_same|now left].
Qed.

(** The queue after the [try] block of an iteration: the extracted links at
    the tail, then the suggested urls that are not visited at the head. *)
Lemma process_url_loop url depth o w l :
  exists links ps,
    snd (snd (process_url url depth o (w, l)))
    = set_l_urlQueue
        (unshift_priority (l_visitedUrls l) depth ps
           (l_urlQueue l ++ map (fun link => (link, depth + 1)) links)) l
    /\ (links = [] \/ (o_links o = Ok links /\ depth < l_maxDepth l))
    /\ (ps = [] \/ (o_priorityUrls o = Some ps /\ is_false (useAI (l_options l)) = false)).
Proof.
  assert (Hnone : snd (snd (process_url url depth o (w, l))) = l ->
            exists links ps,
              snd (snd (process_url url depth o (w, l)))
              = set_l_urlQueue
                  (unshift_priority (l_visitedUrls l) depth ps
                     (l_urlQueue l ++ map (fun link => (link, depth + 1)) links)) l
              /\ (links = [] \/ (o_links o = Ok links /\ depth < l_maxDepth l))
              /\ (ps = [] \/ (o_priorityUrls o = Some ps
                              /\ is_false (useAI (l_options l)) = false))).
  { intros ->. exists [], []. rewrite app_nil_r. split; [apply set_l_urlQueue_same|].
    split; now left. }
  revert Hnone. unfold process_url, mbind, M_bind, bind.
  pose proof (capture_records url depth o w l) as Hc. cbv zeta in Hc.
  destruct (capture url depth o (w, l)) as [[path|m] [w1 l1]]; cbn [fst snd] in *;
    destruct Hc as (-> & _); [|now intros H; apply H].
  pose proof (recognize_records path url o w1 l) as (Hr & Hl & _). cbv zeta in Hr, Hl.
  destruct (recognize path url o (w1, l)) as [r2 [w2 l2]]. cbn [fst snd] in *. subst r2 l2.
  destruct (discover_loop depth o w2 l) as (links & Hl3 & Hlinks).
  destruct (discover depth o (w2, l)) as [[[]|m] [w3 l3]]; cbn [fst snd] in *.
  - intros _. unfold persist, mbind, M_bind, bind, get_loop, on_world. cbn [fst snd].
    match goal with |- context [advise url depth o (?w4, l3)] =>
      destruct (advise_loop url depth o w4 l3) as (ps & Hl5 & Hps);
      destruct (advise url depth o (w4, l3)) as [r5 [w5 l5]] end.
    cbn [fst snd] in *. subst l5 l3. exists links, ps. cbn. auto.
  - intros _. subst l3. exists links, []. cbn. split; [reflexivity|]. split; [exact Hlinks|now left].
Qed.

Lemma dequeue_split visited maxDepth : forall queue url depth rest,
  dequeue visited maxDepth queue = Some (url, depth, rest) ->
  exists skipped, queue = skipped ++ (url, depth) :: rest.
Proof.
  induction queue as [|[u d] queue IH]; intros url depth rest H; cbn in H; [discriminate|].
  assert (Hrec : dequeue visited maxDepth queue = Some (url, depth, rest) ->
                 exists skipped, (u, d) :: queue = skipped ++ (url, depth) :: rest).
  { intros H'. destruct (IH _ _ _ H') as [skipped ->]. now exists ((u, d) :: skipped). }
  case_decide; [now apply Hrec|].
  destruct (d >? maxDepth); [now apply Hrec|].
  injection H as <- <- <-. now exists [].
Qed.

(** The locals of the loop after one scheduling step. *)
Lemma tick_loop o w l :
  let l' := snd (tick o (w, l)) in
  (l_yielded l' = l_yielded l /\ l_visitedUrls l' = l_visitedUrls l
   /\ l_startUrl l' = l_startUrl l /\ l_options l' = l_options l
   /\ (l_urlQueue l' = l_urlQueue l \/ l_urlQueue l' = []))
  \/ exists skipped url depth rest links ps,
       l_urlQueue l = skipped ++ (url, depth) :: rest
       /\ (url ∉ l_visitedUrls l) /\ depth <= l_maxDepth l
       /\ l_yielded l' = l_yielded l ++ [(url, depth)]
       /\ l_visitedUrls l' = {[url]} ∪ l_visitedUrls l
       /\ l_startUrl l' = l_startUrl l /\ l_options l' = l_options l
       /\ l_urlQueue l'
          = unshift_priority ({[url]} ∪ l_visitedUrls l) depth ps
              (rest ++ map (fun link => (link, depth + 1)) links)
       /\ (links = [] \/ (o_links o = Ok links /\ depth < l_maxDepth l))
       /\ (ps = [] \/ (o_priorityUrls o = Some ps /\ is_false (useAI (l_options l)) = false)).
Proof.
  cbv zeta. unfold tick. destruct (l_pc l); [|left; auto 10].
  case_decide; [|left; cbn; auto 10].
  destruct (dequeue _ _ _) as [[[url depth] rest]|] eqn:Hdq; [|left; cbn; auto 10].
  right. destruct (dequeue_split _ _ _ _ _ _ Hdq) as [skipped Hsplit].
  apply dequeue_spec in Hdq as (Hfresh & Hdepth & _).
  destruct (process_url_loop url depth o w (enter url depth rest l)) as (links & ps & Hl' & Hlinks & Hps).
  exists skipped, url, depth, rest, links, ps.
  assert (Hsettle : snd (settle url (o_now o) (process_url url depth o (w, enter url depth rest l)))
                    = snd (snd (process_url url depth o (w, enter url depth rest l)))).
  { destruct (process_url url depth o (w, enter url depth rest l)) as [[[]|m] [w2 l2]];
      reflexivity. }
  rewrite Hsettle, Hl'. cbn. auto 12.
Qed.

Lemma loops_invariant (I : Loop -> Prop) (ok : Outcome -> Prop) :
  (forall l, l_yielded l = [] -> l_urlQueue l = [(l_startUrl l, 0)] -> I l) ->
  (forall o w l, ok o -> I l -> I (snd (tick o (w, l)))) ->
  forall es, (forall i o, Tick i o ∈ es -> ok o) ->
  forall i l, loops (run initial es) !! i = Some l -> I l.
Proof.
  intros Hfresh Htick.
  assert (Hnew : forall id url depth options now w l,
            snd (processCrawl id url depth options now w) = Some l -> I l).
  { intros id url depth options now w l. unfold processCrawl.
    destruct (activeCrawls w !! id); cbn; [|discriminate]. intros [= <-]. now apply Hfresh. }
  assert (Hadd : forall l ls, (forall l', l = Some l' -> I l') -> Forall I ls ->
            Forall I (add_loop l ls)).
  { intros [l'|] ls Hl Hls; [|exact Hls]. apply Forall_app. split; [exact Hls|].
    constructor; [now apply Hl|constructor]. }
  assert (Hstep : forall s e, (forall i o, e = Tick i o -> ok o) ->
            Forall I (loops s) -> Forall I (loops (step s e))).
  { intros s e Hok H. destruct e as [id url depth options now|id now|id now|id now|i o];
      cbn [step].
    - unfold startCrawl. destruct (save_rejects id url depth (world s)); [exact H|].
      unfold launch.
      match goal with |- context [processCrawl ?a ?b ?c ?d ?e ?w1] =>
        pose proof (Hnew a b c d e w1) as Hp;
        destruct (processCrawl a b c d e w1) as [w2 l2] end.
      cbn. apply Hadd; [exact Hp|exact H].
    - exact H.
    - unfold resumeCrawl.
      destruct (activeCrawls (world s) !! id ≫= _) as [[ref crawlData]|]; [|exact H].
      case_decide; [|exact H].
      match goal with |- context [processCrawl ?a ?b ?c ?d ?e ?w1] =>
        pose proof (Hnew a b c d e w1) as Hp;
        destruct (processCrawl a b c d e w1) as [w2 l2] end.
      cbn. apply Hadd; [exact Hp|exact H].
    - exact H.
    - destruct (loops s !! i) as [l|] eqn:Hl; [|exact H].
      pose proof (Htick o (world s) l (Hok i o eq_refl)) as Ht.
      destruct (tick o (world s, l)) as [w' l']. cbn in *.
      apply Forall_insert; [exact H|]. apply Ht. rewrite Forall_lookup in H. eauto. }
  assert (Hrun : forall es s, (forall i o, Tick i o ∈ es -> ok o) ->
            Forall I (loops s) -> Forall I (loops (run s es))).
  { induction es as [|e es IH]; intros s Hok H; [exact H|]. cbn. apply IH.
    - intros i o Hin. apply (Hok i). apply elem_of_cons. now right.
    - apply Hstep; [|exact H]. intros i o ->. apply (Hok i). apply elem_of_cons. now left. }
  intros es Hok i l Hl. pose proof (Hrun es initial Hok (Forall_nil_2 _)) as H.
  rewrite Forall_lookup in H. eauto.
Qed.

Lemma same_depth_sorted depth links :
  StronglySorted by_depth (map (fun link : string => (link, depth)) links).
Proof.
  induction links as [|link links IH]; cbn; constructor; [exact IH|].
  apply Forall_forall. intros e He. apply list_elem_of_fmap in He as (x & -> & _).
  unfold by_depth. cbn. lia.
Qed.

Lemma breadth_first_tick o w l :
  (useAI (l_options l) = Some false -> breadth_first l) ->
  useAI (l_options (snd (tick o (w, l)))) = Some false ->
  breadth_first (snd (tick o (w, l))).
Proof.
  intros Hinv. destruct (tick_loop o w l) as [(Hy & _ & _ & Ho & Hq)|Hcase]; cbv zeta in *.
  - rewrite Ho. intros Hoff. destruct (Hinv Hoff) as [Hsorted Hspan].
    unfold breadth_first. rewrite Hy. destruct Hq as [-> | ->]; [now split|].
    rewrite app_nil_r. split; [now apply StronglySorted_app_1_l in Hsorted|].
    intros q q' Hq. now apply elem_of_nil in Hq.
  - destruct Hcase as (skipped & url & depth & rest & links & ps & Hqueue & _ & _ & Hy & _ & _
                       & Ho & Hq' & _ & Hps).
    rewrite Ho. intros Hoff. destruct (Hinv Hoff) as [Hsorted Hspan].
    assert (ps = []) as ->.
    { destruct Hps as [->|[_ Hai]]; [reflexivity|]. rewrite Hoff in Hai. discriminate. }
    cbn [unshift_priority fold_left] in Hq'. unfold breadth_first. rewrite Hy, Hq'.
    rewrite Hqueue in Hsorted, Hspan.
    apply StronglySorted_app in Hsorted as (Hyq & Hsy & Hsq).
    apply StronglySorted_app_1_r in Hsq.
    apply StronglySorted_cons in Hsq as [Hhead Hsrest].
    rewrite Forall_forall in Hhead.
    assert (Hin : (url, depth) ∈ skipped ++ (url, depth) :: rest)
      by (apply elem_of_app; right; apply elem_of_cons; now left).
    assert (Hrest : forall q, q ∈ rest -> q ∈ skipped ++ (url, depth) :: rest)
      by (intros q Hq; apply elem_of_app; right; apply elem_of_cons; now right).
    assert (Hlow : forall q, q ∈ rest -> depth <= q.2)
      by (intros q Hq; exact (Hhead q Hq)).
    assert (Hhigh : forall q, q ∈ rest -> q.2 <= depth + 1)
      by (intros q Hq; exact (Hspan q (url, depth) (Hrest q Hq) Hin)).
    assert (Hnew : forall q, q ∈ map (fun link : string => (link, depth + 1)) links ->
              q.2 = depth + 1)
      by (intros q Hq; apply list_elem_of_fmap in Hq as (x & -> & _); reflexivity).
    split.
    + rewrite <- app_assoc. apply StronglySorted_app_2; [|exact Hsy|].
      * intros y q Hy' Hq. unfold by_depth.
        apply elem_of_app in Hq as [Hq|Hq].
        -- apply list_elem_of_singleton in Hq as ->. exact (Hyq y _ Hy' Hin).
        -- pose proof (Hyq y _ Hy' Hin) as Hyd. unfold by_depth in Hyd. cbn in Hyd.
           apply elem_of_app in Hq as [Hq|Hq]; [specialize (Hlow q Hq); lia|].
           rewrite (Hnew q Hq). lia.
      * apply (StronglySorted_app_2 _ [(url, depth)]).
        -- intros x q Hx Hq. apply list_elem_of_singleton in Hx as ->. unfold by_depth. cbn.
           apply elem_of_app in Hq as [Hq|Hq]; [now apply Hlow|]. rewrite (Hnew q Hq). lia.
        -- repeat constructor.
        -- apply StronglySorted_app_2; [|exact Hsrest|apply same_depth_sorted].
           intros x q Hx Hq. unfold by_depth. rewrite (Hnew q Hq). now apply Hhigh.
    + intros q q' Hq Hq'0.
      apply elem_of_app in Hq as [Hq|Hq], Hq'0 as [Hq'0|Hq'0].
      * exact (Hspan q q' (Hrest q Hq) (Hrest q' Hq'0)).
      * rewrite (Hnew q' Hq'0). specialize (Hhigh q Hq). lia.
      * rewrite (Hnew q Hq). specialize (Hlow q' Hq'0). lia.
      * rewrite (Hnew q Hq), (Hnew q' Hq'0). lia.
Qed.

(** When the advisory service is switched off ([useAI] is [false]) the
    crawl is breadth first: in every state the service can reach, the
    entries a crawl loop has processed followed by the entries it has
    queued are in order of depth, the queue spans at most two consecutive
    depths, and a url processed earlier is never deeper than one processed
    later. *)
Theorem crawl_is_breadth_first_without_advice (es : list Event) (i : nat) (l : Loop) :
  loops (run initial es) !! i = Some l ->
  useAI (l_options l) = Some false ->
  StronglySorted by_depth (l_yielded l ++ l_urlQueue l)
  /\ (forall q q', q ∈ l_urlQueue l -> q' ∈ l_urlQueue l -> q.2 <= q'.2 + 1)
  /\ (forall j k e e', (j <= k)%nat -> l_yielded l !! j = Some e -> l_yielded l !! k = Some e' ->
        e.2 <= e'.2).
Proof.
  intros Hl Hoff.
  assert (Hbf : breadth_first l).
  { revert Hoff.
    apply (loops_invariant (fun l => useAI (l_options l) = Some false -> breadth_first l)
             (fun _ => True)) with (es := es) (i := i); [| |auto|exact Hl].
    - intros l0 Hy Hq _. unfold breadth_first. rewrite Hy, Hq. cbn. split.
      + repeat constructor.
      + intros q q' Hq1 Hq2. apply list_elem_of_singleton in Hq1 as ->.
        apply list_elem_of_singleton in Hq2 as ->. lia.
    - intros o w l0 _. apply breadth_first_tick. }
  destruct Hbf as [Hsorted Hspan]. split; [exact Hsorted|]. split; [exact Hspan|].
  apply StronglySorted_app_1_l in Hsorted.
  intros j k e e' Hjk He He'. destruct (decide (j = k)) as [->|Hne].
  - rewrite He in He'. injection He' as <-. lia.
  - assert (Hlt : (j < k)%nat) by lia. clear Hjk Hne.
    revert j k Hlt He He'. induction Hsorted as [|x xs Hs IH Hx]; intros j k Hlt He He'.
    + discriminate.
    + destruct j as [|j], k as [|k]; cbn in *; try lia.
      * injection He as <-. rewrite Forall_forall in Hx. apply Hx.
        eapply list_elem_of_lookup_2, He'.
      * apply (IH j k); [lia|assumption..].
Qed.

Lemma crawl_is_breadth_first_without_advice_witness :
  l_yielded (loop_after two_links_no_advice) = [("http://a", 0); ("http://a/1", 1)]%string
  /\ l_urlQueue (loop_after two_links_no_advice) = [("http://a/2"%string, 1)]
  /\ StronglySorted by_depth
       (l_yielded (loop_after two_links_no_advice)
        ++ l_urlQueue (loop_after two_links_no_advice)).
Proof.
  split; [reflexivity|]. split; [reflexivity|].
  apply (crawl_is_breadth_first_without_advice two_links_no_advice 0%nat
           (loop_after two_links_no_advice)); reflexivity.
Defined.

Lemma offers_elem P visited depth ps queue e :
  Forall P ps -> e ∈ unshift_priority visited depth ps queue -> e ∈ queue \/ P e.1.
Proof.
  intros HP He. apply unshift_priority_elem in He as [He|(_ & Hin & _)]; [now left|].
  right. rewrite Forall_forall in HP. now apply HP.
Qed.

(** Whatever property [P] the links extracted from the pages and the urls
    suggested for them have, every url a crawl loop has processed or
    queued is its start url or has [P]: the frontier holds nothing the
    pages did not offer. *)
Theorem processed_urls_come_from_the_pages
    (P : string -> Prop) (es : list Event) (i : nat) (l : Loop) (e : string * Z) :
  (forall k o, Tick k o ∈ es -> offers P o) ->
  loops (run initial es) !! i = Some l ->
  e ∈ l_yielded l ++ l_urlQueue l ->
  e.1 = l_startUrl l \/ P e.1.
Proof.
  intros Hoffers Hl. revert e.
  apply (loops_invariant
           (fun l => forall e, e ∈ l_yielded l ++ l_urlQueue l -> e.1 = l_startUrl l \/ P e.1)
           (offers P)) with (es := es) (i := i); [| |exact Hoffers|exact Hl].
  - intros l0 Hy Hq e. rewrite Hy, Hq. cbn. intros He.
    apply list_elem_of_singleton in He as ->. now left.
  - intros o w l0 [Hlinks Hprio] Hinv e.
    destruct (tick_loop o w l0) as [(Hy & _ & Hs & _ & Hq)|Hcase]; cbv zeta in *.
    + rewrite Hy, Hs. intros He. apply Hinv. apply elem_of_app in He as [He|He].
      * apply elem_of_app. now left.
      * destruct Hq as [Hq|Hq]; rewrite Hq in He; [apply elem_of_app; now right|].
        now apply elem_of_nil in He.
    + destruct Hcase as (skipped & url & depth & rest & links & ps & Hqueue & _ & _ & Hy & _
                         & Hs & _ & Hq' & Hl' & Hps).
      rewrite Hy, Hs, Hq'. rewrite Hqueue in Hinv.
      assert (Hold : forall x, x ∈ l_yielded l0 \/ x = (url, depth) \/ x ∈ rest ->
                x.1 = l_startUrl l0 \/ P x.1).
      { intros x Hx. apply Hinv. rewrite !elem_of_app, elem_of_cons. tauto. }
      assert (HPps : Forall P ps) by (destruct Hps as [->|[Hps _]]; [constructor|eauto]).
      assert (HPlinks : Forall P links) by (destruct Hl' as [->|[Hl' _]]; [constructor|eauto]).
      rewrite <- app_assoc. intros He. apply elem_of_app in He as [He|He]; [apply Hold; auto|].
      apply elem_of_app in He as [He|He].
      * apply list_elem_of_singleton in He. apply Hold. auto.
      * apply (offers_elem P) in He as [He|He]; [|now right|exact HPps].
        apply elem_of_app in He as [He|He]; [apply Hold; auto|].
        apply list_elem_of_fmap in He as (link & -> & Hin). right. cbn.
        rewrite Forall_forall in HPlinks. now apply HPlinks.
Qed.

Lemma processed_urls_come_from_the_pages_witness :
  ("http://a/2"%string, 1) ∈ l_yielded (loop_after three_links)
  /\ (("http://a/2"%string, 1).1 = l_startUrl (loop_after three_links)
      \/ String.prefix "http://a/" ("http://a/2"%string, 1).1 = true).
Proof.
  assert (Hin : ("http://a/2"%string, 1) ∈ l_yielded (loop_after three_links)).
  { replace (l_yielded (loop_after three_links))
      with [("http://a", 0); ("http://a/1", 1); ("http://a/2", 1); ("http://a/3", 1)]%string
      by reflexivity.
    apply elem_of_cons; right. apply elem_of_cons; right. apply elem_of_cons; now left. }
  split; [exact Hin|].
  apply (processed_urls_come_from_the_pages (fun url => String.prefix "http://a/" url = true)
           three_links 0%nat (loop_after three_links)).
  - intros k o Ho. unfold three_links in Ho.
    repeat (apply elem_of_cons in Ho as [Ho|Ho];
            [first [discriminate Ho
                   |injection Ho as _ ->; split; cbn;
                    [intros links [= <-]; repeat constructor|intros ps [=]]]|]).
    now apply elem_of_nil in Ho.
  - vm_compute. reflexivity.
  - apply elem_of_app. now left.
Defined.

(** ** A job that is not running *)

Lemma crawled_app calls calls' : crawled (calls ++ calls') = crawled calls ++ crawled calls'.
Proof. unfold crawled. apply omap_app. Qed.

Lemma crawled_map_Close rs : crawled (map Close rs) = [].
Proof. induction rs as [|r rs IH]; [reflexivity|exact IH]. Qed.

Lemma crawled_cleanupCrawl id now w :
  crawled (trace (cleanupCrawl id now w)) = crawled (trace w).
Proof.
  unfold cleanupCrawl. destruct (activeCrawls w !! id) as [ref|]; [|reflexivity].
  destruct (heap w !! ref) as [crawlData|]; [|reflexivity].
  cbn. rewrite !crawled_app, crawled_map_Close. cbn. now rewrite app_nil_r.
Qed.

Lemma trace_updateCrawlStatus id status message now w :
  trace (updateCrawlStatus id status message now w) = trace w.
Proof.
  unfold updateCrawlStatus.
  match goal with |- context [updateOne id ?f w] => set (w1 := updateOne id f w) end.
  destruct (activeCrawls w1 !! id); reflexivity.
Qed.

(** The loop test on a job object that is not running ends the loop. *)
Lemma idle_tick o w l :
  l_pc l = AtLoopHead ->
  status_of w (l_crawlData l) <> Some running ->
  crawled (trace (fst (tick o (w, l)))) = crawled (trace w)
  /\ snd (tick o (w, l)) = set_l_pc Returned l.
Proof.
  intros Hpc Hst. unfold tick. rewrite Hpc. case_decide; [contradiction|].
  cbn [leave_loop fst snd]. split; [|reflexivity].
  now rewrite crawled_cleanupCrawl, trace_updateCrawlStatus.
Qed.

Lemma held_emit crawlId ref c w : held crawlId ref w -> held crawlId ref (emit c w).
Proof. intros H; exact H. Qed.

Lemma held_updateOne crawlId ref id g w :
  held crawlId ref w -> held crawlId ref (updateOne id g w).
Proof. intros H; exact H. Qed.

(** A write to a job object that does not make it running. *)
Lemma held_update_data crawlId ref ref' f w :
  (forall crawlData,
     cd_status (f crawlData) = cd_status crawlData \/ cd_status (f crawlData) <> running) ->
  held crawlId ref w -> held crawlId ref (update_data ref' f w).
Proof.
  intros Hf [(status & Hstatus & Hoff) Hid]. split; [|exact Hid].
  unfold status_of in *. cbn. rewrite list_lookup_alter. case_decide; [|eauto].
  subst ref'. destruct (heap w !! ref) as [d|]; [|discriminate]. cbn in *.
  injection Hstatus as <-. destruct (Hf d) as [->|Hne]; eauto.
Qed.

(** A write to another job object. *)
Lemma held_update_other crawlId ref ref' f w :
  ref' <> ref -> held crawlId ref w -> held crawlId ref (update_data ref' f w).
Proof.
  intros Hne [(status & Hstatus & Hoff) Hid]. split; [|exact Hid].
  unfold status_of in *. cbn. rewrite list_lookup_alter, decide_False by congruence. eauto.
Qed.

Lemma held_delete crawlId ref id w :
  held crawlId ref w ->
  held crawlId ref (set_activeCrawls (delete id (activeCrawls w)) w).
Proof.
  intros [Hstatus Hid]. split; [exact Hstatus|]. cbn. intros id' Hid'.
  apply lookup_delete_Some in Hid' as [_ Hid']. eauto.
Qed.

Lemma held_updateCrawlStatus crawlId ref id status message now w :
  status <> running ->
  held crawlId ref w -> held crawlId ref (updateCrawlStatus id status message now w).
Proof.
  intros Hstatus H. unfold updateCrawlStatus.
  match goal with |- context [updateOne id ?f w] => set (w1 := updateOne id f w) end.
  assert (H1 : held crawlId ref w1) by (now apply held_updateOne).
  destruct (activeCrawls w1 !! id); [|exact H1].
  apply held_update_data; [|exact H1].
  intros crawlData. right. now destruct (truthy message).
Qed.

Lemma held_cleanupCrawl crawlId ref id now w :
  held crawlId ref w -> held crawlId ref (cleanupCrawl id now w).
Proof.
  intros H. unfold cleanupCrawl. destruct (activeCrawls w !! id) as [r|]; [|exact H].
  destruct (heap w !! r); [|exact H]. now apply held_delete.
Qed.

Lemma held_pauseCrawl crawlId ref id now w :
  held crawlId ref w -> held crawlId ref (snd (pauseCrawl id now w)).
Proof.
  intros H. unfold pauseCrawl.
  destruct (activeCrawls w !! id ≫= _) as [[r crawlData]|]; [|exact H].
  case_decide; [|exact H]. cbn [snd].
  apply held_updateOne, held_update_data; [|exact H]. intros d. right. discriminate.
Qed.

Lemma held_stopCrawl crawlId ref id now w :
  held crawlId ref w -> held crawlId ref (snd (stopCrawl id now w)).
Proof.
  intros H. unfold stopCrawl. destruct (activeCrawls w !! id) as [r|]; [|exact H].
  cbn [snd]. apply held_cleanupCrawl, held_updateOne, held_update_data; [|exact H].
  intros d. right. discriminate.
Qed.

Lemma held_processCrawl crawlId ref id url depth options now w :
  held crawlId ref w -> held crawlId ref (fst (processCrawl id url depth options now w)).
Proof.
  intros H. unfold processCrawl. destruct (activeCrawls w !! id) as [r|]; cbn [fst].
  - apply held_update_data; [|now apply held_emit]. intros d. now left.
  - now apply held_updateCrawlStatus.
Qed.

(** [resumeCrawl] of another job. *)
Lemma held_resumeCrawl crawlId ref id now w :
  id <> crawlId ->
  held crawlId ref w -> held crawlId ref (snd (fst (resumeCrawl id now w))).
Proof.
  intros Hne H. unfold resumeCrawl.
  destruct (activeCrawls w !! id) as [r|] eqn:Hid; [|exact H]. cbn [mbind option_bind].
  destruct (heap w !! r) as [crawlData|]; [|exact H].
  cbn [fmap option_fmap option_map]. case_decide; [|exact H].
  match goal with |- context [processCrawl ?a ?b ?c ?d ?e ?w1] =>
    pose proof (held_processCrawl crawlId ref a b c d e w1) as Hp;
    destruct (processCrawl a b c d e w1) as [w2 l2] end.
  cbn [fst snd] in *. apply Hp. apply held_updateOne, held_update_other; [|exact H].
  intros ->. destruct H as [_ Honly]. apply Hne. now apply Honly.
Qed.

Lemma held_startCrawl crawlId ref id url depth options now w :
  held crawlId ref w -> held crawlId ref (fst (startCrawl id url depth options now w)).
Proof.
  intros H. unfold startCrawl. destruct (save_rejects id url depth w); [exact H|].
  unfold launch. apply held_processCrawl.
  destruct H as [(status & Hstatus & Hoff) Hid].
  assert (Hlt : (ref < length (heap w))%nat).
  { unfold status_of in Hstatus. destruct (heap w !! ref) eqn:Hd; [|discriminate].
    now apply lookup_lt_Some in Hd. }
  split.
  - exists status. split; [|exact Hoff]. unfold status_of in *. cbn.
    now rewrite lookup_app_l by exact Hlt.
  - cbn. intros id' Hid'. apply lookup_insert_Some in Hid' as [[_ Heq]|[_ Hid']]; [lia|eauto].
Qed.

Lemma held_keeps_lifecycle crawlId ref s s' :
  keeps_lifecycle s s' -> held crawlId ref (fst s) -> held crawlId ref (fst s').
Proof.
  intros (Hstatus & _ & Hactive & _) [Hoff Hid]. split.
  - now rewrite Hstatus.
  - now rewrite Hactive.
Qed.

Lemma held_tick crawlId ref o s :
  held crawlId ref (fst s) -> held crawlId ref (fst (tick o s)).
Proof.
  destruct s as [w l]. intros H. unfold tick.
  assert (Hleave : forall l', held crawlId ref (fst (leave_loop (o_now o) (w, l')))).
  { intros l'. cbn. apply held_cleanupCrawl, held_updateCrawlStatus; [discriminate|exact H]. }
  destruct (l_pc l); [|exact H].
  case_decide; [|apply Hleave].
  destruct (dequeue _ _ _) as [[[url depth] rest]|]; [|apply Hleave].
  match goal with |- context [process_url url depth o ?s1] =>
    pose proof (keeps_lifecycle_process_url url depth o s1) as Hk;
    destruct (process_url url depth o s1) as [[[]|message] [w2 l2]] end.
  - exact (held_keeps_lifecycle _ _ _ _ Hk H).
  - cbn [settle record_error fst]. cbn [fst snd] in Hk.
    apply held_updateOne, held_update_data; [intros d; now left|].
    exact (held_keeps_lifecycle _ _ _ _ Hk H).
Qed.

Lemma held_step crawlId ref s e :
  (forall now, e <> Resume crawlId now) ->
  held crawlId ref (world s) -> held crawlId ref (world (step s e)).
Proof.
  intros Hresume H.
  destruct e as [id url depth options now|id now|id now|id now|i o]; cbn [step].
  - pose proof (held_startCrawl crawlId ref id url depth options now _ H) as Hs.
    destruct (startCrawl id url depth options now (world s)). exact Hs.
  - now apply held_pauseCrawl.
  - assert (Hne : id <> crawlId) by (intros ->; now apply (Hresume now)).
    pose proof (held_resumeCrawl crawlId ref id now _ Hne H) as Hr.
    destruct (resumeCrawl id now (world s)) as [[b w] l]. exact Hr.
  - now apply held_stopCrawl.
  - destruct (loops s !! i) as [l|]; [|exact H].
    pose proof (held_tick crawlId ref o (world s, l) H) as Ht.
    destruct (tick o (world s, l)). exact Ht.
Qed.

Lemma held_run crawlId ref es : forall s,
  (forall now, Resume crawlId now ∉ es) ->
  held crawlId ref (world s) -> held crawlId ref (world (run s es)).
Proof.
  induction es as [|e es IH]; intros s Hresume H; [exact H|].
  cbn [run fold_left]. fold (run (step s e) es). apply IH.
  - intros now Hin. apply (Hresume now). apply elem_of_cons. now right.
  - apply held_step; [|exact H]. intros now ->. apply (Hresume now). apply elem_of_cons. now left.
Qed.

(** A pause or a stop that succeeds holds the job object. *)
Lemma held_after_command es crawlId ref now e :
  activeCrawls (world (run initial es)) !! crawlId = Some ref ->
  e = Stop crawlId now
  \/ (e = Pause crawlId now /\ fst (pauseCrawl crawlId now (world (run initial es))) = true) ->
  held crawlId ref (world (step (run initial es) e)).
Proof.
  intros Hid He.
  pose proof (resources_ok_run es initial resources_ok_initial) as (_ & Hrefs & Hinj & _).
  set (w := world (run initial es)) in *.
  destruct (lookup_lt_is_Some_2 (heap w) ref (Hrefs _ _ Hid)) as [d Hd].
  assert (Honly : forall id, activeCrawls w !! id = Some ref -> id = crawlId).
  { intros id Hid'. exact (Hinj id crawlId ref Hid' Hid). }
  destruct He as [->|[-> Hpaused]]; cbn [step]; fold w.
  - unfold stopCrawl. rewrite Hid. cbn [snd].
    apply held_cleanupCrawl, held_updateOne. split; [|exact Honly].
    exists stopped. split; [|discriminate]. unfold status_of. cbn.
    rewrite list_lookup_alter, decide_True by reflexivity. now rewrite Hd.
  - unfold pauseCrawl in *. rewrite Hid in *. cbn [mbind option_bind] in *.
    rewrite Hd in *. cbn [fmap option_fmap option_map] in *.
    destruct (decide (cd_status d = running)); [|discriminate]. cbn [snd].
    apply held_updateOne. split; [|exact Honly].
    exists paused. split; [|discriminate]. unfold status_of. cbn.
    rewrite list_lookup_alter, decide_True by reflexivity. now rewrite Hd.
Qed.

(** After a [pauseCrawl] that returned [true] or a [stopCrawl] of a job in
    the Map, and whatever commands and loop steps follow as long as none
    of them resumes the job, the next loop test of a crawl loop that works
    on the job object the Map held ends the loop: it navigates to no page
    and takes no entry from its queue. *)
Theorem pause_and_stop_end_the_loop_before_the_next_page
    (es es' : list Event) (e : Event) (crawlId : string) (ref : nat) (now : Z)
    (o : Outcome) (l : Loop) :
  activeCrawls (world (run initial es)) !! crawlId = Some ref ->
  e = Stop crawlId now
  \/ (e = Pause crawlId now /\ fst (pauseCrawl crawlId now (world (run initial es))) = true) ->
  (forall now', Resume crawlId now' ∉ es') ->
  l_crawlData l = ref ->
  l_pc l = AtLoopHead ->
  let w := world (run initial (es ++ e :: es')) in
  crawled (trace (fst (tick o (w, l)))) = crawled (trace w)
  /\ snd (tick o (w, l)) = set_l_pc Returned l.
Proof.
  intros Hid He Hresume Hl Hpc w. apply idle_tick; [exact Hpc|].
  assert (H : held crawlId ref w).
  { subst w. unfold run. rewrite fold_left_app. cbn [fold_left].
    apply (held_run crawlId ref es'); [exact Hresume|].
    now apply (held_after_command es crawlId ref now e). }
  destruct H as [(status & Hstatus & Hoff) _]. rewrite Hl, Hstatus. congruence.
Qed.

Lemma pause_and_stop_end_the_loop_before_the_next_page_witness :
  l_urlQueue (loop_after paused_with_work) = [("http://a/b"%string, 1)]
  /\ crawled (trace (world (run initial paused_with_work))) = ["http://a"%string]
  /\ crawled (trace (fst (tick (page_ok 30 [] None)
                            (world (run initial paused_with_work),
                             loop_after paused_with_work))))
     = crawled (trace (world (run initial paused_with_work)))
  /\ snd (tick (page_ok 30 [] None)
            (world (run initial paused_with_work), loop_after paused_with_work))
     = set_l_pc Returned (loop_after paused_with_work).
Proof.
  split; [vm_compute; reflexivity|]. split; [vm_compute; reflexivity|].
  apply (pause_and_stop_end_the_loop_before_the_next_page one_page_crawled
           [Start "other" "http://b" 1 no_ocr 25] (Pause "job" 20) "job"%string 0%nat 20
           (page_ok 30 [] None) (loop_after paused_with_work)).
  - vm_compute. reflexivity.
  - right. split; [reflexivity|vm_compute; reflexivity].
  - intros now' Hin. apply elem_of_cons in Hin as [Hin|Hin]; [discriminate|].
    now apply elem_of_nil in Hin.
  - vm_compute. reflexivity.
  - vm_compute. reflexivity.
Defined.

End ServiceProperties.

(** *** Link extraction *)

Section LinkExtraction.
Import Crawler.
Variable resolve : string -> string -> option string.
Variable origin : string -> option string.

Lemma Set_add_spec set value :
  NoDup set ->
  NoDup (Set_add set value) /\ forall x, x ∈ Set_add set value <-> x ∈ set \/ x = value.
Proof.
  intros Hset. unfold Set_add. case_decide as Hin.
  - split; [exact Hset|]. intros x. split; [auto|]. intros [H| ->]; assumption.
  - split.
    + apply NoDup_app. split; [exact Hset|]. split; [|apply NoDup_singleton].
      intros x Hx Hx'. apply list_elem_of_singleton in Hx'. congruence.
    + intros x. rewrite elem_of_app, list_elem_of_singleton. reflexivity.
Qed.

Lemma fold_Set_add_spec values : forall set,
  NoDup set ->
  NoDup (fold_left Set_add values set)
  /\ forall x, x ∈ fold_left Set_add values set <-> x ∈ set \/ x ∈ values.
Proof.
  induction values as [|v values IH]; intros set Hset; cbn [fold_left].
  - split; [exact Hset|]. intros x. rewrite elem_of_nil. tauto.
  - destruct (Set_add_spec set v Hset) as [Hnd Hin].
    destruct (IH _ Hnd) as [Hnd' Hin']. split; [exact Hnd'|].
    intros x. rewrite Hin', Hin, elem_of_cons. tauto.
Qed.

Lemma Set_of_spec values :
  NoDup (Set_of values) /\ forall x, x ∈ Set_of values <-> x ∈ values.
Proof.
  destruct (fold_Set_add_spec values [] (NoDup_nil_2)) as [Hnd Hin].
  split; [exact Hnd|]. intros x. unfold Set_of. rewrite Hin, elem_of_nil. tauto.
Qed.

Lemma keep_link_true baseUrl link :
  keep_link origin baseUrl (Some link) = Some true
  <-> String.prefix "http" link = true
      /\ exists o, origin link = Some o /\ origin baseUrl = Some o.
Proof.
  unfold keep_link. destruct (String.prefix "http" link).
  - destruct (origin link) as [o|]; cbn.
    + destruct (origin baseUrl) as [b|]; cbn.
      * split.
        -- intros [= H]. apply bool_decide_eq_true in H. subst b. eauto.
        -- intros (_ & o' & [= <-] & [= <-]). f_equal. now apply bool_decide_eq_true.
      * split; [discriminate|]. intros (_ & o' & _ & [=]).
    + split; [discriminate|]. intros (_ & o' & [=] & _).
  - split; [discriminate|]. intros [[=] _].
Qed.

Lemma filter_links_spec baseUrl : forall urls kept,
  filter_links origin baseUrl urls = Some kept ->
  forall link, link ∈ kept
               <-> Some link ∈ urls /\ keep_link origin baseUrl (Some link) = Some true.
Proof.
  induction urls as [|url urls IH]; intros kept H link; cbn [filter_links] in H.
  - injection H as <-. rewrite !elem_of_nil. tauto.
  - destruct (keep_link origin baseUrl url) as [keep|] eqn:Hkeep; [|discriminate].
    cbn in H. destruct (filter_links origin baseUrl urls) as [kept'|]; [|discriminate].
    cbn in H. injection H as <-. specialize (IH kept' eq_refl link).
    rewrite elem_of_cons. destruct url as [u|].
    + destruct keep.
      * rewrite elem_of_cons, IH. split.
        -- intros [->|[Hin Hk]]; [split; [now left|exact Hkeep]|split; [now right|exact Hk]].
        -- intros [[[= ->]|Hin] Hk]; [now left|right; auto].
      * rewrite IH. split.
        -- intros [Hin Hk]. split; [now right|exact Hk].
        -- intros [[[= ->]|Hin] Hk]; [congruence|auto].
    + rewrite IH. split.
      * intros [Hin Hk]. split; [now right|exact Hk].
      * intros [[[=]|Hin] Hk]. auto.
Qed.

Lemma filter_links_total baseUrl : forall urls,
  is_Some (origin baseUrl) ->
  (forall link, Some link ∈ urls -> is_Some (origin link)) ->
  is_Some (filter_links origin baseUrl urls).
Proof.
  intros urls [b Hb]. induction urls as [|url urls IH]; intros Hurls; cbn [filter_links]; [eauto|].
  destruct IH as [kept ->]; [intros link Hin; apply Hurls, elem_of_cons; now right|].
  assert (Hkeep : is_Some (keep_link origin baseUrl url)).
  { destruct url as [u|]; cbn; [|eauto]. destruct (String.prefix "http" u); [|eauto].
    destruct (Hurls u) as [o ->]; [apply elem_of_cons; now left|]. rewrite Hb. cbn. eauto. }
  destruct Hkeep as [keep ->]. cbn. eauto.
Qed.

(** The links [extractLinks] returns are exactly the resolved [href]s
    that start with "http" and have the origin of the base url, each of
    them once; the call only rejects when the url parser throws on the base
    url or on a resolved [href]. *)
Theorem extracted_links_are_unique_and_same_origin (hrefs : list string) (baseUrl : string) :
  (forall links,
     extractLinks resolve origin hrefs baseUrl = Some links ->
     NoDup links
     /\ forall link,
          link ∈ links
          <-> String.prefix "http" link = true
              /\ (exists href, href ∈ hrefs /\ resolve href baseUrl = Some link)
              /\ exists o, origin link = Some o /\ origin baseUrl = Some o)
  /\ (is_Some (origin baseUrl) ->
      (forall href link, href ∈ hrefs -> resolve href baseUrl = Some link ->
                         is_Some (origin link)) ->
      is_Some (extractLinks resolve origin hrefs baseUrl)).
Proof.
  split.
  - intros links H. unfold extractLinks in H.
    destruct (filter_links origin baseUrl _) as [kept|] eqn:Hkept; [|discriminate].
    cbn in H. injection H as <-. destruct (Set_of_spec kept) as [Hnd Hin].
    split; [exact Hnd|]. intros link.
    rewrite Hin, (filter_links_spec _ _ _ Hkept), keep_link_true, list_elem_of_fmap.
    split.
    + intros [(href & Hr & Hh) [Hp Ho]]. split; [exact Hp|]. split; [|exact Ho]. eauto.
    + intros (Hp & (href & Hh & Hr) & Ho). split; [eauto|]. auto.
  - intros Hbase Hlinks. unfold extractLinks.
    destruct (filter_links_total baseUrl (map (fun href => resolve href baseUrl) hrefs) Hbase)
      as [kept ->]; [|cbn; eauto].
    intros link Hin. apply list_elem_of_fmap in Hin as (href & Hr & Hh). eauto.
Qed.

Example extracted_links_example :
  extractLinks example_resolve example_origin
    ["/1"; "http://b/2"; "http://a/1"; "mailto:x"; "/3"]%string "http://a"%string
  = Some ["http://a/1"; "http://a/3"]%string.
Proof. vm_compute. reflexivity. Qed.

End LinkExtraction.

(** *** The log of a job *)

Section Logs.
Import Crawler.

Lemma insert_newest_first_perm e sorted : insert_newest_first e sorted ≡ₚ e :: sorted.
Proof.
  induction sorted as [|e' rest IH]; cbn; [reflexivity|].
  destruct (log_timestamp e <? log_timestamp e'); [|reflexivity].
  rewrite IH. apply Permutation_swap.
Qed.

Lemma sort_newest_first_perm logs : sort_newest_first logs ≡ₚ logs.
Proof.
  induction logs as [|e logs IH]; cbn; [reflexivity|].
  rewrite insert_newest_first_perm. now rewrite IH.
Qed.

Lemma insert_newest_first_stable t e sorted :
  List.filter (fun x => log_timestamp x =? t) (insert_newest_first e sorted)
  = List.filter (fun x => log_timestamp x =? t) (e :: sorted).
Proof.
  induction sorted as [|e' rest IH]; [reflexivity|]. cbn [insert_newest_first].
  destruct (Z.ltb_spec (log_timestamp e) (log_timestamp e')) as [Hlt|Hge]; [|reflexivity].
  cbn [List.filter] in *. rewrite IH.
  destruct (Z.eqb_spec (log_timestamp e) t), (Z.eqb_spec (log_timestamp e') t);
    try reflexivity. lia.
Qed.

Lemma sort_newest_first_stable t logs :
  List.filter (fun x => log_timestamp x =? t) (sort_newest_first logs)
  = List.filter (fun x => log_timestamp x =? t) logs.
Proof.
  induction logs as [|e logs IH]; [reflexivity|]. cbn [sort_newest_first foldr].
  rewrite insert_newest_first_stable. cbn [List.filter].
  fold (sort_newest_first logs). now rewrite IH.
Qed.

Lemma newest_first_nil : newest_first [].
Proof. intros i j e e' _ H. discriminate. Qed.

Lemma newest_first_cons e logs :
  newest_first (e :: logs)
  <-> (forall e', e' ∈ logs -> log_timestamp e' <= log_timestamp e) /\ newest_first logs.
Proof.
  split.
  - intros H. split.
    + intros e' Hin. apply list_elem_of_lookup in Hin as [j Hj].
      apply (H 0%nat (S j) e e'); [lia|reflexivity|exact Hj].
    + intros i j a b Hij Ha Hb. apply (H (S i) (S j) a b); [lia|exact Ha|exact Hb].
  - intros [Hhead Htail] i j a b Hij Ha Hb. destruct i as [|i], j as [|j]; cbn in *.
    + simplify_eq. lia.
    + simplify_eq. apply Hhead. eapply list_elem_of_lookup_2, Hb.
    + lia.
    + apply (Htail i j a b); [lia|exact Ha|exact Hb].
Qed.

Lemma insert_newest_first_sorted e sorted :
  newest_first sorted -> newest_first (insert_newest_first e sorted).
Proof.
  induction sorted as [|e' rest IH]; intros H; cbn.
  - apply newest_first_cons. split; [|exact H]. intros x Hx. now apply elem_of_nil in Hx.
  - apply newest_first_cons in H as [Hhead Htail].
    destruct (Z.ltb_spec (log_timestamp e) (log_timestamp e')) as [Hlt|Hge].
    + apply newest_first_cons. split; [|now apply IH].
      intros x Hx. rewrite insert_newest_first_perm in Hx.
      apply elem_of_cons in Hx as [->|Hx]; [lia|auto].
    + apply newest_first_cons. split.
      * intros x Hx. apply elem_of_cons in Hx as [->|Hx]; [lia|].
        specialize (Hhead x Hx). lia.
      * apply newest_first_cons. auto.
Qed.

Lemma sort_newest_first_sorted logs : newest_first (sort_newest_first logs).
Proof.
  induction logs as [|e logs IH]; cbn; [apply newest_first_nil|].
  now apply insert_newest_first_sorted.
Qed.

Lemma newest_first_page logs n k :
  newest_first logs -> newest_first (take n (drop k logs)).
Proof.
  intros H i j e e' Hij He He'.
  apply lookup_take_Some in He as [He _]. apply lookup_take_Some in He' as [He' _].
  rewrite lookup_drop in He, He'. apply (H (k + i)%nat (k + j)%nat); [lia|assumption..].
Qed.

Lemma take_min {A} n (l : list A) : take (n `min` length l) l = take n l.
Proof.
  destruct (Nat.le_gt_cases n (length l)); [now rewrite Nat.min_l by lia|].
  rewrite Nat.min_r by lia. now rewrite !take_ge by lia.
Qed.

(** [slice] with an offset and a limit that are not negative. *)
Lemma slice_page {A} (l : list A) offset limit :
  0 <= offset -> 0 <= limit ->
  slice l offset (offset + limit) = take (Z.to_nat limit) (drop (Z.to_nat offset) l).
Proof.
  intros Ho Hl. unfold slice.
  destruct (Z.ltb_spec offset 0); [lia|]. destruct (Z.ltb_spec (offset + limit) 0); [lia|].
  set (len := Z.of_nat (length l)).
  destruct (Z.le_gt_cases len offset) as [Hbig|Hsmall].
  - rewrite !drop_ge by lia. now rewrite !take_nil.
  - rewrite (Z.min_l offset) by lia. rewrite <- (take_min (Z.to_nat limit)), length_drop.
    f_equal. unfold len in *. lia.
Qed.

(** [slice] from the start with a negative end. *)
Lemma slice_negative {A} (l : list A) limit :
  limit < 0 -> slice l 0 (0 + limit) = take (length l - Z.to_nat (- limit)) l.
Proof.
  intros Hl. unfold slice. cbn [Z.ltb Z.compare]. rewrite Z.add_0_l.
  destruct (Z.ltb_spec limit 0); [|lia]. rewrite (Z.min_l 0) by lia.
  change (Z.to_nat 0) with 0%nat. rewrite drop_0. f_equal. lia.
Qed.

Lemma all_logs_length clock crawlJob :
  length (all_logs clock crawlJob)
  = (length (j_visitedUrls crawlJob) + length (j_errors crawlJob)
     + length (j_ocrResults crawlJob))%nat.
Proof.
  unfold all_logs. rewrite sort_newest_first_perm.
  rewrite !length_app, length_imap, !length_map. lia.
Qed.

(** One call of [getCrawlLogs] on a stored job with an offset and a limit
    that are not negative returns the segment of [limit] entries of the
    sorted log from [offset] on: entry [k] of the page is entry
    [offset + k] of the log, the page holds as many entries as the log has
    from [offset] on and never more than [limit], and it is empty when the
    offset is not below the number of entries. *)
Theorem log_page_is_a_segment_of_the_log
    (w : World) (crawlId : string) (crawlJob : CrawlJob) (clock : nat -> Z)
    (offset limit : Z) :
  db w !! crawlId = Some crawlJob ->
  0 <= offset -> 0 <= limit ->
  let entries := Z.of_nat (length (j_visitedUrls crawlJob) + length (j_errors crawlJob)
                           + length (j_ocrResults crawlJob)) in
  exists page,
    getCrawlLogs crawlId limit offset clock w = Some page
    /\ page = take (Z.to_nat limit) (drop (Z.to_nat offset) (all_logs clock crawlJob))
    /\ Z.of_nat (length page) = Z.min limit (Z.max 0 (entries - offset))
    /\ (forall k e, page !! k = Some e
                    <-> Z.of_nat k < limit
                        /\ all_logs clock crawlJob !! (Z.to_nat offset + k)%nat = Some e)
    /\ (entries <= offset -> page = []).
Proof.
  intros Hj Ho Hl entries. unfold getCrawlLogs. rewrite Hj. cbn [mbind option_bind].
  pose proof (all_logs_length clock crawlJob) as Hlen.
  set (logs := all_logs clock crawlJob) in *.
  rewrite slice_page by lia.
  eexists. split; [reflexivity|]. split; [reflexivity|]. split; [|split].
  - rewrite length_take, length_drop, Hlen. subst entries. lia.
  - intros k e. rewrite lookup_take_Some, lookup_drop. split; intros [H1 H2]; split;
      try assumption; lia.
  - intros Hbig. rewrite drop_ge; [apply take_nil|]. rewrite Hlen. subst entries. lia.
Qed.

Lemma log_page_is_a_segment_of_the_log_witness :
  exists page,
    getCrawlLogs "job"%string 1 1 (fun _ => 20) (world (run initial page_then_failure))
    = Some page
    /\ Z.of_nat (length page) = 1.
Proof.
  destruct (log_page_is_a_segment_of_the_log (world (run initial page_then_failure))
              "job"%string (job_after page_then_failure) (fun _ => 20) 1 1)
    as (page & Hpage & _ & Hlen & _); [vm_compute; reflexivity|lia..|].
  exists page. split; [exact Hpage|]. rewrite Hlen. vm_compute. reflexivity.
Defined.

(** The log of a stored job holds one entry for each stored url, error
    and recognition result and nothing else, newest first, entries with the
    same timestamp in the order urls, errors, recognition results; every
    page is ordered newest first and made of entries of the log; a limit
    of at least the number of entries returns the whole log. *)
Theorem log_is_complete_and_newest_first
    (w : World) (crawlId : string) (crawlJob : CrawlJob) (clock : nat -> Z)
    (offset limit : Z) :
  db w !! crawlId = Some crawlJob ->
  0 <= offset -> 0 <= limit ->
  all_logs clock crawlJob
    ≡ₚ imap (url_log clock) (j_visitedUrls crawlJob)
       ++ map error_log (j_errors crawlJob) ++ map ocr_log (j_ocrResults crawlJob)
  /\ newest_first (all_logs clock crawlJob)
  /\ (forall t,
        List.filter (fun e => log_timestamp e =? t) (all_logs clock crawlJob)
        = List.filter (fun e => log_timestamp e =? t)
            (imap (url_log clock) (j_visitedUrls crawlJob)
             ++ map error_log (j_errors crawlJob) ++ map ocr_log (j_ocrResults crawlJob)))
  /\ (exists page, getCrawlLogs crawlId limit offset clock w = Some page
                   /\ newest_first page
                   /\ forall e, e ∈ page -> e ∈ all_logs clock crawlJob)
  /\ (Z.of_nat (length (j_visitedUrls crawlJob) + length (j_errors crawlJob)
                + length (j_ocrResults crawlJob)) <= limit ->
      getCrawlLogs crawlId limit 0 clock w = Some (all_logs clock crawlJob)).
Proof.
  intros Hj Ho Hl. split; [apply sort_newest_first_perm|].
  split; [apply sort_newest_first_sorted|].
  split; [intros t; apply sort_newest_first_stable|].
  unfold getCrawlLogs. rewrite Hj. cbn [mbind option_bind]. split.
  - eexists. split; [reflexivity|]. rewrite slice_page by lia. split.
    + apply newest_first_page, sort_newest_first_sorted.
    + intros e He. apply elem_of_take in He as (i & He & _). rewrite lookup_drop in He.
      eapply list_elem_of_lookup_2, He.
  - intros Hall. rewrite <- (all_logs_length clock) in Hall.
    change limit with (0 + limit) at 1. rewrite slice_page by lia.
    change (Z.to_nat 0) with 0%nat. rewrite drop_0. now rewrite take_ge by lia.
Qed.

Lemma log_is_complete_and_newest_first_witness :
  newest_first (all_logs (fun _ => 20) (job_after page_then_failure))
  /\ getCrawlLogs "job"%string 100 0 (fun _ => 20) (world (run initial page_then_failure))
     = Some (all_logs (fun _ => 20) (job_after page_then_failure))
  /\ log_message <$> all_logs (fun _ => 20) (job_after page_then_failure)
     = [VisitedUrl "http://a";
        ErrorAt "http://a/b" "net::ERR_NAME_NOT_RESOLVED"].
Proof.
  destruct (log_is_complete_and_newest_first (world (run initial page_then_failure))
              "job"%string (job_after page_then_failure) (fun _ => 20) 0 100)
    as (_ & Hsorted & _ & _ & Hall); [vm_compute; reflexivity|lia..|].
  split; [exact Hsorted|]. split; [|vm_compute; reflexivity].
  apply Hall. vm_compute. discriminate.
Defined.

(** The handler of the logs route answers with no log (status 404)
    exactly when no job is stored under the id; a request without [limit]
    and [offset], or with 0 for them, gets the 100 newest entries; a
    negative [limit] is not refused: with offset 0 the request gets the
    whole log but its [-limit] oldest entries. *)
Theorem log_request_defaults_and_negative_limit
    (w : World) (crawlId : string) (clock : nat -> Z) (limit offset : option Z) :
  (getCrawlLogs_handler crawlId limit offset clock w = None <-> db w !! crawlId = None)
  /\ (forall crawlJob, db w !! crawlId = Some crawlJob ->
      (limit = None \/ limit = Some 0) -> (offset = None \/ offset = Some 0) ->
      getCrawlLogs_handler crawlId limit offset clock w
      = Some (take 100 (all_logs clock crawlJob)))
  /\ (forall crawlJob n, db w !! crawlId = Some crawlJob ->
      limit = Some n -> n < 0 -> (offset = None \/ offset = Some 0) ->
      getCrawlLogs_handler crawlId limit offset clock w
      = Some (take (length (all_logs clock crawlJob) - Z.to_nat (- n))
                (all_logs clock crawlJob))).
Proof.
  unfold getCrawlLogs_handler, getCrawlLogs. split; [|split].
  - destruct (db w !! crawlId); cbn; split; congruence.
  - intros crawlJob Hj Hlimit Hoffset. rewrite Hj. cbn [mbind option_bind].
    replace (Scroll.or_else limit 100) with 100 by (destruct Hlimit as [-> | ->]; reflexivity).
    replace (Scroll.or_else offset 0) with 0 by (destruct Hoffset as [-> | ->]; reflexivity).
    now rewrite (slice_page _ 0 100) by lia.
  - intros crawlJob n Hj -> Hn Hoffset. rewrite Hj. cbn [mbind option_bind].
    replace (Scroll.or_else offset 0) with 0 by (destruct Hoffset as [-> | ->]; reflexivity).
    replace (Scroll.or_else (Some n) 100) with n
      by (unfold Scroll.or_else; destruct (Z.eqb_spec n 0); [lia|reflexivity]).
    now rewrite slice_negative by lia.
Qed.

End Logs.

(** *** The stored recognition result ([src/models/OCRResult.js]) *)

Section StoredResultModel.
Import OCRResult.

(** The [wordCount] of a stored result is the number of words the
    confidence heuristic counts in the same text; it is 0 exactly for a
    blank text, and it never exceeds [textLength]. *)
Theorem wordCount_counts_the_tokens (text : list N) :
  wordCount text = Ocr.tokenCount text
  /\ wordCount text = length (Ocr.words_of text)
  /\ (wordCount text = 0%nat <-> Ocr.blank text = true)
  /\ (wordCount text <= textLength text)%nat.
Proof.
  assert (Hcount : wordCount text = Ocr.tokenCount text).
  { unfold wordCount. destruct text as [|c text]; [reflexivity|]. cbn [length Nat.eqb].
    apply wordCount_tokenCount. }
  split; [exact Hcount|]. split; [now rewrite Hcount, wordCount_tokenCount|]. split.
  - rewrite Hcount. split.
    + intros Hz. destruct (Ocr.blank text) eqn:Hb; [reflexivity|].
      apply tokenCount_pos in Hb. lia.
    + clear Hcount. unfold Ocr.tokenCount, Ocr.blank.
      induction text as [|c text IH]; [reflexivity|].
      cbn. destruct (Ocr.is_whitespace c); [exact IH|discriminate].
  - rewrite Hcount. unfold textLength. destruct text as [|c text]; [cbn; lia|].
    cbn [length Nat.eqb]. etransitivity; [apply (count_tokens_le true)|].
    unfold Ocr.tokenChars. apply filter_length_le.
Qed.

Lemma add_keyword_words keyword keywords :
  word <$> add_keyword keyword keywords
  = if decide (word keyword ∈ word <$> keywords) then word <$> keywords
    else (word <$> keywords) ++ [word keyword].
Proof.
  induction keywords as [|e rest IH]; cbn [add_keyword fmap list_fmap].
  - destruct (decide _) as [Hin|_]; [now apply elem_of_nil in Hin|reflexivity].
  - destruct (decide (word e = word keyword)) as [Heq|Hne]; cbn [fmap list_fmap].
    + clear IH. destruct (decide _) as [_|Hnin]; [reflexivity|].
      exfalso. apply Hnin. rewrite Heq. apply elem_of_cons. now left.
    + fold (fmap (M := list) word). rewrite IH. clear IH.
      destruct (decide (word keyword ∈ word <$> rest)) as [Hin|Hnin].
      * destruct (decide _) as [_|Hnin']; [reflexivity|].
        exfalso. apply Hnin'. apply elem_of_cons. now right.
      * destruct (decide _) as [Hin'|_]; [|reflexivity].
        apply elem_of_cons in Hin' as [Heq|Hin']; [congruence|contradiction].
Qed.

Lemma add_keyword_NoDup keyword keywords :
  NoDup (word <$> keywords) -> NoDup (word <$> add_keyword keyword keywords).
Proof.
  intros H. rewrite add_keyword_words. destruct (decide _) as [|Hnin]; [exact H|].
  apply NoDup_app. split; [exact H|]. split; [|apply NoDup_singleton].
  intros x Hx Hx'. apply list_elem_of_singleton in Hx'. congruence.
Qed.

Lemma add_keyword_frequency keyword keywords e :
  NoDup (word <$> keywords) -> e ∈ keywords ->
  exists e', e' ∈ add_keyword keyword keywords
             /\ word e' = word e
             /\ frequency e' = frequency e + (if decide (word e = word keyword) then 1 else 0).
Proof.
  induction keywords as [|x rest IH]; intros Hnd He; [now apply elem_of_nil in He|].
  cbn [fmap list_fmap] in Hnd. apply NoDup_cons in Hnd as [Hx Hnd].
  fold (fmap (M := list) word) in Hx, Hnd.
  cbn [add_keyword]. apply elem_of_cons in He as [->|He].
  - destruct (decide (word x = word keyword)) as [Heq|Hne].
    + eexists. split; [apply elem_of_cons; left; reflexivity|]. cbn. auto.
    + exists x. split; [apply elem_of_cons; now left|]. split; [reflexivity|lia].
  - destruct (decide (word x = word keyword)) as [Heq|Hne].
    + exists e. split; [apply elem_of_cons; now right|]. split; [reflexivity|].
      destruct (decide (word e = word keyword)) as [Heq'|]; [|lia].
      exfalso. apply Hx. rewrite Heq, <- Heq'. apply list_elem_of_fmap. eauto.
    + destruct (IH Hnd He) as (e' & Hin & Hw & Hf).
      exists e'. split; [apply elem_of_cons; now right|]. auto.
Qed.

Lemma occurrences_cons w keyword keywords :
  occurrences w (keyword :: keywords)
  = ((if decide (w = word keyword) then 1 else 0) + occurrences w keywords)%nat.
Proof.
  unfold occurrences. cbn [List.filter].
  destruct (decide (w = word keyword)) as [->|Hne].
  - now rewrite bool_decide_eq_true_2.
  - rewrite bool_decide_eq_false_2 by congruence. reflexivity.
Qed.

(** [addKeywords] on a list in which no word is repeated gives a list in
    which no word is repeated; its words are those of the list and those
    of the new keywords; a keyword of the list is still there under its
    word, its frequency raised by the number of new keywords with that
    word. *)
Theorem addKeywords_merges_by_word (keywords new : list Keyword) :
  NoDup (word <$> keywords) ->
  NoDup (word <$> addKeywords keywords new)
  /\ (forall w, w ∈ word <$> addKeywords keywords new
                <-> w ∈ word <$> keywords \/ w ∈ word <$> new)
  /\ (forall e, e ∈ keywords ->
        exists e', e' ∈ addKeywords keywords new
                   /\ word e' = word e
                   /\ frequency e' = frequency e + Z.of_nat (occurrences (word e) new)).
Proof.
  unfold addKeywords. revert keywords.
  induction new as [|keyword new IH]; intros keywords Hnd; cbn [fold_left].
  - split; [exact Hnd|]. split.
    + intros w. cbn. rewrite elem_of_nil. tauto.
    + intros e He. exists e. cbn. split; [exact He|]. split; [reflexivity|lia].
  - destruct (IH _ (add_keyword_NoDup keyword keywords Hnd)) as (Hnd' & Hwords & Hfreq).
    split; [exact Hnd'|]. split.
    + intros w. rewrite Hwords, add_keyword_words. cbn [fmap list_fmap].
      fold (fmap (M := list) word). rewrite elem_of_cons.
      destruct (decide (word keyword ∈ word <$> keywords)) as [Hin|Hnin].
      * split; [tauto|]. intros [H|[->|H]]; auto.
      * rewrite elem_of_app, list_elem_of_singleton. tauto.
    + intros e He.
      destruct (add_keyword_frequency keyword keywords e Hnd He) as (e1 & Hin1 & Hw1 & Hf1).
      destruct (Hfreq e1 Hin1) as (e2 & Hin2 & Hw2 & Hf2).
      exists e2. split; [exact Hin2|]. split; [congruence|].
      rewrite Hf2, Hf1, Hw1, occurrences_cons. destruct (decide _); lia.
Qed.

Lemma addKeywords_merges_by_word_witness :
  NoDup (word <$> addKeywords example_keywords example_new)
  /\ word <$> addKeywords example_keywords example_new = ["sale"; "shoes"; "summer"]%string
  /\ frequency <$> addKeywords example_keywords example_new = [5; 1; 1]
  /\ category <$> addKeywords example_keywords example_new
     = [Some "marketing"; None; None]%string.
Proof.
  split; [|repeat split; reflexivity].
  apply (addKeywords_merges_by_word example_keywords example_new).
  cbn. repeat constructor; rewrite ?elem_of_cons, ?elem_of_nil; intros H;
    repeat destruct H as [H|H]; try discriminate; assumption.
Defined.

End StoredResultModel.
